(** * Chunking, content-addressed ingestion and retrieval: a shallow embedding

    The development follows the Python sources under [src/rag]:
    - [chunking.py]: heading heuristics, block splitting, [chunk_pages];
    - [rag03_meta_sqlite.py]: the [MetaStore] over the [chunks] and
      [faiss_map] tables;
    - [rag03_index_faiss.py]: [l2_normalize] and [FaissIndex];
    - [rag03_ingest_faiss.py]: [ingest].

    Python [str] values are modelled as lists of characters ([list ascii],
    code points below 256), Python [int] as [Z], exceptions as the [Raise]
    branch of [res]. *)

From Stdlib Require Import ZArith NArith List Ascii String Bool Lia.
From Stdlib Require Import Floats.SpecFloat.
From stdpp Require Import base option list gmap strings.

Local Open Scope Z_scope.

(** ** Strings *)

Definition str := list ascii.

Definition lit (s : string) : str := list_ascii_of_string s.

Definition code (a : ascii) : N := N_of_ascii a.

Definition in_range (lo hi : N) (a : ascii) : bool :=
  ((lo <=? code a) && (code a <=? hi))%N.

(** [str.isspace] for one code point below 256 (also the class [\s] of
    [re] on [str] patterns). *)
Definition isspace (a : ascii) : bool :=
  in_range 9 13 a || in_range 28 32 a || (code a =? 133)%N || (code a =? 160)%N.

Fixpoint lstrip (s : str) : str :=
  match s with
  | [] => []
  | a :: s' => if isspace a then lstrip s' else s
  end.

Definition rstrip (s : str) : str := rev (lstrip (rev s)).

(** [s.strip()] *)
Definition strip (s : str) : str := rstrip (lstrip s).

(** [sep.join(parts)] *)
Fixpoint join (sep : str) (parts : list str) : str :=
  match parts with
  | [] => []
  | [p] => p
  | p :: ps => p ++ sep ++ join sep ps
  end.

Definition str_eqb (a b : str) : bool := bool_decide (a = b).

(** [x or d] on an optional string: [None] and the empty string are falsy. *)
Definition or_str (x : option str) (d : str) : str :=
  match x with
  | Some s => if bool_decide (s = []) then d else s
  | None => d
  end.

(** [int(x or 0)] on an optional integer. *)
Definition or_int (x : option Z) : Z :=
  match x with
  | Some n => n
  | None => 0
  end.

(** ** Exceptions *)

Inductive exn :=
| IndexError
| ValueError
| RuntimeError
| AttributeError
| AssertionError
| IntegrityError
| OverflowError
| OperationalError
| EmbeddingProviderError.

Inductive res (A : Type) :=
| Ok (a : A)
| Raise (e : exn).
Arguments Ok {A} a.
Arguments Raise {A} e.

(** ** rag03_meta_sqlite.py *)

Record ChunkRow := {
  chunk_id : str;
  row_doc : str;
  row_source_pdf : str;
  row_page_start : Z;
  row_page_end : Z;
  row_section_title : option str;
  row_text : str;
  row_sha1 : str
}.

(** The two tables of [_init_schema], in insertion order; [Z] stands for
    the INTEGER of SQLite.  [chunk_id] is
    the primary key of [chunks] and [sha1] is [UNIQUE]; [faiss_id] is the
    primary key of [faiss_map].  The foreign key of [faiss_map] is declared
    but SQLite does not enforce it unless asked to. *)
Record DB := {
  chunks : list ChunkRow;
  faiss_map : list (Z * str)
}.

Definition empty_db : DB := {| chunks := []; faiss_map := [] |}.

(** A Python [int] that [sqlite3] can bind to a parameter: the INTEGER of
    SQLite is a signed 64-bit integer, and binding an [int] outside it
    raises [OverflowError]. *)
Definition sqlite_int (n : Z) : bool := (- 2 ^ 63 <=? n) && (n <? 2 ^ 63).

(** [SELECT 1 FROM chunks WHERE sha1 = ? LIMIT 1] *)
Definition has_sha1 (db : DB) (sha1 : str) : bool :=
  existsb (fun r => str_eqb (row_sha1 r) sha1) (chunks db).

Definition has_chunk_id (db : DB) (cid : str) : bool :=
  existsb (fun r => str_eqb (chunk_id r) cid) (chunks db).

Definition has_faiss_id (db : DB) (i : Z) : bool :=
  existsb (fun m => Z.eqb (fst m) i) (faiss_map db).

(** The dictionaries returned by [get_chunks_by_faiss_ids]. *)
Record Hit := {
  hit_faiss_id : Z;
  hit_doc : str;
  hit_source_pdf : str;
  hit_page_start : Z;
  hit_page_end : Z;
  hit_section_title : option str;
  hit_text : str
}.

Definition hit_of (m : Z * str) (c : ChunkRow) : Hit :=
  {| hit_faiss_id := fst m;
     hit_doc := row_doc c;
     hit_source_pdf := row_source_pdf c;
     hit_page_start := row_page_start c;
     hit_page_end := row_page_end c;
     hit_section_title := row_section_title c;
     hit_text := row_text c |}.

Definition Z_mem (i : Z) (l : list Z) : bool := existsb (Z.eqb i) l.

(** [SELECT ... FROM faiss_map m JOIN chunks c ON c.chunk_id = m.chunk_id
    WHERE m.faiss_id IN (...)], as a nested loop over the two tables. *)
Definition select_join (db : DB) (faiss_ids : list Z) : list Hit :=
  flat_map
    (fun m =>
       if Z_mem (fst m) faiss_ids
       then flat_map
              (fun c => if str_eqb (chunk_id c) (snd m) then [hit_of m c] else [])
              (chunks db)
       else [])
    (faiss_map db).

(** The dict comprehension [by_id]: a later row replaces an earlier one
    with the same key. *)
Definition by_id_of (rows : list Hit) : gmap Z Hit :=
  foldl (fun d r => <[hit_faiss_id r := r]> d) ∅ rows.

(** A position resolves when the join has a row for it. *)
Definition resolvable (db : DB) (i : Z) : bool :=
  existsb (fun m => Z.eqb (fst m) i && has_chunk_id db (snd m)) (faiss_map db).

(** ** External collaborators

    Library calls whose code is not part of the repository are taken as
    parameters: [hashlib.sha1(...).hexdigest()] behind [sha1_text],
    [uuid.uuid4()] (the [n]-th draw of the process), [np.linalg.norm] on one
    row, the search of [faiss.IndexFlatIP], the [EmbeddingProvider]
    protocol, whose answer may depend on how many requests came before, and
    the [SQLITE_MAX_VARIABLE_NUMBER] the SQLite library was built with (999
    before version 3.32.0, 32766 from it on). *)

Definition float32 := spec_float.
Definition vec := list float32.

(** The [np.ndarray] values the pipeline distinguishes: a 2-d array of
    shape [(length rows, ncols)], or an array of another rank. *)
Inductive ndarray :=
| Matrix (ncols : nat) (rows : list vec)
| NotMatrix.

Class External := {
  sha1_text : str → str;
  uuid4 : nat → str;
  linalg_norm : vec → float32;
  index_search : list vec → list vec → Z → list (list Z) * list (list float32);
  embed_texts : nat → list str → res ndarray;
  max_variable_number : Z
}.

Section Store.
Context `{External}.

(** [get_chunks_by_faiss_ids]: the statement has one parameter for each
    position, so [execute] raises [OperationalError] when there are more
    than SQLite allows in one statement, and [OverflowError] when
    a position is not a SQLite integer. *)
Definition get_chunks_by_faiss_ids (db : DB) (faiss_ids : list Z) : res (list Hit) :=
  match faiss_ids with
  | [] => Ok []
  | _ =>
      if max_variable_number <? Z.of_nat (length faiss_ids) then Raise OperationalError
      else if negb (forallb sqlite_int faiss_ids) then Raise OverflowError
      else
        let rows := select_join db faiss_ids in
        let by_id := by_id_of rows in
        Ok (omap (fun i => by_id !! i) faiss_ids)
  end.

(** Positions that one statement can take: no more than SQLite allows,
    each a SQLite integer. *)
Definition bindable (faiss_ids : list Z) : Prop :=
  Z.of_nat (length faiss_ids) ≤ max_variable_number
  ∧ Forall (fun i => sqlite_int i = true) faiss_ids.
End Store.

(** ** rag03_index_faiss.py *)

Definition prec32 : Z := 24.
Definition emax32 : Z := 128.

(** The default [eps = 1e-12] next to a [float32] array, where the scalar
    takes the type of the array: 9223372 * 2^-63. *)
Definition eps_default : float32 := S754_finite false 9223372 (-63).

Definition is_nan (f : float32) : bool :=
  match f with
  | S754_nan => true
  | _ => false
  end.

Definition is_zero (f : float32) : bool :=
  match f with
  | S754_zero _ => true
  | _ => false
  end.

(** [np.maximum] on two scalars: [a] when [a >= b] or [a] is a NaN, else
    [b]; so the larger one, and a NaN if there is one. *)
Definition np_maximum (a b : float32) : float32 :=
  if SFleb b a || is_nan a then a else b.

Section Index.
Context `{External}.

(** The divisor [np.maximum(norms, eps)] of one row. *)
Definition divisor (eps : float32) (row : vec) : float32 :=
  np_maximum (linalg_norm row) eps.

Definition l2_normalize (x : list vec) (eps : float32) : list vec :=
  map (fun row => map (fun v => SFdiv prec32 emax32 v (divisor eps row)) row) x.

Record FaissIndex := {
  dim : nat;
  index : list vec
}.

(** [FaissIndex(dim)] *)
Definition FaissIndex_new (d : nat) : FaissIndex := {| dim := d; index := [] |}.

Definition ntotal (fi : FaissIndex) : Z := Z.of_nat (length (index fi)).

(** [list(range(a, b))] *)
Definition range (a b : Z) : list Z :=
  map (fun i => a + Z.of_nat i) (seq 0 (Z.to_nat (b - a))).

(** [FaissIndex.add]: [index.add] refuses rows of another dimension. *)
Definition add (fi : FaissIndex) (vecs : ndarray) : res (list Z * FaissIndex) :=
  match vecs with
  | NotMatrix => Raise ValueError
  | Matrix d rows =>
      let vecs' := l2_normalize rows eps_default in
      let start_id := ntotal fi in
      if Nat.eqb d (dim fi)
      then Ok (range start_id (start_id + Z.of_nat (length vecs')),
               {| dim := dim fi; index := index fi ++ vecs' |})
      else Raise AssertionError
  end.

(** [FaissIndex.search] *)
Definition search (fi : FaissIndex) (qvec : ndarray) (top_k : Z)
  : res (list Z * list float32) :=
  match qvec with
  | NotMatrix => Raise ValueError
  | Matrix d rows =>
      let qvec' := l2_normalize rows eps_default in
      if Nat.eqb d (dim fi)
      then let '(ids, scores) := index_search (index fi) qvec' top_k in
           match ids, scores with
           | i0 :: _, s0 :: _ => Ok (i0, s0)
           | _, _ => Raise IndexError
           end
      else Raise AssertionError
  end.
End Index.

(** ** rag03_ingest_faiss.py *)

(** One JSON object of the chunk file. *)
Record ChunkObj := {
  j_doc : option str;
  j_source_pdf : option str;
  j_page_start : option Z;
  j_page_end : option Z;
  j_section_title : option str;
  j_text : option str
}.

(** The index directory and the process: the two files, the view of the
    open connection (the committed rows plus the pending transaction), and
    the number of uuids drawn and of embedding requests made so far. *)
Record World := {
  faiss_file : option FaissIndex;
  sqlite_file : option DB;
  conn : DB;
  uuid_drawn : nat;
  embed_called : nat
}.

Definition set_faiss_file (f : option FaissIndex) (w : World) : World :=
  {| faiss_file := f; sqlite_file := sqlite_file w; conn := conn w;
     uuid_drawn := uuid_drawn w; embed_called := embed_called w |}.

Definition set_sqlite_file (f : option DB) (w : World) : World :=
  {| faiss_file := faiss_file w; sqlite_file := f; conn := conn w;
     uuid_drawn := uuid_drawn w; embed_called := embed_called w |}.

Definition set_conn (db : DB) (w : World) : World :=
  {| faiss_file := faiss_file w; sqlite_file := sqlite_file w; conn := db;
     uuid_drawn := uuid_drawn w; embed_called := embed_called w |}.

Definition set_uuid_drawn (n : nat) (w : World) : World :=
  {| faiss_file := faiss_file w; sqlite_file := sqlite_file w; conn := conn w;
     uuid_drawn := n; embed_called := embed_called w |}.

Definition set_embed_called (n : nat) (w : World) : World :=
  {| faiss_file := faiss_file w; sqlite_file := sqlite_file w; conn := conn w;
     uuid_drawn := uuid_drawn w; embed_called := n |}.

(** Computations that read and write the world and may raise. *)
Definition M (A : Type) : Type := World → res A * World.

Definition ret {A : Type} (a : A) : M A := fun w => (Ok a, w).

Definition raise {A : Type} (e : exn) : M A := fun w => (Raise e, w).

Definition bind {A B : Type} (m : M A) (k : A → M B) : M B :=
  fun w =>
    match m w with
    | (Ok a, w') => k a w'
    | (Raise e, w') => (Raise e, w')
    end.

Definition lift {A : Type} (r : res A) : M A := fun w => (r, w).

Notation "x <- m ;; k" := (bind m (fun x => k))
  (at level 100, m at next level, right associativity).
Notation "m ;; k" := (bind m (fun _ => k))
  (at level 100, right associativity).

(** A [for] loop threading an accumulator. *)
Fixpoint for_each {A S : Type} (body : S → A → M S) (s : S) (l : list A) : M S :=
  match l with
  | [] => ret s
  | a :: l' => s' <- body s a ;; for_each body s' l'
  end.

Record Stats := {
  total_chunks_in_file : Z;
  skipped_existing : Z;
  added : Z;
  inserted_rows : option Z
}.

(** [kind.lower()] on code points below 256. *)
Definition lower_char (a : ascii) : ascii :=
  if in_range 65 90 a || (in_range 192 222 a && negb (code a =? 215)%N)
  then ascii_of_N (code a + 32)
  else a.

Definition lower (s : str) : str := map lower_char s.

(** [to_add[i : i + n]] for [i] in [range(0, len(to_add), n)], [n > 0]. *)
Fixpoint slices {A : Type} (fuel n : nat) (l : list A) : list (list A) :=
  match fuel, l with
  | _, [] => []
  | O, _ => []
  | S fuel', _ => take n l :: slices fuel' n (drop n l)
  end.

Section Ingest.
Context `{External}.

(** [MetaStore(sqlite_path)]: connects, creating the file and the empty
    tables when they are missing, and commits the schema. *)
Definition MetaStore_init : M unit :=
  fun w =>
    let db := default empty_db (sqlite_file w) in
    (Ok tt, set_conn db (set_sqlite_file (Some db) w)).

(** [MetaStore.close]: the pending transaction is dropped. *)
Definition close : M unit :=
  fun w => (Ok tt, set_conn (default empty_db (sqlite_file w)) w).

Definition commit : M unit :=
  fun w => (Ok tt, set_sqlite_file (Some (conn w)) w).

(** [MetaStore.insert_chunk]: the uuid is drawn and the row built; then
    [execute] binds the parameters, which raises [OverflowError] for a page
    number that is not a SQLite integer, and runs the INSERT, which raises
    [IntegrityError] on a stored [chunk_id] or [sha1]. *)
Definition insert_chunk (doc source_pdf : str) (page_start page_end : Z)
    (section_title : option str) (text : str) : M ChunkRow :=
  fun w =>
    let s := sha1_text text in
    let cid := uuid4 (uuid_drawn w) in
    let row := {| chunk_id := cid; row_doc := doc; row_source_pdf := source_pdf;
                  row_page_start := page_start; row_page_end := page_end;
                  row_section_title := section_title; row_text := text;
                  row_sha1 := s |} in
    let w1 := set_uuid_drawn (S (uuid_drawn w)) w in
    if negb (sqlite_int page_start && sqlite_int page_end)
    then (Raise OverflowError, w1)
    else if has_chunk_id (conn w) cid || has_sha1 (conn w) s
    then (Raise IntegrityError, w1)
    else (Ok row,
          set_conn {| chunks := chunks (conn w) ++ [row];
                      faiss_map := faiss_map (conn w) |} w1).

(** One row of [insert_faiss_map]: the position is bound
    ([OverflowError] when it is not a SQLite integer), then inserted
    ([IntegrityError] when it is mapped already). *)
Definition insert_faiss_row (m : Z * str) : M unit :=
  fun w =>
    if negb (sqlite_int (fst m)) then (Raise OverflowError, w)
    else if has_faiss_id (conn w) (fst m)
    then (Raise IntegrityError, w)
    else (Ok tt,
          set_conn {| chunks := chunks (conn w);
                      faiss_map := faiss_map (conn w) ++ [m] |} w).

(** [executemany] over [zip(faiss_ids, chunk_ids)] *)
Definition insert_faiss_map (faiss_ids : list Z) (chunk_ids : list str) : M unit :=
  for_each (fun _ m => insert_faiss_row m) tt (combine faiss_ids chunk_ids).

(** [pick_embedder]: the provider object itself is the [embed_texts] of
    [External]. *)
Definition pick_embedder (kind : str) : M unit :=
  if str_eqb (lower kind) (lit "openai") then ret tt else raise ValueError.

Definition embedder_embed_texts (texts : list str) : M ndarray :=
  fun w => (embed_texts (embed_called w) texts,
            set_embed_called (S (embed_called w)) w).

(** The hash the first loop looks up, and the one [insert_chunk] stores. *)
Definition precheck_text (ch : ChunkObj) : str := strip (or_str (j_text ch) []).
Definition precheck_sha1 (ch : ChunkObj) : str := sha1_text (precheck_text ch).
Definition stored_sha1 (ch : ChunkObj) : str := sha1_text (or_str (j_text ch) []).

(** One turn of the loop that collects the new chunks; the accumulator is
    [(to_add, skipped, total)]. *)
Definition collect_step (db : DB) (acc : list ChunkObj * Z * Z) (ch : ChunkObj)
  : list ChunkObj * Z * Z :=
  let '(to_add, skipped, total) := acc in
  let total := total + 1 in
  match precheck_text ch with
  | [] => (to_add, skipped, total)
  | _ =>
      if has_sha1 db (precheck_sha1 ch)
      then (to_add, skipped + 1, total)
      else (to_add ++ [ch], skipped, total)
  end.

Definition collect (chunks_jsonl : list ChunkObj) : M (list ChunkObj * Z * Z) :=
  fun w => (Ok (foldl (collect_step (conn w)) ([], 0, 0) chunks_jsonl), w).

Definition insert_chunk_of (b : ChunkObj) : M ChunkRow :=
  insert_chunk (or_str (j_doc b) (lit "doc")) (or_str (j_source_pdf b) [])
               (or_int (j_page_start b)) (or_int (j_page_end b))
               (j_section_title b) (or_str (j_text b) []).

Definition ensure_faiss (faiss_index : option FaissIndex) (d : nat) : FaissIndex :=
  match faiss_index with
  | None => FaissIndex_new d
  | Some fi => fi
  end.

(** The body of the batch loop; the accumulator is
    [(faiss_index, added, inserted_rows)]. *)
Definition ingest_batch (acc : option FaissIndex * Z * Z) (batch : list ChunkObj)
  : M (option FaissIndex * Z * Z) :=
  let '(faiss_index, n_added, n_rows) := acc in
  let texts := map (fun b => or_str (j_text b) []) batch in
  vecs <- embedder_embed_texts texts ;;
  match vecs with
  | NotMatrix => raise RuntimeError
  | Matrix d rows =>
      if negb (Nat.eqb (length rows) (length texts)) then raise RuntimeError
      else
        let fi := ensure_faiss faiss_index d in
        new_rows <- for_each (fun rows b => row <- insert_chunk_of b ;; ret (rows ++ [row]))
                             [] batch ;;
        r <- lift (add fi vecs) ;;
        let '(ids, fi') := r in
        insert_faiss_map ids (map chunk_id new_rows) ;;
        commit ;;
        ret (Some fi', n_added + Z.of_nat (length ids),
             n_rows + Z.of_nat (length new_rows))
  end.

(** The batches of [for i in range(0, len(to_add), batch_size)]: a zero
    step raises, a negative one gives no batch. *)
Definition batches_of (to_add : list ChunkObj) (batch_size : Z)
  : M (list (list ChunkObj)) :=
  if batch_size =? 0 then raise ValueError
  else if batch_size <? 0 then ret []
  else ret (slices (length to_add) (Z.to_nat batch_size) to_add).

Definition save (faiss_index : option FaissIndex) : M unit :=
  match faiss_index with
  | None => raise AttributeError
  | Some fi => fun w => (Ok tt, set_faiss_file (Some fi) w)
  end.

Definition ingest (chunks_jsonl : list ChunkObj) (embedder_kind : str)
    (batch_size : Z) : M Stats :=
  MetaStore_init ;;
  faiss_index <- (fun w => (Ok (faiss_file w), w)) ;;
  pick_embedder embedder_kind ;;
  c <- collect chunks_jsonl ;;
  let '(to_add, skipped, total) := c in
  match to_add with
  | [] =>
      close ;;
      ret {| total_chunks_in_file := total; skipped_existing := skipped;
             added := 0; inserted_rows := None |}
  | _ =>
      batches <- batches_of to_add batch_size ;;
      r <- for_each ingest_batch (faiss_index, 0, 0) batches ;;
      let '(faiss_index, n_added, n_rows) := r in
      save faiss_index ;;
      close ;;
      ret {| total_chunks_in_file := total; skipped_existing := skipped;
             added := n_added; inserted_rows := Some n_rows |}
  end.
End Ingest.

(** ** Sample collaborators

    A collision-free hash (the text itself), distinct identifiers, the
    norm computed from left to right, and two providers: one that answers
    every request with one unit vector per text, and one whose requests
    fail from the [k]-th on. *)

Definition one32 : float32 := S754_finite false 8388608 (-23).

Definition sample_uuid4 (n : nat) : str := repeat "u"%char (S n).

Definition sample_norm (row : vec) : float32 :=
  SFsqrt prec32 emax32
    (fold_left (fun acc v => SFadd prec32 emax32 acc (SFmul prec32 emax32 v v))
               row (S754_zero false)).

Definition unit_embed_texts (n : nat) (texts : list str) : res ndarray :=
  Ok (Matrix 1 (map (fun _ => [one32]) texts)).

Definition failing_embed_texts (k : nat) (n : nat) (texts : list str) : res ndarray :=
  if Nat.ltb n k then unit_embed_texts n texts else Raise EmbeddingProviderError.

Definition sample_external (embed : nat → list str → res ndarray) : External :=
  {| sha1_text := fun s => s;
     uuid4 := sample_uuid4;
     linalg_norm := sample_norm;
     index_search := fun _ _ _ => ([], []);
     embed_texts := embed;
     max_variable_number := 32766 |}.

Definition healthy : External := sample_external unit_embed_texts.

(** The second request fails. *)
Definition flaky : External := sample_external (failing_embed_texts 1).

Definition text_chunk (t : string) : ChunkObj :=
  {| j_doc := Some (lit "manual"); j_source_pdf := Some (lit "manual.pdf");
     j_page_start := Some 1; j_page_end := Some 1;
     j_section_title := None; j_text := Some (lit t) |}.

Definition chunks_ab : list ChunkObj := [text_chunk "a"; text_chunk "b"].
Definition chunks_aa : list ChunkObj := [text_chunk "a"; text_chunk "a"].
Definition chunks_blank : list ChunkObj := [text_chunk " "].

(** An index directory without files, in a process that has drawn no uuid
    and sent no request. *)
Definition empty_dir : World :=
  {| faiss_file := None; sqlite_file := None; conn := empty_db;
     uuid_drawn := 0; embed_called := 0 |}.

(** ** Vocabulary of the statements about ingestion *)

Section IngestSpec.
Context `{External}.

(** The row [insert_chunk] builds for [b] from the [n]-th uuid. *)
Definition row_of (n : nat) (b : ChunkObj) : ChunkRow :=
  {| chunk_id := uuid4 n;
     row_doc := or_str (j_doc b) (lit "doc");
     row_source_pdf := or_str (j_source_pdf b) [];
     row_page_start := or_int (j_page_start b);
     row_page_end := or_int (j_page_end b);
     row_section_title := j_section_title b;
     row_text := or_str (j_text b) [];
     row_sha1 := stored_sha1 b |}.

Fixpoint rows_from (n : nat) (l : list ChunkObj) : list ChunkRow :=
  match l with
  | [] => []
  | b :: l' => row_of n b :: rows_from (S n) l'
  end.

(** The tables after the chunks [l] were inserted one after the other,
    with uuids from the [u]-th on and positions from [s] on. *)
Definition db_after (db : DB) (u : nat) (s : Z) (l : list ChunkObj) : DB :=
  {| chunks := chunks db ++ rows_from u l;
     faiss_map := faiss_map db
                  ++ combine (range s (s + Z.of_nat (length l)))
                             (map chunk_id (rows_from u l)) |}.

Definition ntotal_opt (fio : option FaissIndex) : Z :=
  match fio with
  | Some fi => ntotal fi
  | None => 0
  end.

(** What the directory holds: the tables of the metadata file (none when
    the file is missing) and the size of the saved index. *)
Definition disk_db (w : World) : DB := default empty_db (sqlite_file w).
Definition disk_ntotal (w : World) : Z := ntotal_opt (faiss_file w).

(** The two files agree: the mapped positions are exactly
    [0 .. ntotal - 1] of the saved index, each mapped to a stored chunk. *)
Definition consistent (w : World) : Prop :=
  map fst (faiss_map (disk_db w)) = range 0 (disk_ntotal w)
  ∧ Forall (fun m => has_chunk_id (disk_db w) (snd m) = true) (faiss_map (disk_db w)).

(** The provider answers its [n]-th request with one [d]-dimensional
    vector per text. *)
Definition answers (d : nat) (n : nat) : Prop :=
  ∀ texts, ∃ rows, embed_texts n texts = Ok (Matrix d rows)
                   ∧ length rows = length texts.

(** Every stored identifier was drawn earlier in this process. *)
Definition ids_drawn (db : DB) (u : nat) : Prop :=
  ∀ r, r ∈ chunks db → ∃ i, (i < u)%nat ∧ chunk_id r = uuid4 i.

(** What holds between two batches: everything is committed, the
    positions follow the index in memory, whose dimension is [d]. *)
Definition loop_inv (d : nat) (w : World) (fio : option FaissIndex) : Prop :=
  sqlite_file w = Some (conn w)
  ∧ map fst (faiss_map (conn w)) = range 0 (ntotal_opt fio)
  ∧ Forall (fun m => has_chunk_id (conn w) (snd m) = true) (faiss_map (conn w))
  ∧ ids_drawn (conn w) (uuid_drawn w)
  ∧ (∀ fi, fio = Some fi → dim fi = d).

(** A chunk whose text is not empty and has no surrounding whitespace. *)
Definition clean (ch : ChunkObj) : Prop :=
  ∃ t, j_text ch = Some t ∧ t ≠ [] ∧ strip t = t.

(** A chunk whose page numbers are SQLite integers. *)
Definition storable (ch : ChunkObj) : Prop :=
  sqlite_int (or_int (j_page_start ch)) = true
  ∧ sqlite_int (or_int (j_page_end ch)) = true.

Definition nonblank (ch : ChunkObj) : bool :=
  negb (bool_decide (precheck_text ch = [])).

(** The directory is ready for a provider of dimension [d]. *)
Definition ready (d : nat) (w : World) : Prop :=
  consistent w
  ∧ ids_drawn (disk_db w) (uuid_drawn w)
  ∧ (∀ fi, faiss_file w = Some fi → dim fi = d).
End IngestSpec.

(** ** chunking.py: a small [re]

    The patterns of the module use literals, classes, groups, alternation,
    greedy and lazy repetition, [^], [$] and [\b].  Matching is the usual
    backtracking search: alternatives are tried from left to right, a
    greedy repetition tries one more round before it tries to stop, a lazy
    one the other way round.  No repeated body of these patterns can match
    the empty string, so a round that consumes nothing is refused. *)

Inductive regex :=
| Eps
| Chr (p : ascii → bool)
| Cat (r1 r2 : regex)
| Alt (r1 r2 : regex)
| Rep (greedy : bool) (lo : nat) (hi : option nat) (r : regex)
| Grp (n : nat) (r : regex)
| Bos
| Eos
| WordB.

Definition is_char (c : ascii) (a : ascii) : bool := (code a =? code c)%N.

(** [\d] *)
Definition isdigit (a : ascii) : bool := in_range 48 57 a.

Definition isupper_ascii (a : ascii) : bool := in_range 65 90 a.

(** [\w]: alphanumeric or underscore, for code points below 256. *)
Definition isword (a : ascii) : bool :=
  isdigit a || in_range 65 90 a || in_range 97 122 a || is_char "_" a
  || (code a =? 170)%N || (code a =? 178)%N || (code a =? 179)%N
  || (code a =? 181)%N || (code a =? 185)%N || (code a =? 186)%N
  || in_range 188 190 a || in_range 192 214 a || in_range 216 246 a
  || in_range 248 255 a.

(** [.] without [DOTALL] *)
Definition isdot (a : ascii) : bool := negb (code a =? 10)%N.

(** A literal word. *)
Fixpoint Lit (s : str) : regex :=
  match s with
  | [] => Eps
  | c :: s' => Cat (Chr (is_char c)) (Lit s')
  end.

Fixpoint Alts (rs : list regex) : regex :=
  match rs with
  | [] => Chr (fun _ => false)
  | [r] => r
  | r :: rs' => Alt r (Alts rs')
  end.

Definition Star (r : regex) : regex := Rep true 0 None r.
Definition Plus (r : regex) : regex := Rep true 1 None r.
Definition Opt (r : regex) : regex := Rep true 0 (Some 1%nat) r.

(** Group number, start and end of the text it matched; the latest first. *)
Definition caps := list (nat * (nat * nat)).
Definition cont := nat → caps → option caps.

(** The rounds of a repetition of [body] from position [i]. *)
Fixpoint rep (body : cont → cont) (greedy : bool) (fuel lo : nat) (hi : option nat)
    (k : cont) (i : nat) (c : caps) : option caps :=
  match fuel with
  | O => None
  | S fuel' =>
      let again :=
        body (fun j c' =>
                if (i <? j)%nat
                then rep body greedy fuel' (Nat.pred lo) (Nat.pred <$> hi) k j c'
                else None) i c in
      match lo with
      | S _ => again
      | O =>
          match hi with
          | Some O => k i c
          | _ =>
              if greedy
              then match again with Some r => Some r | None => k i c end
              else match k i c with Some r => Some r | None => again end
          end
      end
  end.

Definition at_boundary (s : str) (i : nat) : bool :=
  let before := match i with
                | O => false
                | S i' => from_option isword false (s !! i')
                end in
  let after := from_option isword false (s !! i) in
  xorb before after.

Definition at_end (s : str) (i : nat) : bool :=
  (i =? length s)%nat
  || ((S i =? length s)%nat && from_option (is_char "010") false (s !! i)).

Fixpoint rmatch (s : str) (r : regex) (k : cont) (i : nat) (c : caps) : option caps :=
  match r with
  | Eps => k i c
  | Chr p =>
      match s !! i with
      | Some a => if p a then k (S i) c else None
      | None => None
      end
  | Cat r1 r2 => rmatch s r1 (rmatch s r2 k) i c
  | Alt r1 r2 =>
      match rmatch s r1 k i c with
      | Some c' => Some c'
      | None => rmatch s r2 k i c
      end
  | Rep greedy lo hi r' => rep (rmatch s r') greedy (S (S (length s))) lo hi k i c
  | Grp n r' => rmatch s r' (fun j c' => k j ((n, (i, j)) :: c')) i c
  | Bos => if (i =? 0)%nat then k i c else None
  | Eos => if at_end s i then k i c else None
  | WordB => if at_boundary s i then k i c else None
  end.

(** [pattern.match(s)]: the groups of the match at the start of [s];
    group 0 is the whole match. *)
Definition re_match (r : regex) (s : str) : option caps :=
  rmatch s (Grp 0 r) (fun _ c => Some c) 0%nat [].

(** [m.group(n)] *)
Definition group (s : str) (c : caps) (n : nat) : str :=
  match List.find (fun e => Nat.eqb (fst e) n) c with
  | Some (_, (a, b)) => take (b - a) (drop a s)
  | None => []
  end.

(** Where the match of [r] that starts at [p] ends. *)
Definition match_end (r : regex) (s : str) (p : nat) : option nat :=
  match rmatch s (Grp 0 r) (fun _ c => Some c) p [] with
  | Some c =>
      match List.find (fun e => Nat.eqb (fst e) 0) c with
      | Some (_, (_, e)) => Some e
      | None => None
      end
  | None => None
  end.

(** [pattern.split(s)] for a pattern that matches no empty string: the
    pieces between the leftmost matches. *)
Fixpoint split_from (r : regex) (s : str) (fuel last p : nat) : list str :=
  match fuel with
  | O => [drop last s]
  | S fuel' =>
      if (length s <? p)%nat then [drop last s]
      else
        match match_end r s p with
        | Some e =>
            if (p <? e)%nat
            then take (p - last) (drop last s) :: split_from r s fuel' e e
            else split_from r s fuel' last (S p)
        | None => split_from r s fuel' last (S p)
        end
  end.

Definition re_split (r : regex) (s : str) : list str :=
  split_from r s (S (S (length s))) 0 0.

(** ** chunking.py: heading heuristics *)

Definition ws : regex := Chr isspace.
Definition digit : regex := Chr isdigit.
Definition anych : regex := Chr isdot.

(** [^\s*(\d+(?:\.\d+){1,6})\s+(.+?)\s*$] *)
Definition _re_numbered_heading : regex :=
  Cat Bos (Cat (Star ws)
  (Cat (Grp 1 (Cat (Plus digit)
                   (Rep true 1 (Some 6%nat) (Cat (Chr (is_char ".")) (Plus digit)))))
  (Cat (Plus ws)
  (Cat (Grp 2 (Rep false 1 None anych))
  (Cat (Star ws) Eos))))).

(** [^\s*(CHAPTER|Chapter|SECTION|Section|APPENDIX|Appendix)\s+([A-Z0-9]+)\b.*$] *)
Definition _re_chapter_section : regex :=
  Cat Bos (Cat (Star ws)
  (Cat (Grp 1 (Alts [Lit (lit "CHAPTER"); Lit (lit "Chapter"); Lit (lit "SECTION");
                     Lit (lit "Section"); Lit (lit "APPENDIX"); Lit (lit "Appendix")]))
  (Cat (Plus ws)
  (Cat (Grp 2 (Plus (Chr (fun a => isupper_ascii a || isdigit a))))
  (Cat WordB (Cat (Star anych) Eos)))))).

Definition caps_first (a : ascii) : bool := isupper_ascii a || isdigit a.

(** The class [[A-Z0-9 \-_/().,:]] *)
Definition caps_rest (a : ascii) : bool :=
  isupper_ascii a || isdigit a
  || existsb (fun c => is_char c a)
             [" "; "-"; "_"; "/"; "("; ")"; "."; ","; ":"]%char.

(** [^[A-Z0-9][A-Z0-9 \-_/().,:]{8,}$] *)
Definition _re_all_caps : regex :=
  Cat Bos (Cat (Chr caps_first) (Cat (Rep true 8 None (Chr caps_rest)) Eos)).

(** [^\s*(Figure|FIGURE|Table|TABLE)\s+\d+([.-]\d+)?\b.*$] *)
Definition _re_figure_table : regex :=
  Cat Bos (Cat (Star ws)
  (Cat (Grp 1 (Alts [Lit (lit "Figure"); Lit (lit "FIGURE");
                     Lit (lit "Table"); Lit (lit "TABLE")]))
  (Cat (Plus ws)
  (Cat (Plus digit)
  (Cat (Opt (Grp 2 (Cat (Chr (fun a => is_char "." a || is_char "-" a)) (Plus digit))))
  (Cat WordB (Cat (Star anych) Eos))))))).

Definition matches (r : regex) (s : str) : bool :=
  match re_match r s with
  | Some _ => true
  | None => false
  end.

(** [s.endswith(".")] *)
Definition endswith_dot (s : str) : bool :=
  from_option (is_char ".") false (last s).

Definition is_heading_line (line : str) : bool :=
  let s := strip line in
  match s with
  | [] => false
  | _ =>
      if matches _re_numbered_heading s then true
      else if matches _re_chapter_section s then true
      else if matches _re_figure_table s then true
      else if matches _re_all_caps s && negb (endswith_dot s) then true
      else false
  end.

Definition extract_heading_title (line : str) : str :=
  let s := strip line in
  match re_match _re_numbered_heading s with
  | Some m => group s m 1 ++ lit " " ++ strip (group s m 2)
  | None =>
      if matches _re_chapter_section s then s
      else if matches _re_figure_table s then s
      else if matches _re_all_caps s then s
      else take 120 s
  end.

(** ** chunking.py: blocks *)

Fixpoint is_prefix (p s : str) : bool :=
  match p, s with
  | [], _ => true
  | a :: p', b :: s' => (code a =? code b)%N && is_prefix p' s'
  | _ :: _, [] => false
  end.

(** [s.replace(old, new)] for a non-empty [old]; [skip] counts the
    characters of a match still to be dropped. *)
Fixpoint replace_from (old new : str) (skip : nat) (s : str) : str :=
  match s with
  | [] => []
  | a :: s' =>
      match skip with
      | S n => replace_from old new n s'
      | O =>
          if is_prefix old s
          then new ++ replace_from old new (Nat.pred (length old)) s'
          else a :: replace_from old new 0 s'
      end
  end.

Definition replace (old new s : str) : str := replace_from old new 0 s.

Definition CR : ascii := "013".
Definition LF : ascii := "010".

(** [\n\s*\n+] *)
Definition _re_blank_lines : regex :=
  Cat (Chr (is_char LF)) (Cat (Star ws) (Plus (Chr (is_char LF)))).

Definition nonempty (s : str) : bool :=
  match s with
  | [] => false
  | _ => true
  end.

Definition split_into_blocks (page_text : str) : list str :=
  let t := strip (replace [CR] [LF] (replace [CR; LF] [LF] page_text)) in
  match t with
  | [] => []
  | _ => List.filter nonempty (map strip (re_split _re_blank_lines t))
  end.

(** The line boundaries of [str.splitlines] below code point 256. *)
Definition is_linebreak (a : ascii) : bool :=
  in_range 10 13 a || in_range 28 30 a || (code a =? 133)%N.

(** [s.splitlines()]; [cur] is the line read so far, reversed. *)
Fixpoint splitlines_from (cur : str) (s : str) : list str :=
  match s with
  | [] => match cur with
          | [] => []
          | _ => [rev cur]
          end
  | a :: s' =>
      if is_linebreak a
      then rev cur ::
           match s' with
           | b :: s'' =>
               if is_char CR a && is_char LF b
               then splitlines_from [] s''
               else splitlines_from [] s'
           | [] => []
           end
      else splitlines_from (a :: cur) s'
  end.

Definition splitlines (s : str) : list str := splitlines_from [] s.

Definition block_starts_with_heading (block : str) : res (option str) :=
  match splitlines block with
  | [] => Raise IndexError
  | l0 :: _ =>
      let first_line := strip l0 in
      if is_heading_line first_line
      then Ok (Some (extract_heading_title first_line))
      else Ok None
  end.

(** ** chunking.py: chunks *)

Record PageRecord := {
  pr_doc : str;
  pr_source_pdf : str;
  pr_page : Z;
  pr_text : str
}.

Record Chunk := {
  doc : str;
  source_pdf : str;
  page_start : Z;
  page_end : Z;
  section_title : option str;
  text : str
}.

(** The key [char_len] of [to_json]. *)
Definition char_len (c : Chunk) : Z := Z.of_nat (length (text c)).

(** The keys of [Chunk.to_json] that [ingest] reads back. *)
Definition to_json (c : Chunk) : ChunkObj :=
  {| j_doc := Some (doc c); j_source_pdf := Some (source_pdf c);
     j_page_start := Some (page_start c); j_page_end := Some (page_end c);
     j_section_title := section_title c; j_text := Some (text c) |}.

Record Params := {
  target_chars : Z;
  max_chars : Z;
  min_chars : Z;
  overlap_chars : Z
}.

(** The variables that [flush] and the loop of [chunk_pages] share. *)
Record State := {
  st_chunks : list Chunk;
  cur_doc : option str;
  cur_pdf : option str;
  cur_section : option str;
  cur_text_parts : list str;
  cur_page_start : option Z;
  cur_page_end : option Z
}.

Definition init_state : State :=
  {| st_chunks := []; cur_doc := None; cur_pdf := None; cur_section := None;
     cur_text_parts := []; cur_page_start := None; cur_page_end := None |}.

Definition sep : str := [LF; LF].

Definition len (s : str) : Z := Z.of_nat (length s).

(** [text[-n:]] for [0 < n < len(text)] *)
Definition tail_of (n : Z) (text : str) : str :=
  drop (length text - Z.to_nat n) text.

Definition flush (p : Params) (force : bool) (st : State) : State :=
  match cur_text_parts st, cur_page_start st, cur_page_end st with
  | _ :: _, Some ps, Some pe =>
      let text := strip (join sep (cur_text_parts st)) in
      if negb (nonempty text) then st
      else if (len text <? min_chars p) && negb force then st
      else
        let c := {| doc := or_str (cur_doc st) (lit "doc");
                    source_pdf := or_str (cur_pdf st) [];
                    page_start := ps; page_end := pe;
                    section_title := cur_section st; text := text |} in
        if (0 <? overlap_chars p) && (overlap_chars p <? len text)
        then {| st_chunks := st_chunks st ++ [c];
                cur_doc := cur_doc st; cur_pdf := cur_pdf st;
                cur_section := cur_section st;
                cur_text_parts := [tail_of (overlap_chars p) text];
                cur_page_start := Some pe; cur_page_end := Some pe |}
        else {| st_chunks := st_chunks st ++ [c];
                cur_doc := cur_doc st; cur_pdf := cur_pdf st;
                cur_section := cur_section st;
                cur_text_parts := [];
                cur_page_start := None; cur_page_end := Some pe |}
  | _, _, _ => st
  end.

Definition set_section (h : str) (st : State) : State :=
  {| st_chunks := st_chunks st; cur_doc := cur_doc st; cur_pdf := cur_pdf st;
     cur_section := Some h; cur_text_parts := cur_text_parts st;
     cur_page_start := cur_page_start st; cur_page_end := cur_page_end st |}.

(** [if cur_page_start is None: cur_page_start = pr.page] and
    [cur_page_end = pr.page] *)
Definition init_page_range (page : Z) (st : State) : State :=
  {| st_chunks := st_chunks st; cur_doc := cur_doc st; cur_pdf := cur_pdf st;
     cur_section := cur_section st; cur_text_parts := cur_text_parts st;
     cur_page_start := Some (default page (cur_page_start st));
     cur_page_end := Some page |}.

Definition append_part (block : str) (st : State) : State :=
  {| st_chunks := st_chunks st; cur_doc := cur_doc st; cur_pdf := cur_pdf st;
     cur_section := cur_section st; cur_text_parts := cur_text_parts st ++ [block];
     cur_page_start := cur_page_start st; cur_page_end := cur_page_end st |}.

Definition prospective_len (st : State) (block : str) : Z :=
  len (join sep (cur_text_parts st))
  + (if cur_text_parts st is [] then 0 else 2)
  + len block.

(** The loop body after the heading test: page range, overflow test,
    append, target test. *)
Definition place_block (p : Params) (page : Z) (st : State) (block : str) : State :=
  let st := init_page_range page st in
  let st := if max_chars p <? prospective_len st block
            then init_page_range page (flush p true st)
            else st in
  let st := append_part block st in
  if target_chars p <=? len (join sep (cur_text_parts st))
  then flush p false st
  else st.

(** The heading test at the top of the loop body. *)
Definition at_heading (p : Params) (heading : option str) (st : State) : State :=
  match heading with
  | Some h => set_section h (flush p true st)
  | None => st
  end.

Definition do_block (p : Params) (page : Z) (st : State) (block : str) : res State :=
  match block_starts_with_heading block with
  | Raise e => Raise e
  | Ok heading => Ok (place_block p page (at_heading p heading st) block)
  end.

Fixpoint do_blocks (p : Params) (page : Z) (st : State) (blocks : list str) : res State :=
  match blocks with
  | [] => Ok st
  | block :: blocks' =>
      match do_block p page st block with
      | Raise e => Raise e
      | Ok st' => do_blocks p page st' blocks'
      end
  end.

Definition begin_page (pr : PageRecord) (st : State) : State :=
  {| st_chunks := st_chunks st; cur_doc := Some (pr_doc pr);
     cur_pdf := Some (pr_source_pdf pr); cur_section := cur_section st;
     cur_text_parts := cur_text_parts st;
     cur_page_start := cur_page_start st; cur_page_end := cur_page_end st |}.

Definition do_page (p : Params) (st : State) (pr : PageRecord) : res State :=
  let st := begin_page pr st in
  if negb (nonempty (strip (pr_text pr))) then Ok st
  else do_blocks p (pr_page pr) st (split_into_blocks (pr_text pr)).

Fixpoint do_pages (p : Params) (st : State) (pages : list PageRecord) : res State :=
  match pages with
  | [] => Ok st
  | pr :: pages' =>
      match do_page p st pr with
      | Raise e => Raise e
      | Ok st' => do_pages p st' pages'
      end
  end.

Definition chunk_pages (p : Params) (pages : list PageRecord) : res (list Chunk) :=
  match do_pages p init_state pages with
  | Raise e => Raise e
  | Ok st => Ok (st_chunks (flush p true st))
  end.

(** The scenario of two short pages under one numbered heading. *)
Definition two_pages : list PageRecord :=
  [ {| pr_doc := lit "manual"; pr_source_pdf := lit "manual.pdf"; pr_page := 1;
       pr_text := lit "1.1 Overview" ++ [LF] ++ lit "Short intro paragraph." |};
    {| pr_doc := lit "manual"; pr_source_pdf := lit "manual.pdf"; pr_page := 2;
       pr_text := lit "Continuation text that is still short." |} ].

Definition two_pages_params : Params :=
  {| target_chars := 1000; max_chars := 1200; min_chars := 10; overlap_chars := 0 |}.

(** ** Vocabulary of the statements about chunking *)

(** A text that is not empty and has no surrounding whitespace. *)
Definition stripped (s : str) : Prop := s ≠ [] ∧ strip s = s.

(** A text that does not begin with whitespace. *)
Definition hd_nonspace (s : str) : Prop :=
  match s with
  | [] => True
  | a :: _ => isspace a = false
  end.

(** A text whose last character is not whitespace. *)
Definition ends_nonspace (s : str) : Prop :=
  ∃ s' a, s = s' ++ [a] ∧ isspace a = false.

(** The states of the loop of [chunk_pages]: the initial one, the start
    of a page, and the end of a turn of the loop over the blocks of a
    page. *)
Inductive reachable (p : Params) : State → Prop :=
| reach_init : reachable p init_state
| reach_page (pr : PageRecord) (st : State) :
    reachable p st → reachable p (begin_page pr st)
| reach_block (pr : PageRecord) (b : str) (st st' : State) :
    reachable p st →
    b ∈ split_into_blocks (pr_text pr) →
    do_block p (pr_page pr) st b = Ok st' →
    reachable p st'.

(** What [flush] leaves in the accumulator after it emitted [text]. *)
Definition carry_over (p : Params) (text : str) : list str :=
  if (0 <? overlap_chars p) && (overlap_chars p <? len text)
  then [tail_of (overlap_chars p) text]
  else [].


(** One short paragraph, a heading with a long line under it, and a last
    paragraph. *)
Definition overview_heading : str :=
  lit "1.1 Overview of the whole module and its registers".

Definition uneven_record : PageRecord :=
  {| pr_doc := lit "manual"; pr_source_pdf := lit "manual.pdf"; pr_page := 1;
     pr_text := lit "Intro." ++ [LF; LF] ++ overview_heading
                ++ [LF; LF] ++ lit "The end." |}.

Definition uneven_page : list PageRecord := [uneven_record].

Definition uneven_params : Params :=
  {| target_chars := 20; max_chars := 30; min_chars := 10; overlap_chars := 0 |}.

(** The state after the first block of [uneven_page]. *)
Definition after_intro : State :=
  {| st_chunks := []; cur_doc := Some (lit "manual");
     cur_pdf := Some (lit "manual.pdf"); cur_section := None;
     cur_text_parts := [lit "Intro."];
     cur_page_start := Some 1; cur_page_end := Some 1 |}.

(** The chunk [flush] emits from the accumulator of [st], and the state it
    leaves. *)
Definition chunk_of (st : State) (ps pe : Z) : Chunk :=
  {| doc := or_str (cur_doc st) (lit "doc");
     source_pdf := or_str (cur_pdf st) [];
     page_start := ps; page_end := pe;
     section_title := cur_section st;
     text := strip (join sep (cur_text_parts st)) |}.

Definition after_emit (p : Params) (st : State) (ps pe : Z) : State :=
  let c := chunk_of st ps pe in
  {| st_chunks := st_chunks st ++ [c];
     cur_doc := cur_doc st; cur_pdf := cur_pdf st; cur_section := cur_section st;
     cur_text_parts := carry_over p (text c);
     cur_page_start := if (0 <? overlap_chars p) && (overlap_chars p <? len (text c))
                       then Some pe else None;
     cur_page_end := Some pe |}.

(** What holds of every state of the loop: a non-empty accumulator has its
    page range, its parts end in a character that is not whitespace, and
    the chunks emitted so far carry stripped texts. *)
Definition state_ok (st : State) : Prop :=
  (cur_text_parts st ≠ [] → is_Some (cur_page_start st) ∧ is_Some (cur_page_end st))
  ∧ Forall ends_nonspace (cur_text_parts st)
  ∧ Forall (fun c => stripped (text c)) (st_chunks st).



(** ** Tactics *)

(** Two worlds built with the setters are equal field by field. *)
Ltac world_eq :=
  unfold set_conn, set_uuid_drawn, set_embed_called, set_sqlite_file, set_faiss_file;
  cbn; repeat f_equal; try lia.


(** * Further definitions

    What the statements about the rest of the pipeline need: the keys of
    the store, what a computation keeps, the provider of
    [rag03_embeddings.py], the query of [rag03_query.py], and the trace of
    the loop of [chunk_pages]. *)

(** ** The store and its keys *)

(** The constraints of the schema: [chunk_id] and [faiss_id] are primary
    keys, [sha1] is [UNIQUE]. *)
Definition keys_unique (db : DB) : Prop :=
  NoDup (map chunk_id (chunks db))
  ∧ NoDup (map row_sha1 (chunks db))
  ∧ NoDup (map fst (faiss_map db)).

(** The row a position stands for: the mapping with that [faiss_id] and
    the chunk it names. *)
Definition resolve1 (db : DB) (i : Z) : option Hit :=
  match List.find (fun m => Z.eqb (fst m) i) (faiss_map db) with
  | Some m =>
      match List.find (fun c => str_eqb (chunk_id c) (snd m)) (chunks db) with
      | Some c => Some (hit_of m c)
      | None => None
      end
  | None => None
  end.

(** The tables after the sample provider ingested [chunks_ab]. *)
Definition sample_db : DB := @db_after healthy empty_db 0 0 chunks_ab.

Definition sample_world : World :=
  {| faiss_file := None; sqlite_file := Some sample_db; conn := sample_db;
     uuid_drawn := 2; embed_called := 1 |}.

(** ** What a computation keeps *)

(** Every outcome of [m], normal or raised, from a world where [I] holds
    ends in a world where [I] holds, related to the first by [R]. *)
Definition keeps {A : Type} (I : World → Prop) (R : World → World → Prop) (m : M A) : Prop :=
  ∀ w r w', I w → m w = (r, w') → I w' ∧ R w w'.

(** The tables of [a] are a beginning of the tables of [b]. *)
Definition db_le (a b : DB) : Prop :=
  chunks a `prefix_of` chunks b ∧ faiss_map a `prefix_of` faiss_map b.

(** The connection sees what is on disk, and after it the pending rows. *)
Definition pending_ok (w : World) : Prop := db_le (disk_db w) (conn w).

Definition disk_grows (w w' : World) : Prop := db_le (disk_db w) (disk_db w').

Definition index_same (w w' : World) : Prop := faiss_file w' = faiss_file w.

Definition files_same (w w' : World) : Prop :=
  sqlite_file w' = sqlite_file w ∧ faiss_file w' = faiss_file w.

Definition always (w : World) : Prop := True.

(** The stored tables only grow and the index file is the same. *)
Definition grows_same (w w' : World) : Prop := disk_grows w w' ∧ index_same w w'.

(** The dictionary that [get_chunks_by_faiss_ids] returns for the chunk
    [ch] of a chunk file stored at position [i]. *)
Definition hit_at (i : Z) (ch : ChunkObj) : Hit :=
  {| hit_faiss_id := i;
     hit_doc := or_str (j_doc ch) (lit "doc");
     hit_source_pdf := or_str (j_source_pdf ch) [];
     hit_page_start := or_int (j_page_start ch);
     hit_page_end := or_int (j_page_end ch);
     hit_section_title := j_section_title ch;
     hit_text := or_str (j_text ch) [] |}.

(** Both views of the store respect the keys. *)
Definition keys_ok (w : World) : Prop :=
  keys_unique (conn w) ∧ keys_unique (disk_db w).

Definition any_step (w w' : World) : Prop := True.

(** ** The first loop of [ingest] *)

Section IngestSpec2.
Context `{External}.

(** A chunk that the first loop sends on to the batches, and one that it
    counts as skipped. *)
Definition is_new (db : DB) (ch : ChunkObj) : bool :=
  nonblank ch && negb (has_sha1 db (precheck_sha1 ch)).

Definition is_known (db : DB) (ch : ChunkObj) : bool :=
  nonblank ch && has_sha1 db (precheck_sha1 ch).

(** The provider answers its [n]-th request with something that is not one
    row per text. *)
Definition bad_shape (n : nat) : Prop :=
  ∀ texts,
    embed_texts n texts = Ok NotMatrix
    ∨ ∃ d rows, embed_texts n texts = Ok (Matrix d rows)
                ∧ length rows ≠ length texts.
End IngestSpec2.

(** A provider that answers with one row too many. *)
Definition long_embed_texts (n : nat) (texts : list str) : res ndarray :=
  Ok (Matrix 1 ([one32] :: map (fun _ => [one32]) texts)).

Definition long_provider : External := sample_external long_embed_texts.

(** The directory that the run of [chunks_ab] in batches of one leaves
    when the second request fails: the first chunk and its position are
    committed, the index file was never written. *)
Definition torn_dir : World :=
  snd (@ingest flaky chunks_ab (lit "openai") 1 empty_dir).

(** The directory that the run of [chunks_ab] leaves when every request is
    answered. *)
Definition full_dir : World :=
  snd (@ingest healthy chunks_ab (lit "openai") 64 empty_dir).

(** A provider whose third request fails. *)
Definition late : External := sample_external (failing_embed_texts 2).

(** A directory whose index file holds an empty index of dimension 2. *)
Definition other_dim_dir : World :=
  {| faiss_file := Some (FaissIndex_new 2); sqlite_file := None; conn := empty_db;
     uuid_drawn := 0; embed_called := 0 |}.

(** ** rag03_embeddings.py *)

(** [np.array(rows, dtype=np.float32)] of a list of lists of floats: no
    row gives an array of shape [(0,)], rows of one length a matrix, rows
    of different lengths are refused. *)
Definition np_array (rows : list vec) : res ndarray :=
  match rows with
  | [] => Ok NotMatrix
  | r :: _ =>
      if forallb (fun r' => Nat.eqb (length r') (length r)) rows
      then Ok (Matrix (length r) rows)
      else Raise ValueError
  end.

Section Provider.
(** [client.embeddings.create(model=..., input=batch)] as the [n]-th
    request of the client: the embeddings of [resp.data] in the order of
    [resp.data], or the error raised. *)
Variable create : nat → list str → res (list vec).
Variable batch_size : Z.

(** The loop of [embed_texts]: one request per batch, the answers appended
    to [all_vecs]; the number is the count of requests made so far. *)
Fixpoint embed_loop (n : nat) (batches : list (list str)) (all_vecs : list vec)
  : res (list vec) * nat :=
  match batches with
  | [] => (Ok all_vecs, n)
  | batch :: batches' =>
      match create n batch with
      | Raise e => (Raise e, S n)
      | Ok data => embed_loop (S n) batches' (all_vecs ++ data)
      end
  end.

(** [OpenAIEmbeddingProvider.embed_texts] *)
Definition OpenAI_embed_texts (n : nat) (texts : list str) : res ndarray * nat :=
  if batch_size =? 0 then (Raise ValueError, n)
  else
    let batches := if batch_size <? 0 then []
                   else slices (length texts) (Z.to_nat batch_size) texts in
    match embed_loop n batches [] with
    | (Raise e, n') => (Raise e, n')
    | (Ok all_vecs, n') => (np_array all_vecs, n')
    end.
End Provider.

(** A client that answers every text with a vector that tells whether the
    text is empty. *)
Definition sample_embedding (t : str) : vec :=
  [one32; if nonempty t then one32 else S754_zero false].

Definition sample_client (n : nat) (batch : list str) : res (list vec) :=
  Ok (map sample_embedding batch).

(** ** rag03_query.py *)

(** How [rag_query] ends: in the [FileNotFoundError] of its own test, or in
    what the rest of its body returns or raises. *)
Inductive found (A : Type) :=
| FileNotFoundError
| Found (r : res A).
Arguments FileNotFoundError {A}.
Arguments Found {A} r.

(** [pairs]: the positions that are not negative, with their scores. *)
Definition pairs_of (ids : list Z) (scores : list float32) : list (Z * float32) :=
  List.filter (fun p => 0 <=? fst p) (combine ids scores).

(** The loop [for c, s in zip(chunks, scores2): c["score"] = s].  The
    elements of [chunks] are the dictionaries of [by_id], one for each
    [faiss_id]: two elements with one [faiss_id] are one object, and a score
    assigned through one is read through the other.  So the scores are kept
    by [faiss_id], a later assignment replacing an earlier one, and a hit
    is a dictionary with the score it ends up with. *)
Definition score_of (chunks : list Hit) (scores : list float32) : gmap Z float32 :=
  foldl (fun m cs => <[hit_faiss_id (fst cs) := snd cs]> m) ∅ (combine chunks scores).

Definition attach_scores (chunks : list Hit) (scores : list float32)
  : list (Hit * option float32) :=
  map (fun c => (c, score_of chunks scores !! hit_faiss_id c)) chunks.

(** The dictionary that [rag_query] returns, without its key
    [index_dir], the resolved path of the directory. *)
Record QueryResult := {
  q_query : str;
  q_top_k : Z;
  q_hits : list (Hit * option float32)
}.

Section Query.
Context `{External}.

(** [FaissIndex.load]: [faiss.read_index] raises [RuntimeError] on a file
    that is not there. *)
Definition load : M FaissIndex :=
  fun w =>
    match faiss_file w with
    | Some fi => (Ok fi, w)
    | None => (Raise RuntimeError, w)
    end.

Definition rag_query (query : str) (top_k : Z) (embedder_kind : str)
  : World → found QueryResult * World :=
  fun w =>
    match faiss_file w, sqlite_file w with
    | Some _, Some _ =>
        let '(r, w') :=
          (pick_embedder embedder_kind ;;
           qvec <- embedder_embed_texts [query] ;;
           fi <- load ;;
           r <- lift (search fi qvec top_k) ;;
           let '(ids, scores) := r in
           let pairs := pairs_of ids scores in
           let ids2 := map fst pairs in
           let scores2 := map snd pairs in
           MetaStore_init ;;
           chunks <- (fun w => (get_chunks_by_faiss_ids (conn w) ids2, w)) ;;
           close ;;
           ret {| q_query := query; q_top_k := top_k;
                  q_hits := attach_scores chunks scores2 |}) w in
        (Found r, w')
    | _, _ => (FileNotFoundError, w)
    end.
End Query.

(** A search that ranks the stored positions in their order and fills up
    to [top_k] with the position -1 and the lowest score, as
    [IndexFlatIP.search] does when it has fewer vectors than asked for. *)
Definition lowest32 : float32 := S754_finite true 16777215 104.

Definition sample_search (idx q : list vec) (top_k : Z) : list (list Z) * list (list float32) :=
  let n := Z.min top_k (Z.of_nat (length idx)) in
  ([range 0 n ++ repeat (-1) (Z.to_nat (top_k - n))],
   [repeat one32 (Z.to_nat n) ++ repeat lowest32 (Z.to_nat (top_k - n))]).

Definition searching : External :=
  {| sha1_text := fun s => s;
     uuid4 := sample_uuid4;
     linalg_norm := sample_norm;
     index_search := sample_search;
     embed_texts := unit_embed_texts;
     max_variable_number := 32766 |}.

(** The index that [full_dir] holds. *)
Definition full_index : FaissIndex := default (FaissIndex_new 1) (faiss_file full_dir).

(** ** chunking.py: what the loop has seen *)

(** The blocks of the pages, in the order of the loop. *)
Definition all_blocks (pages : list PageRecord) : list str :=
  flat_map (fun pr => split_into_blocks (pr_text pr)) pages.

(** Page numbers that do not decrease. *)
Definition pages_ascend (pages : list PageRecord) : Prop :=
  ∀ i j p q, (i ≤ j)%nat → pages !! i = Some p → pages !! j = Some q →
             pr_page p ≤ pr_page q.

(** A text of whitespace only. *)
Definition blank (s : str) : Prop := Forall (fun a => isspace a = true) s.

(** The page ranges of a state lie in [nums] and are in order. *)
Definition range_inv (nums : list Z) (st : State) : Prop :=
  Forall (fun c => page_start c ≤ page_end c
                   ∧ page_start c ∈ nums ∧ page_end c ∈ nums) (st_chunks st)
  ∧ (∀ ps, cur_page_start st = Some ps → ps ∈ nums)
  ∧ (∀ pe, cur_page_end st = Some pe → pe ∈ nums)
  ∧ (∀ ps pe, cur_page_start st = Some ps → cur_page_end st = Some pe → ps ≤ pe).

(** [doc] and [source_pdf] are those of one page of [seen]; the section is
    the title of a heading block of [bl], or there is none. *)
Definition from_page (seen : list PageRecord) (d pdf : str) : Prop :=
  ∃ pr, pr ∈ seen ∧ d = or_str (Some (pr_doc pr)) (lit "doc") ∧ pdf = pr_source_pdf pr.

Definition from_heading (bl : list str) (sec : option str) : Prop :=
  sec = None
  ∨ ∃ b h, b ∈ bl ∧ block_starts_with_heading b = Ok (Some h) ∧ sec = Some h.

Definition prov_inv (seen : list PageRecord) (bl : list str) (st : State) : Prop :=
  Forall (fun c => from_page seen (doc c) (source_pdf c)
                   ∧ from_heading bl (section_title c)) (st_chunks st)
  ∧ (cur_text_parts st ≠ [] →
     from_page seen (or_str (cur_doc st) (lit "doc")) (or_str (cur_pdf st) []))
  ∧ (seen ≠ [] →
     from_page seen (or_str (cur_doc st) (lit "doc")) (or_str (cur_pdf st) []))
  ∧ from_heading bl (cur_section st).

(** The chunks and the accumulator hold the blocks [bl], each once and in
    order: the chunks are the joins of the groups. *)
Definition content_inv (bl : list str) (st : State) : Prop :=
  ∃ groups,
    map text (st_chunks st) = map (join sep) groups
    ∧ Forall (fun g => g ≠ []) groups
    ∧ concat groups ++ cur_text_parts st = bl
    ∧ Forall stripped (cur_text_parts st).

(** ** Tactics *)

(** Equality of tuples, component by component. *)
Ltac tuple_eq :=
  repeat match goal with |- (_, _) = (_, _) => f_equal end; try done; try lia.

(** * Properties *)

(** ** Resolving positions *)

Lemma str_eqb_eq (a b : str) : str_eqb a b = true ↔ a = b.
Proof. unfold str_eqb. apply bool_decide_eq_true. Qed.

Lemma Z_mem_elem (i : Z) (l : list Z) : Z_mem i l = true ↔ i ∈ l.
Proof.
  unfold Z_mem. rewrite existsb_exists. split.
  - intros (x & Hx & He). apply Z.eqb_eq in He. subst x. by apply list_elem_of_In.
  - intros Hi. exists i. split; [by apply list_elem_of_In | apply Z.eqb_refl].
Qed.

Lemma by_id_of_acc (rows : list Hit) (d : gmap Z Hit) (i : Z) (h : Hit) :
  foldl (fun d r => <[hit_faiss_id r := r]> d) d rows !! i = Some h →
  (h ∈ rows ∧ hit_faiss_id h = i) ∨ d !! i = Some h.
Proof.
  revert d. induction rows as [|r rows IH]; intros d; simpl.
  - by right.
  - intros Hl. destruct (IH _ Hl) as [[Hin Hk] | Hd].
    + left. split; [by right | done].
    + destruct (decide (hit_faiss_id r = i)) as [He | Hne].
      * rewrite <- He, lookup_insert_eq in Hd. inversion Hd; subst h.
        left. split; [by left | done].
      * rewrite lookup_insert_ne in Hd by done. by right.
Qed.

Lemma by_id_of_Some (rows : list Hit) (i : Z) (h : Hit) :
  by_id_of rows !! i = Some h → h ∈ rows ∧ hit_faiss_id h = i.
Proof.
  intros Hl. destruct (by_id_of_acc _ _ _ _ Hl) as [? | Hd]; [done |].
  by rewrite lookup_empty in Hd.
Qed.

Lemma by_id_of_acc_is_Some (rows : list Hit) (d : gmap Z Hit) (i : Z) :
  is_Some (foldl (fun d r => <[hit_faiss_id r := r]> d) d rows !! i) ↔
  (∃ h, h ∈ rows ∧ hit_faiss_id h = i) ∨ is_Some (d !! i).
Proof.
  revert d. induction rows as [|r rows IH]; intros d; simpl.
  - split; [by right |]. intros [(h & Hin & _) | ?]; [| done].
    by apply not_elem_of_nil in Hin.
  - rewrite IH. split.
    + intros [(h & Hin & Hk) | Hs].
      * left. exists h. split; [by right | done].
      * destruct (decide (hit_faiss_id r = i)) as [He | Hne].
        -- left. exists r. split; [by left | done].
        -- rewrite lookup_insert_ne in Hs by done. by right.
    + intros [(h & Hin & Hk) | Hs].
      * apply elem_of_cons in Hin as [-> | Hin].
        -- right. rewrite <- Hk, lookup_insert_eq. by eexists.
        -- left. by exists h.
      * right. destruct (decide (hit_faiss_id r = i)) as [He | Hne].
        -- rewrite <- He, lookup_insert_eq. by eexists.
        -- by rewrite lookup_insert_ne.
Qed.

Lemma select_join_elem (db : DB) (ids : list Z) (h : Hit) :
  h ∈ select_join db ids ↔
  ∃ m c, m ∈ faiss_map db ∧ c ∈ chunks db ∧ fst m ∈ ids ∧
         chunk_id c = snd m ∧ h = hit_of m c.
Proof.
  unfold select_join. rewrite list_elem_of_In, in_flat_map. split.
  - intros (m & Hm & Hh). destruct (Z_mem (fst m) ids) eqn:Hmem; [| done].
    apply in_flat_map in Hh as (c & Hc & Hh).
    destruct (str_eqb (chunk_id c) (snd m)) eqn:He; [| done].
    destruct Hh as [<- | []]. exists m, c.
    rewrite <- !list_elem_of_In in *. apply Z_mem_elem in Hmem.
    apply str_eqb_eq in He. done.
  - intros (m & c & Hm & Hc & Hi & He & ->). exists m.
    split; [by apply list_elem_of_In |].
    apply Z_mem_elem in Hi. rewrite Hi. apply in_flat_map. exists c.
    split; [by apply list_elem_of_In |].
    apply str_eqb_eq in He. rewrite He. by left.
Qed.

Lemma has_chunk_id_elem (db : DB) (cid : str) :
  has_chunk_id db cid = true ↔ ∃ c, c ∈ chunks db ∧ chunk_id c = cid.
Proof.
  unfold has_chunk_id. rewrite existsb_exists. split.
  - intros (c & Hc & He). exists c. rewrite list_elem_of_In.
    by apply str_eqb_eq in He.
  - intros (c & Hc & He). exists c. rewrite <- list_elem_of_In.
    by apply str_eqb_eq in He.
Qed.

Lemma resolvable_by_id (db : DB) (ids : list Z) (i : Z) :
  i ∈ ids →
  is_Some (by_id_of (select_join db ids) !! i) ↔ resolvable db i = true.
Proof.
  intros Hi. unfold by_id_of. rewrite by_id_of_acc_is_Some, lookup_empty.
  unfold resolvable. rewrite existsb_exists. split.
  - intros [(h & Hin & Hk) | Hs]; [| by destruct Hs].
    apply select_join_elem in Hin as (m & c & Hm & Hc & _ & He & ->).
    exists m. split; [by apply list_elem_of_In |].
    simpl in Hk. apply andb_true_iff. split; [by apply Z.eqb_eq |].
    apply has_chunk_id_elem. by exists c.
  - intros (m & Hm & Hb). apply andb_true_iff in Hb as [Hk Hc].
    apply Z.eqb_eq in Hk. apply has_chunk_id_elem in Hc as (c & Hc & He).
    left. exists (hit_of m c). split; [| done].
    apply select_join_elem. exists m, c. rewrite Hk.
    split_and!; try done. by apply list_elem_of_In.
Qed.

Lemma omap_by_id_ids (d : gmap Z Hit) (p : Z → bool) (l : list Z) :
  (∀ i h, d !! i = Some h → hit_faiss_id h = i) →
  (∀ i, i ∈ l → is_Some (d !! i) ↔ p i = true) →
  map hit_faiss_id (omap (fun i => d !! i) l) = List.filter p l.
Proof.
  intros Hkey. induction l as [|i l IH]; intros Hp; [done |].
  simpl. assert (Hl : ∀ j, j ∈ l → is_Some (d !! j) ↔ p j = true).
  { intros j Hj. apply Hp. by right. }
  specialize (Hp i (list_elem_of_here _ _)).
  destruct (d !! i) as [h|] eqn:Hd.
  - rewrite (proj1 Hp) by by eexists. simpl. rewrite (Hkey _ _ Hd).
    f_equal. by apply IH.
  - destruct (p i) eqn:Hpi.
    + destruct (proj2 Hp eq_refl) as [? ?]. done.
    + by apply IH.
Qed.

Lemma omap_length_le {A B : Type} (f : A → option B) (l : list A) :
  (length (omap f l) ≤ length l)%nat.
Proof.
  induction l as [|a l IH]; [done |].
  change (omap f (a :: l)) with (match f a with Some y => y :: omap f l | None => omap f l end).
  destruct (f a); simpl; lia.
Qed.

Lemma forallb_sqlite_int (l : list Z) :
  forallb sqlite_int l = true ↔ Forall (fun i => sqlite_int i = true) l.
Proof.
  rewrite forallb_forall, Forall_forall. split; intros Hall i Hi; apply Hall.
  - by apply list_elem_of_In.
  - by apply list_elem_of_In.
Qed.

Section ResolveProps.
Context `{External}.

Lemma get_chunks_by_faiss_ids_eq (db : DB) (faiss_ids : list Z) :
  bindable faiss_ids →
  get_chunks_by_faiss_ids db faiss_ids
  = Ok (omap (fun i => by_id_of (select_join db faiss_ids) !! i) faiss_ids).
Proof.
  intros [Hlen Hall]. unfold get_chunks_by_faiss_ids.
  destruct faiss_ids as [|i l]; [done |].
  destruct (max_variable_number <? _) eqn:Hmax; [lia |].
  apply forallb_sqlite_int in Hall. by rewrite Hall.
Qed.

(** What [get_chunks_by_faiss_ids] returns when it returns. *)
Lemma get_chunks_by_faiss_ids_Ok (db : DB) (faiss_ids : list Z) (rows : list Hit) :
  get_chunks_by_faiss_ids db faiss_ids = Ok rows →
  rows = omap (fun i => by_id_of (select_join db faiss_ids) !! i) faiss_ids.
Proof.
  unfold get_chunks_by_faiss_ids. destruct faiss_ids as [|i l]; [by intros [= <-] |].
  destruct (max_variable_number <? _); [discriminate |].
  destruct (negb _); [discriminate |]. by intros [= <-].
Qed.

(** C7 (amended).  For positions that [sqlite3] can bind to one statement
    (no more than [SQLITE_MAX_VARIABLE_NUMBER] of them, each a signed 64-bit
    integer), [get_chunks_by_faiss_ids] returns the rows of the requested
    positions in the caller's order: the positions of the result are the
    requested list with the unresolvable entries filtered out, a position
    without a row in [faiss_map] never appears, the result is never longer
    than the request, and every returned row is the join of a
    [faiss_map] row with the [chunks] row it names. *)
Theorem get_chunks_by_faiss_ids_order (db : DB) (faiss_ids : list Z) :
  bindable faiss_ids →
  ∃ rows,
    get_chunks_by_faiss_ids db faiss_ids = Ok rows
    ∧ map hit_faiss_id rows = List.filter (resolvable db) faiss_ids
    ∧ (∀ i, has_faiss_id db i = false → i ∉ map hit_faiss_id rows)
    ∧ (length rows ≤ length faiss_ids)%nat
    ∧ (∀ h, h ∈ rows →
            ∃ m c, m ∈ faiss_map db ∧ c ∈ chunks db ∧
                   chunk_id c = snd m ∧ h = hit_of m c).
Proof.
  intros Hbind. rewrite get_chunks_by_faiss_ids_eq by done.
  eexists. split; [reflexivity |].
  assert (Hmap : map hit_faiss_id
                   (omap (fun i => by_id_of (select_join db faiss_ids) !! i) faiss_ids)
                 = List.filter (resolvable db) faiss_ids).
  { apply omap_by_id_ids.
    - intros i h Hl. by apply by_id_of_Some in Hl as [_ ?].
    - intros i Hi. by apply resolvable_by_id. }
  split_and!.
  - exact Hmap.
  - intros i Hno Hin. rewrite Hmap in Hin.
    apply list_elem_of_In, filter_In in Hin as [_ Hr].
    unfold resolvable in Hr. apply existsb_exists in Hr as (m & Hm & Hb).
    apply andb_true_iff in Hb as [Hk _].
    unfold has_faiss_id in Hno.
    assert (Hyes : existsb (fun m => Z.eqb (fst m) i) (faiss_map db) = true).
    { apply existsb_exists. by exists m. }
    congruence.
  - apply omap_length_le.
  - intros h Hh.
    apply list_elem_of_omap in Hh as (i & _ & Hl).
    apply by_id_of_Some in Hl as [Hin _].
    apply select_join_elem in Hin as (m & c & ? & ? & ? & ? & ?).
    by exists m, c.
Qed.
End ResolveProps.

(** C7, counterexample.  The position [2^63] has no mapping in the empty
    store, yet asking for it is not answered by leaving it out: binding it
    to the statement raises [OverflowError]. *)
Lemma get_chunks_by_faiss_ids_overflow :
  has_faiss_id empty_db (2 ^ 63) = false
  ∧ @get_chunks_by_faiss_ids healthy empty_db [2 ^ 63] = Raise OverflowError
  ∧ ¬ (∃ rows, @get_chunks_by_faiss_ids healthy empty_db [2 ^ 63] = Ok rows).
Proof.
  assert (Hrun : @get_chunks_by_faiss_ids healthy empty_db [2 ^ 63] = Raise OverflowError)
    by (vm_compute; reflexivity).
  split_and!; [reflexivity | exact Hrun |].
  intros [rows Hrows]. rewrite Hrun in Hrows. discriminate Hrows.
Qed.

Lemma get_chunks_by_faiss_ids_order_witness :
  let db := @db_after healthy empty_db 0 0 chunks_ab in
  @bindable healthy [1; 7; 0]
  ∧ ∃ rows,
      @get_chunks_by_faiss_ids healthy db [1; 7; 0] = Ok rows
      ∧ map hit_faiss_id rows = List.filter (resolvable db) [1; 7; 0]
      ∧ (∀ i, has_faiss_id db i = false → i ∉ map hit_faiss_id rows)
      ∧ (length rows ≤ length [1; 7; 0])%nat
      ∧ (∀ h, h ∈ rows →
              ∃ m c, m ∈ faiss_map db ∧ c ∈ chunks db ∧
                     chunk_id c = snd m ∧ h = hit_of m c).
Proof.
  intros db.
  assert (Hb : @bindable healthy [1; 7; 0]).
  { split; [cbn; lia | by repeat constructor]. }
  split; [exact Hb |].
  exact (@get_chunks_by_faiss_ids_order healthy db [1; 7; 0] Hb).
Defined.

(** ** Ingestion *)

Lemma bind_ok {A B : Type} (m : M A) (k : A → M B) (w w' : World) (a : A) :
  m w = (Ok a, w') → bind m k w = k a w'.
Proof. intros Hm. unfold bind. by rewrite Hm. Qed.

Lemma bind_raise {A B : Type} (m : M A) (k : A → M B) (w w' : World) (e : exn) :
  m w = (Raise e, w') → bind m k w = (Raise e, w').
Proof. intros Hm. unfold bind. by rewrite Hm. Qed.


Lemma has_sha1_elem (db : DB) (s : str) :
  has_sha1 db s = true ↔ s ∈ map row_sha1 (chunks db).
Proof.
  unfold has_sha1. rewrite existsb_exists, list_elem_of_In, in_map_iff.
  split; intros (r & H1 & H2).
  - apply str_eqb_eq in H2. by exists r.
  - exists r. split; [done |]. by apply str_eqb_eq.
Qed.

Lemma has_sha1_false (db : DB) (s : str) :
  has_sha1 db s = false ↔ s ∉ map row_sha1 (chunks db).
Proof.
  rewrite <- has_sha1_elem. destruct (has_sha1 db s); split; try done.
Qed.

Lemma has_faiss_id_elem (db : DB) (i : Z) :
  has_faiss_id db i = true ↔ i ∈ map fst (faiss_map db).
Proof.
  unfold has_faiss_id. rewrite existsb_exists, list_elem_of_In, in_map_iff.
  split; intros (m & H1 & H2).
  - apply Z.eqb_eq in H2. by exists m.
  - exists m. split; [done |]. by apply Z.eqb_eq.
Qed.

Lemma range_length (a b : Z) : length (range a b) = Z.to_nat (b - a).
Proof. unfold range. by rewrite length_map, length_seq. Qed.

Lemma range_elem (a b i : Z) : i ∈ range a b ↔ a ≤ i < b.
Proof.
  unfold range. rewrite list_elem_of_In, in_map_iff. split.
  - intros (n & <- & Hn). apply in_seq in Hn. lia.
  - intros Hi. exists (Z.to_nat (i - a)). split; [lia |]. apply in_seq. lia.
Qed.

Lemma seq_add_map (k s m : nat) : seq (k + s) m = map (Nat.add k) (seq s m).
Proof.
  revert s. induction m as [|m IH]; intros s; simpl; [done |].
  f_equal. rewrite <- IH. f_equal. lia.
Qed.

Lemma range_app (a b c : Z) : a ≤ b → b ≤ c → range a c = range a b ++ range b c.
Proof.
  intros Hab Hbc. unfold range.
  replace (Z.to_nat (c - a)) with (Z.to_nat (b - a) + Z.to_nat (c - b))%nat by lia.
  rewrite seq_app, map_app. f_equal.
  replace (0 + Z.to_nat (b - a))%nat with (Z.to_nat (b - a) + 0)%nat by lia.
  rewrite seq_add_map, map_map. apply map_ext. intros n. lia.
Qed.

Lemma range_cons (a b : Z) : a < b → range a b = a :: range (a + 1) b.
Proof.
  intros Hab. unfold range.
  replace (Z.to_nat (b - a)) with (S (Z.to_nat (b - (a + 1)))) by lia.
  simpl. f_equal; [lia |].
  rewrite <- seq_shift, map_map. apply map_ext. intros n. lia.
Qed.

Section IngestProps.
Context `{External}.
Hypothesis uuid4_inj : ∀ i j : nat, uuid4 i = uuid4 j → i = j.

Lemma rows_from_length (u : nat) (l : list ChunkObj) :
  length (rows_from u l) = length l.
Proof. revert u. induction l as [|b l IH]; intros u; simpl; [done |]. by rewrite IH. Qed.

Lemma rows_from_app (u : nat) (l1 l2 : list ChunkObj) :
  rows_from u (l1 ++ l2) = rows_from u l1 ++ rows_from (u + length l1) l2.
Proof.
  revert u. induction l1 as [|b l1 IH]; intros u; simpl.
  - by rewrite Nat.add_0_r.
  - rewrite IH. do 3 f_equal. lia.
Qed.

Lemma rows_from_sha1 (u : nat) (l : list ChunkObj) :
  map row_sha1 (rows_from u l) = map stored_sha1 l.
Proof. revert u. induction l as [|b l IH]; intros u; simpl; [done |]. by rewrite IH. Qed.

Lemma rows_from_ids (u : nat) (l : list ChunkObj) (r : ChunkRow) :
  r ∈ rows_from u l → ∃ i, (u ≤ i < u + length l)%nat ∧ chunk_id r = uuid4 i.
Proof.
  revert u. induction l as [|b l IH]; intros u; simpl.
  - intros Hr. by apply not_elem_of_nil in Hr.
  - intros Hr. apply elem_of_cons in Hr as [-> | Hr].
    + exists u. split; [lia | done].
    + destruct (IH _ Hr) as (i & Hi & He). exists i. split; [lia | done].
Qed.

Lemma ids_drawn_fresh (db : DB) (u : nat) :
  ids_drawn db u → has_chunk_id db (uuid4 u) = false.
Proof.
  intros Hd. destruct (has_chunk_id db (uuid4 u)) eqn:Hc; [| done].
  apply has_chunk_id_elem in Hc as (c & Hc & He).
  destruct (Hd c Hc) as (i & Hi & Hi'). rewrite Hi' in He.
  apply uuid4_inj in He. lia.
Qed.

Lemma insert_chunk_of_ok (b : ChunkObj) (w : World) :
  storable b →
  has_chunk_id (conn w) (uuid4 (uuid_drawn w)) = false →
  has_sha1 (conn w) (stored_sha1 b) = false →
  insert_chunk_of b w
  = (Ok (row_of (uuid_drawn w) b),
     set_conn {| chunks := chunks (conn w) ++ [row_of (uuid_drawn w) b];
                 faiss_map := faiss_map (conn w) |}
              (set_uuid_drawn (S (uuid_drawn w)) w)).
Proof.
  intros [Hps Hpe] Hc Hs. unfold insert_chunk_of, insert_chunk.
  unfold stored_sha1 in Hs. by rewrite Hps, Hpe, Hc, Hs.
Qed.

Lemma insert_chunk_of_dup (b : ChunkObj) (w : World) :
  storable b →
  has_sha1 (conn w) (stored_sha1 b) = true →
  insert_chunk_of b w = (Raise IntegrityError, set_uuid_drawn (S (uuid_drawn w)) w).
Proof.
  intros [Hps Hpe] Hs. unfold insert_chunk_of, insert_chunk.
  unfold stored_sha1 in Hs. by rewrite Hps, Hpe, Hs, orb_true_r.
Qed.

(** The loop over one batch that inserts the chunk rows. *)
Lemma insert_rows_ok (batch : list ChunkObj) (acc : list ChunkRow) (w : World) :
  Forall storable batch →
  ids_drawn (conn w) (uuid_drawn w) →
  NoDup (map stored_sha1 batch) →
  (∀ b, b ∈ batch → has_sha1 (conn w) (stored_sha1 b) = false) →
  for_each (fun rows b => row <- insert_chunk_of b ;; ret (rows ++ [row])) acc batch w
  = (Ok (acc ++ rows_from (uuid_drawn w) batch),
     set_conn {| chunks := chunks (conn w) ++ rows_from (uuid_drawn w) batch;
                 faiss_map := faiss_map (conn w) |}
              (set_uuid_drawn (uuid_drawn w + length batch) w)).
Proof.
  revert acc w. induction batch as [|b batch IH]; intros acc w Hst Hd Hnd Hnew.
  - simpl. unfold ret. rewrite !app_nil_r, Nat.add_0_r. by destruct w as [? ? [? ?] ? ?].
  - simpl in Hnd. apply NoDup_cons in Hnd as [Hb Hnd].
    apply Forall_cons in Hst as [Hstb Hst].
    cbn [for_each].
    erewrite bind_ok; last first.
    { erewrite bind_ok; last first.
      { apply insert_chunk_of_ok.
        - done.
        - by apply ids_drawn_fresh.
        - apply Hnew. by left. }
      reflexivity. }
    rewrite IH.
    + cbn. rewrite <- !app_assoc. cbn. world_eq.
    + done.
    + cbn. intros r Hr. apply elem_of_app in Hr as [Hr | Hr].
      * destruct (Hd r Hr) as (i & Hi & He). exists i. split; [lia | done].
      * apply list_elem_of_singleton in Hr as ->. exists (uuid_drawn w).
        split; [lia | done].
    + done.
    + intros b' Hb'. apply has_sha1_false. cbn. rewrite map_app.
      intros Hin. apply elem_of_app in Hin as [Hin | Hin].
      * assert (Hf : has_sha1 (conn w) (stored_sha1 b') = false).
        { apply Hnew. by right. }
        by apply has_sha1_false in Hf.
      * cbn in Hin. apply list_elem_of_singleton in Hin.
        apply Hb. rewrite <- Hin. by apply list_elem_of_fmap_2.
Qed.
Lemma insert_faiss_rows_ok (l : list (Z * str)) (w : World) :
  Forall (fun i => sqlite_int i = true) (map fst l) →
  NoDup (map fst l) →
  (∀ i, i ∈ map fst l → has_faiss_id (conn w) i = false) →
  for_each (fun _ m => insert_faiss_row m) tt l w
  = (Ok tt, set_conn {| chunks := chunks (conn w);
                        faiss_map := faiss_map (conn w) ++ l |} w).
Proof.
  revert w. induction l as [|m l IH]; intros w Hint Hnd Hnew.
  - cbn. unfold ret. rewrite app_nil_r. by destruct w as [? ? [? ?] ? ?].
  - cbn [map] in Hnd, Hint. apply NoDup_cons in Hnd as [Hm Hnd].
    apply Forall_cons in Hint as [Hintm Hint].
    cbn [for_each]. erewrite bind_ok; last first.
    { unfold insert_faiss_row. rewrite Hintm. cbn [negb].
      rewrite Hnew; [reflexivity |]. by left. }
    rewrite IH.
    + cbn. rewrite <- app_assoc. world_eq.
    + done.
    + done.
    + intros i Hi.
      match goal with |- ?x = false => destruct x eqn:Hh; [| done] end.
      apply has_faiss_id_elem in Hh. cbn in Hh. rewrite map_app in Hh.
      apply elem_of_app in Hh as [Hh | Hh].
      * apply has_faiss_id_elem in Hh. rewrite Hnew in Hh; [done |]. by right.
      * cbn in Hh. apply list_elem_of_singleton in Hh. by subst i.
Qed.

Lemma map_fst_combine {A B : Type} (l1 : list A) (l2 : list B) :
  length l1 = length l2 → map fst (combine l1 l2) = l1.
Proof.
  revert l2. induction l1 as [|a l1 IH]; intros [|b l2] Hl; simpl in *; try done.
  f_equal. apply IH. lia.
Qed.

Lemma combine_app_eq {A B : Type} (l1 l2 : list A) (k1 k2 : list B) :
  length l1 = length k1 →
  combine (l1 ++ l2) (k1 ++ k2) = combine l1 k1 ++ combine l2 k2.
Proof.
  revert k1. induction l1 as [|a l1 IH]; intros [|b k1] Hl; simpl in *; try done.
  f_equal. apply IH. lia.
Qed.

Lemma NoDup_range (a b : Z) : NoDup (range a b).
Proof.
  unfold range.
  assert (Hinj : Inj (=) (=) (fun i : nat => a + Z.of_nat i)).
  { intros i j Hij. lia. }
  apply (NoDup_fmap_2 _). apply NoDup_seq.
Qed.

Lemma db_after_nil (db : DB) (u : nat) (s : Z) : db_after db u s [] = db.
Proof.
  unfold db_after. cbn [rows_from map]. rewrite combine_nil, !app_nil_r.
  by destruct db.
Qed.

Lemma db_after_app (db : DB) (u : nat) (s : Z) (l1 l2 : list ChunkObj) :
  db_after (db_after db u s l1) (u + length l1) (s + Z.of_nat (length l1)) l2
  = db_after db u s (l1 ++ l2).
Proof.
  unfold db_after. cbn. rewrite <- !app_assoc.
  rewrite rows_from_app, map_app, length_app, Nat2Z.inj_add.
  rewrite (range_app s (s + Z.of_nat (length l1))
                     (s + (Z.of_nat (length l1) + Z.of_nat (length l2)))) by lia.
  rewrite combine_app_eq.
  - by rewrite Z.add_assoc.
  - rewrite range_length, length_map, rows_from_length. lia.
Qed.

Lemma range_sqlite_int (a b : Z) :
  0 ≤ a → b ≤ 2 ^ 63 → Forall (fun i => sqlite_int i = true) (range a b).
Proof.
  intros Ha Hb. apply Forall_forall. intros i Hi. apply range_elem in Hi.
  unfold sqlite_int. apply andb_true_iff. split; [apply Z.leb_le | apply Z.ltb_lt]; lia.
Qed.

Lemma ntotal_opt_nonneg (fio : option FaissIndex) : 0 ≤ ntotal_opt fio.
Proof. destruct fio as [fi|]; cbn; [unfold ntotal |]; lia. Qed.

Lemma ingest_batch_ok (d : nat) (fio : option FaissIndex) (a r : Z)
    (batch : list ChunkObj) (w : World) :
  loop_inv d w fio →
  answers d (embed_called w) →
  Forall storable batch →
  ntotal_opt fio + Z.of_nat (length batch) ≤ 2 ^ 63 →
  NoDup (map stored_sha1 batch) →
  (∀ b, b ∈ batch → has_sha1 (conn w) (stored_sha1 b) = false) →
  ∃ fi',
    let db' := db_after (conn w) (uuid_drawn w) (ntotal_opt fio) batch in
    let w' := {| faiss_file := faiss_file w; sqlite_file := Some db'; conn := db';
                 uuid_drawn := uuid_drawn w + length batch;
                 embed_called := S (embed_called w) |} in
    ingest_batch (fio, a, r) batch w
    = (Ok (Some fi', a + Z.of_nat (length batch), r + Z.of_nat (length batch)), w')
    ∧ ntotal fi' = ntotal_opt fio + Z.of_nat (length batch)
    ∧ loop_inv d w' (Some fi').
Proof.
  intros (Hcommit & Hpos & Hfk & Hids & Hdim) Hans Hst Hroom Hnd Hnew.
  pose proof (ntotal_opt_nonneg fio) as Hnn.
  destruct (Hans (map (fun b => or_str (j_text b) []) batch)) as (rows & Hemb & Hlen).
  rewrite length_map in Hlen.
  set (fi := ensure_faiss fio d).
  assert (Hfid : dim fi = d).
  { subst fi. destruct fio as [fi0|]; cbn; [by apply Hdim | done]. }
  assert (Hfin : ntotal fi = ntotal_opt fio).
  { subst fi. by destruct fio. }
  set (fi' := {| dim := dim fi; index := index fi ++ l2_normalize rows eps_default |}).
  assert (Hn' : ntotal fi' = ntotal_opt fio + Z.of_nat (length batch)).
  { unfold ntotal in *. cbn. rewrite length_app. unfold l2_normalize.
    rewrite length_map. lia. }
  exists fi'. cbn zeta. split_and!.
  - unfold ingest_batch. erewrite bind_ok; last first.
    { unfold embedder_embed_texts. rewrite Hemb. reflexivity. }
    rewrite length_map, Hlen, Nat.eqb_refl. cbn [negb].
    erewrite bind_ok; last first.
    { apply insert_rows_ok; done. }
    erewrite bind_ok; last first.
    { unfold lift, add. fold fi. rewrite Hfid, Nat.eqb_refl. reflexivity. }
    cbn iota beta.
    erewrite bind_ok; last first.
    { assert (Hcl : length (range (ntotal fi)
                                  (ntotal fi + Z.of_nat (length (l2_normalize rows eps_default))))
                    = length (map chunk_id ([] ++ rows_from (uuid_drawn w) batch))).
      { rewrite range_length, length_map. cbn. unfold l2_normalize.
        rewrite rows_from_length, length_map. lia. }
      unfold insert_faiss_map. apply insert_faiss_rows_ok.
      - rewrite map_fst_combine by exact Hcl. apply range_sqlite_int; [lia |].
        unfold l2_normalize. rewrite length_map. lia.
      - rewrite map_fst_combine; [apply NoDup_range |].
        rewrite range_length, length_map. cbn. unfold l2_normalize.
        rewrite rows_from_length, length_map. lia.
      - intros i. rewrite map_fst_combine.
        + intros Hi. apply range_elem in Hi.
          match goal with |- ?x = false => destruct x eqn:Hh; [| done] end.
          apply has_faiss_id_elem in Hh. cbn in Hh. rewrite Hpos in Hh.
          apply range_elem in Hh. lia.
        + rewrite range_length, length_map. cbn. unfold l2_normalize.
          rewrite rows_from_length, length_map. lia. }
    unfold bind, commit, ret. cbn.
    rewrite range_length, rows_from_length. unfold l2_normalize.
    rewrite length_map, Hlen, Hfin.
    replace (Z.of_nat (Z.to_nat (ntotal_opt fio + Z.of_nat (length batch) - ntotal_opt fio)))
      with (Z.of_nat (length batch)) by lia.
    unfold db_after. world_eq.
  - exact Hn'.
  - unfold loop_inv, db_after.
    cbn [conn sqlite_file uuid_drawn faiss_file embed_called chunks faiss_map ntotal_opt].
    split_and!.
    + done.
    + rewrite map_app, map_fst_combine.
      * rewrite Hpos, Hn'. symmetry. apply range_app; unfold ntotal_opt; [| lia].
        destruct fio; unfold ntotal; lia.
      * rewrite range_length, length_map, rows_from_length. lia.
    + apply Forall_app. split.
      * eapply Forall_impl; [exact Hfk |]. intros m Hm.
        apply has_chunk_id_elem in Hm as (c & Hc & He).
        apply has_chunk_id_elem. exists c. cbn [chunks]. split; [| done].
        apply elem_of_app. by left.
      * apply Forall_forall. intros [i cid] Hm.
        apply list_elem_of_In in Hm.
        apply in_combine_r, list_elem_of_In, list_elem_of_fmap in Hm as (c & -> & Hc).
        apply has_chunk_id_elem. exists c. cbn [chunks]. split; [| done].
        apply elem_of_app. by right.
    + intros c Hc. cbn [chunks] in Hc. apply elem_of_app in Hc as [Hc | Hc].
      * destruct (Hids c Hc) as (i & Hi & He). exists i. split; [lia | done].
      * apply rows_from_ids in Hc as (i & Hi & He). exists i. split; [lia | done].
    + intros fi0 [= <-]. done.
Qed.
Lemma NoDup_map_app {A B : Type} (f : A → B) (l1 l2 : list A) :
  NoDup (map f (l1 ++ l2)) →
  NoDup (map f l1) ∧ NoDup (map f l2) ∧ (∀ x, x ∈ l2 → f x ∉ map f l1).
Proof.
  rewrite map_app. intros Hnd. apply NoDup_app in Hnd as (H1 & H12 & H2).
  split_and!; try done. intros x Hx Hin. apply (H12 _ Hin).
  by apply list_elem_of_fmap_2.
Qed.

Lemma ingest_batches_ok (d : nat) (bs : list (list ChunkObj)) :
  ∀ (fio : option FaissIndex) (a r : Z) (w : World),
    loop_inv d w fio →
    (∀ j, (j < length bs)%nat → answers d (embed_called w + j)) →
    Forall storable (concat bs) →
    ntotal_opt fio + Z.of_nat (length (concat bs)) ≤ 2 ^ 63 →
    NoDup (map stored_sha1 (concat bs)) →
    (∀ b, b ∈ concat bs → has_sha1 (conn w) (stored_sha1 b) = false) →
    ∃ fio',
      let db' := db_after (conn w) (uuid_drawn w) (ntotal_opt fio) (concat bs) in
      let w' := {| faiss_file := faiss_file w; sqlite_file := Some db'; conn := db';
                   uuid_drawn := uuid_drawn w + length (concat bs);
                   embed_called := embed_called w + length bs |} in
      for_each ingest_batch (fio, a, r) bs w
      = (Ok (fio', a + Z.of_nat (length (concat bs)),
             r + Z.of_nat (length (concat bs))), w')
      ∧ ntotal_opt fio' = ntotal_opt fio + Z.of_nat (length (concat bs))
      ∧ loop_inv d w' fio'
      ∧ (is_Some fio ∨ bs ≠ [] → is_Some fio').
Proof.
  induction bs as [|b bs IH]; intros fio a r w Hinv Hans Hst Hroom Hnd Hnew.
  - exists fio. cbn zeta. cbn [concat length for_each]. rewrite db_after_nil.
    destruct Hinv as (Hcommit & Hrest).
    assert (Hw : {| faiss_file := faiss_file w; sqlite_file := Some (conn w);
                    conn := conn w; uuid_drawn := uuid_drawn w + 0;
                    embed_called := embed_called w + 0 |} = w).
    { rewrite <- Hcommit, !Nat.add_0_r. by destruct w. }
    rewrite Hw. split_and!; [| lia | by split | by intros [? | ?]].
    unfold ret. repeat f_equal; lia.
  - cbn [concat] in *. apply NoDup_map_app in Hnd as (Hnd1 & Hnd2 & Hdisj).
    apply Forall_app in Hst as [Hst1 Hst2]. rewrite length_app in Hroom.
    destruct (ingest_batch_ok d fio a r b w) as (fi1 & Hrun & Hn1 & Hinv1); try done.
    { specialize (Hans 0%nat). rewrite Nat.add_0_r in Hans. apply Hans. cbn. lia. }
    { lia. }
    { intros c Hc. apply Hnew, elem_of_app. by left. }
    cbn zeta in Hrun, Hinv1.
    set (w1 := {| faiss_file := faiss_file w;
                  sqlite_file := Some (db_after (conn w) (uuid_drawn w) (ntotal_opt fio) b);
                  conn := db_after (conn w) (uuid_drawn w) (ntotal_opt fio) b;
                  uuid_drawn := uuid_drawn w + length b;
                  embed_called := S (embed_called w) |}) in *.
    destruct (IH (Some fi1) (a + Z.of_nat (length b)) (r + Z.of_nat (length b)) w1)
      as (fio' & Hrun' & Hn' & Hinv' & Hsome); try done.
    { intros j Hj. cbn [embed_called w1].
      replace (S (embed_called w) + j)%nat with (embed_called w + S j)%nat by lia.
      apply Hans. cbn. lia. }
    { cbn [ntotal_opt]. lia. }
    { intros c Hc. apply has_sha1_false. cbn [w1 conn db_after chunks].
      rewrite map_app, rows_from_sha1. intros Hin.
      apply elem_of_app in Hin as [Hin | Hin].
      - assert (Hf : has_sha1 (conn w) (stored_sha1 c) = false).
        { apply Hnew, elem_of_app. by right. }
        by apply has_sha1_false in Hf.
      - by apply (Hdisj c). }
    exists fio'. cbn zeta in *. cbn [for_each].
    erewrite bind_ok by exact Hrun. rewrite Hrun'.
    cbn [w1 conn uuid_drawn embed_called faiss_file ntotal_opt] in *.
    rewrite Hn1 in *. rewrite db_after_app in *. rewrite length_app, Nat2Z.inj_add.
    replace (uuid_drawn w + length b + length (concat bs))%nat
      with (uuid_drawn w + (length b + length (concat bs)))%nat in * by lia.
    replace (S (embed_called w) + length bs)%nat
      with (embed_called w + length (b :: bs))%nat in * by (cbn; lia).
    split_and!.
    + by rewrite <- !Z.add_assoc.
    + lia.
    + done.
    + intros _. apply Hsome. left. by eexists.
Qed.
Lemma slices_concat {A : Type} (n : nat) (fuel : nat) :
  ∀ l : list A, (0 < n)%nat → (length l ≤ fuel)%nat → concat (slices fuel n l) = l.
Proof.
  induction fuel as [|fuel IH]; intros [|x l] Hn Hl; cbn [slices concat]; try done.
  - cbn in Hl. lia.
  - rewrite IH; [apply take_drop | done |].
    rewrite length_drop. cbn [length] in *. lia.
Qed.



Lemma clean_precheck (ch : ChunkObj) :
  clean ch → precheck_text ch ≠ [] ∧ precheck_sha1 ch = stored_sha1 ch.
Proof.
  intros (t & Ht & Hne & Hs). unfold precheck_sha1, stored_sha1, precheck_text.
  rewrite Ht. unfold or_str. rewrite bool_decide_eq_false_2 by done.
  rewrite Hs. done.
Qed.

Lemma collect_new (db : DB) (cs ta : list ChunkObj) (sk tot : Z) :
  (∀ ch, ch ∈ cs → precheck_text ch ≠ [] ∧ has_sha1 db (precheck_sha1 ch) = false) →
  foldl (collect_step db) (ta, sk, tot) cs = (ta ++ cs, sk, tot + Z.of_nat (length cs)).
Proof.
  revert ta tot. induction cs as [|ch cs IH]; intros ta tot Hall.
  - cbn. rewrite app_nil_r. repeat f_equal. lia.
  - cbn [foldl]. destruct (Hall ch) as [Hne Hnew]; [by left |].
    unfold collect_step at 2. rewrite Hnew.
    destruct (precheck_text ch) as [|c0 t0] eqn:Ht; [done |].
    rewrite IH.
    + rewrite <- app_assoc. cbn [app length]. f_equal. lia.
    + intros ch' Hch'. apply Hall. by right.
Qed.

Lemma collect_nothing (db : DB) (cs ta : list ChunkObj) (sk tot : Z) :
  (∀ ch, ch ∈ cs → precheck_text ch = [] ∨ has_sha1 db (precheck_sha1 ch) = true) →
  foldl (collect_step db) (ta, sk, tot) cs
  = (ta, sk + Z.of_nat (length (List.filter nonblank cs)), tot + Z.of_nat (length cs)).
Proof.
  revert sk tot. induction cs as [|ch cs IH]; intros sk tot Hall.
  - cbn. repeat f_equal; lia.
  - cbn [foldl List.filter]. unfold collect_step at 2, nonblank at 1.
    assert (Hcs : ∀ ch', ch' ∈ cs →
              precheck_text ch' = [] ∨ has_sha1 db (precheck_sha1 ch') = true).
    { intros ch' Hch'. apply Hall. by right. }
    destruct (precheck_text ch) as [|c0 t0] eqn:Ht.
    + rewrite bool_decide_eq_true_2 by done. cbn [negb].
      rewrite IH by done. cbn [length]. f_equal. lia.
    + rewrite bool_decide_eq_false_2 by done. cbn [negb].
      destruct (Hall ch) as [Hb | Hk]; [by left | by rewrite Ht in Hb |].
      rewrite Hk, IH by done. cbn [length]. f_equal; [f_equal |]; lia.
Qed.

Lemma pick_embedder_openai (kind : str) (w : World) :
  lower kind = lit "openai" → pick_embedder kind w = (Ok tt, w).
Proof.
  intros Hk. unfold pick_embedder. rewrite Hk.
  unfold str_eqb. by rewrite bool_decide_eq_true_2.
Qed.

(** The part of [ingest] before the batches. *)
Lemma ingest_collect (chunks_jsonl : list ChunkObj) (kind : str) (bs : Z) (w : World) :
  lower kind = lit "openai" →
  ingest chunks_jsonl kind bs w
  = (let w0 := set_conn (disk_db w) (set_sqlite_file (Some (disk_db w)) w) in
     let '(to_add, skipped, total) :=
       foldl (collect_step (disk_db w)) ([], 0, 0) chunks_jsonl in
     match to_add with
     | [] =>
         (close ;;
          ret {| total_chunks_in_file := total; skipped_existing := skipped;
                 added := 0; inserted_rows := None |}) w0
     | _ =>
         (batches <- batches_of to_add bs ;;
          r <- for_each ingest_batch (faiss_file w, 0, 0) batches ;;
          let '(faiss_index, n_added, n_rows) := r in
          save faiss_index ;;
          close ;;
          ret {| total_chunks_in_file := total; skipped_existing := skipped;
                 added := n_added; inserted_rows := Some n_rows |}) w0
     end).
Proof.
  intros Hk. unfold ingest.
  erewrite bind_ok by (unfold MetaStore_init; reflexivity).
  erewrite bind_ok by reflexivity.
  erewrite bind_ok by (by apply pick_embedder_openai).
  erewrite bind_ok by (unfold collect; reflexivity).
  cbn [conn set_conn faiss_file set_sqlite_file]. fold (disk_db w).
  destruct (foldl _ _ _) as [[to_add skipped] total]. by destruct to_add.
Qed.
Lemma ready_loop_inv (d : nat) (w : World) :
  ready d w →
  loop_inv d (set_conn (disk_db w) (set_sqlite_file (Some (disk_db w)) w)) (faiss_file w).
Proof. intros ((Hpos & Hfk) & Hids & Hdim). unfold loop_inv. by cbn. Qed.

Lemma clean_all_new (db : DB) (cs : list ChunkObj) :
  Forall clean cs →
  (∀ ch, ch ∈ cs → has_sha1 db (stored_sha1 ch) = false) →
  ∀ ch, ch ∈ cs → precheck_text ch ≠ [] ∧ has_sha1 db (precheck_sha1 ch) = false.
Proof.
  intros Hclean Hnew ch Hch. rewrite Forall_forall in Hclean.
  destruct (clean_precheck ch) as [Hne He]; [by apply Hclean |].
  split; [done |]. rewrite He. by apply Hnew.
Qed.

Lemma batches_of_pos (to_add : list ChunkObj) (bs : Z) (w : World) :
  0 < bs →
  batches_of to_add bs w = (Ok (slices (length to_add) (Z.to_nat bs) to_add), w).
Proof.
  intros Hbs. unfold batches_of.
  destruct (bs =? 0) eqn:H0; [lia |]. destruct (bs <? 0) eqn:H1; [lia | done].
Qed.

(** A run in which every chunk is new and the provider answers. *)
Lemma ingest_all_new (d : nat) (chunks_jsonl : list ChunkObj) (kind : str)
    (bs : Z) (w : World) :
  lower kind = lit "openai" → 0 < bs → ready d w →
  (∀ n, answers d n) →
  chunks_jsonl ≠ [] → Forall clean chunks_jsonl →
  Forall storable chunks_jsonl →
  disk_ntotal w + Z.of_nat (length chunks_jsonl) ≤ 2 ^ 63 →
  NoDup (map stored_sha1 chunks_jsonl) →
  (∀ ch, ch ∈ chunks_jsonl → has_sha1 (disk_db w) (stored_sha1 ch) = false) →
  ∃ fi w1,
    let n := Z.of_nat (length chunks_jsonl) in
    let db1 := db_after (disk_db w) (uuid_drawn w) (disk_ntotal w) chunks_jsonl in
    ingest chunks_jsonl kind bs w
    = (Ok {| total_chunks_in_file := n; skipped_existing := 0;
             added := n; inserted_rows := Some n |}, w1)
    ∧ faiss_file w1 = Some fi ∧ ntotal fi = disk_ntotal w + n
    ∧ sqlite_file w1 = Some db1 ∧ conn w1 = db1
    ∧ consistent w1.
Proof.
  intros Hk Hbs Hready Hans Hne Hclean Hst Hroom Hnd Hnew.
  rewrite ingest_collect by done. cbn zeta.
  rewrite collect_new by (by apply clean_all_new).
  cbn [app]. destruct chunks_jsonl as [|c0 cs] eqn:Hcs; [done |]. rewrite <- Hcs in *.
  erewrite bind_ok by (by apply batches_of_pos).
  set (w0 := set_conn (disk_db w) (set_sqlite_file (Some (disk_db w)) w)).
  set (bl := slices (length chunks_jsonl) (Z.to_nat bs) chunks_jsonl).
  assert (Hcat : concat bl = chunks_jsonl).
  { apply slices_concat; lia. }
  destruct (ingest_batches_ok d bl (faiss_file w) 0 0 w0)
    as (fio' & Hrun & Hn & Hinv & Hsome).
  - by apply ready_loop_inv.
  - intros j _. apply Hans.
  - by rewrite Hcat.
  - by rewrite Hcat.
  - by rewrite Hcat.
  - rewrite Hcat. exact Hnew.
  - cbn zeta in *. rewrite Hcat in *.
    destruct Hsome as [fi ->].
    { right. subst bl. rewrite Hcs. done. }
    exists fi. eexists. erewrite bind_ok by exact Hrun.
    cbn iota beta. unfold bind, save, close, ret. cbn.
    split_and!; try reflexivity.
    + cbn in Hn. unfold disk_ntotal. lia.
    + destruct Hinv as (_ & Hpos & Hfk & _). by split.
Qed.

Lemma filter_nonblank_clean (cs : list ChunkObj) :
  Forall clean cs → List.filter nonblank cs = cs.
Proof.
  induction 1 as [|ch cs Hch _ IH]; [done |]. cbn [List.filter].
  destruct (clean_precheck ch Hch) as [Hne _]. unfold nonblank at 1.
  rewrite bool_decide_eq_false_2 by done. cbn [negb]. by rewrite IH.
Qed.

(** A run in which no chunk is new. *)
Lemma ingest_all_known (chunks_jsonl : list ChunkObj) (kind : str) (bs : Z) (w : World) :
  lower kind = lit "openai" →
  (∀ ch, ch ∈ chunks_jsonl →
         precheck_text ch = [] ∨ has_sha1 (disk_db w) (precheck_sha1 ch) = true) →
  ingest chunks_jsonl kind bs w
  = (Ok {| total_chunks_in_file := Z.of_nat (length chunks_jsonl);
           skipped_existing := Z.of_nat (length (List.filter nonblank chunks_jsonl));
           added := 0; inserted_rows := None |},
     {| faiss_file := faiss_file w; sqlite_file := Some (disk_db w);
        conn := disk_db w; uuid_drawn := uuid_drawn w;
        embed_called := embed_called w |}).
Proof.
  intros Hk Hall. rewrite ingest_collect by done. cbn zeta.
  rewrite collect_nothing by done. reflexivity.
Qed.


(** C1 (amended).  For a non-empty list of chunks whose texts are not
    empty, carry no surrounding whitespace and have pairwise distinct
    hashes that the store does not hold yet, whose page numbers and new
    positions are integers SQLite can store, with a provider that answers
    every request: the first run adds all [N] chunks and skips none, the
    second run over the same list adds none and skips all [N], leaves
    both files as the first run wrote them, and the directory then holds
    exactly one row and one position per chunk on top of what it held
    before, with the two files in agreement and no hash stored twice. *)
Theorem ingest_twice (d : nat) (chunks_jsonl : list ChunkObj) (kind : str)
    (bs : Z) (w : World) :
  lower kind = lit "openai" → 0 < bs → ready d w →
  (∀ n, answers d n) →
  chunks_jsonl ≠ [] → Forall clean chunks_jsonl →
  Forall storable chunks_jsonl →
  disk_ntotal w + Z.of_nat (length chunks_jsonl) ≤ 2 ^ 63 →
  NoDup (map stored_sha1 chunks_jsonl) →
  (∀ ch, ch ∈ chunks_jsonl → has_sha1 (disk_db w) (stored_sha1 ch) = false) →
  ∃ st1 w1 st2 w2,
    ingest chunks_jsonl kind bs w = (Ok st1, w1)
    ∧ added st1 = Z.of_nat (length chunks_jsonl) ∧ skipped_existing st1 = 0
    ∧ ingest chunks_jsonl kind bs w1 = (Ok st2, w2)
    ∧ added st2 = 0 ∧ skipped_existing st2 = Z.of_nat (length chunks_jsonl)
    ∧ sqlite_file w2 = sqlite_file w1 ∧ faiss_file w2 = faiss_file w1
    ∧ disk_db w2 = db_after (disk_db w) (uuid_drawn w) (disk_ntotal w) chunks_jsonl
    ∧ disk_ntotal w2 = disk_ntotal w + Z.of_nat (length chunks_jsonl)
    ∧ consistent w2
    ∧ (NoDup (map row_sha1 (chunks (disk_db w))) →
       NoDup (map row_sha1 (chunks (disk_db w2)))).
Proof.
  intros Hk Hbs Hready Hans Hne Hclean Hst Hroom Hnd Hnew.
  destruct (ingest_all_new d chunks_jsonl kind bs w)
    as (fi & w1 & Hrun1 & Hff & Hnt & Hsq & Hconn & Hcons); try done.
  cbn zeta in *.
  assert (Hdb1 : disk_db w1
                 = db_after (disk_db w) (uuid_drawn w) (disk_ntotal w) chunks_jsonl).
  { unfold disk_db at 1. by rewrite Hsq. }
  assert (Hknown : ∀ ch, ch ∈ chunks_jsonl →
            precheck_text ch = [] ∨ has_sha1 (disk_db w1) (precheck_sha1 ch) = true).
  { intros ch Hch. right. rewrite Forall_forall in Hclean.
    destruct (clean_precheck ch (Hclean ch Hch)) as [_ ->].
    apply has_sha1_elem. rewrite Hdb1. cbn [db_after chunks].
    rewrite map_app, rows_from_sha1. apply elem_of_app. right.
    by apply list_elem_of_fmap_2. }
  set (w2 := {| faiss_file := faiss_file w1; sqlite_file := Some (disk_db w1);
                conn := disk_db w1; uuid_drawn := uuid_drawn w1;
                embed_called := embed_called w1 |}).
  assert (Hdb2 : disk_db w2 = disk_db w1) by reflexivity.
  assert (Hnt2 : disk_ntotal w2 = disk_ntotal w1) by reflexivity.
  eexists _, w1, _, w2. split_and!.
  - exact Hrun1.
  - reflexivity.
  - reflexivity.
  - by apply ingest_all_known.
  - reflexivity.
  - cbn [skipped_existing]. by rewrite filter_nonblank_clean.
  - cbn [w2 sqlite_file]. rewrite Hdb1. by rewrite Hsq.
  - reflexivity.
  - by rewrite Hdb2.
  - rewrite Hnt2. unfold disk_ntotal at 1. by rewrite Hff.
  - unfold consistent. rewrite Hdb2, Hnt2. exact Hcons.
  - intros Hold. rewrite Hdb2, Hdb1. cbn [db_after chunks].
    rewrite map_app, rows_from_sha1.
    apply NoDup_app. split_and!; [done | | done].
    intros s Hs Hs'. apply list_elem_of_fmap in Hs' as (ch & -> & Hch).
    specialize (Hnew ch Hch). apply has_sha1_false in Hnew. done.
Qed.


Lemma insert_rows_duplicate (b1 b2 : ChunkObj) (rest : list ChunkObj)
    (acc : list ChunkRow) (w : World) :
  storable b1 → storable b2 →
  stored_sha1 b1 = stored_sha1 b2 →
  ∃ w',
    for_each (fun rows b => row <- insert_chunk_of b ;; ret (rows ++ [row]))
             acc (b1 :: b2 :: rest) w
    = (Raise IntegrityError, w')
    ∧ sqlite_file w' = sqlite_file w ∧ faiss_file w' = faiss_file w.
Proof.
  intros [Hps1 Hpe1] Hst2 He. cbn [for_each]. unfold bind at 1 2.
  unfold insert_chunk_of at 1, insert_chunk at 1. rewrite Hps1, Hpe1. cbn [andb negb].
  destruct (has_chunk_id _ _ || has_sha1 _ _); [by eexists |].
  cbn [ret]. unfold bind at 1 2.
  rewrite insert_chunk_of_dup; [by eexists | done |].
  apply has_sha1_elem. cbn. rewrite map_app. apply elem_of_app. right.
  cbn. rewrite <- He. by left.
Qed.

(** C2.  Two chunks with the same non-blank text and page numbers that
    SQLite can store, ingested into an empty directory with a provider
    that answers: both pass the look-up of
    the first loop, since neither is stored yet, and the run ends in the
    [IntegrityError] of the [UNIQUE] constraint on [sha1] instead of
    returning [added = 1, skipped_existing = 1]; no index file is
    written. *)
Theorem ingest_duplicate_text_raises (d : nat) (c1 c2 : ChunkObj) (kind : str)
    (bs : Z) (w : World) :
  lower kind = lit "openai" → 0 < bs →
  sqlite_file w = None → faiss_file w = None →
  (∀ n, answers d n) →
  j_text c1 = j_text c2 → precheck_text c1 ≠ [] →
  storable c1 → storable c2 →
  ∃ w',
    ingest [c1; c2] kind bs w = (Raise IntegrityError, w')
    ∧ faiss_file w' = None.
Proof.
  intros Hk Hbs Hsq Hff Hans Htext Hne Hst1 Hst2.
  assert (Hsha : stored_sha1 c1 = stored_sha1 c2).
  { unfold stored_sha1. by rewrite Htext. }
  assert (Hpre : precheck_text c2 = precheck_text c1).
  { unfold precheck_text. by rewrite Htext. }
  assert (Hdb : disk_db w = empty_db).
  { unfold disk_db. by rewrite Hsq. }
  rewrite ingest_collect by done. cbn zeta. rewrite Hdb.
  rewrite (collect_new empty_db [c1; c2] [] 0 0); last first.
  { intros ch Hch. split; [| done].
    apply elem_of_cons in Hch as [-> | Hch]; [done |].
    apply list_elem_of_singleton in Hch as ->. by rewrite Hpre. }
  cbn [app]. erewrite bind_ok by (by apply batches_of_pos).
  set (w0 := set_conn empty_db (set_sqlite_file (Some empty_db) w)).
  assert (Hinv : loop_inv d w0 (faiss_file w)).
  { rewrite Hff. unfold loop_inv. cbn. split_and!; try done.
    intros r Hr. by apply not_elem_of_nil in Hr. }
  destruct (decide (Z.to_nat bs = 1)%nat) as [H1 | H1].
  - (* one chunk per batch: the second batch meets the stored hash *)
    rewrite H1. cbn [length slices take drop].
    destruct (ingest_batch_ok d (faiss_file w) 0 0 [c1] w0)
      as (fi1 & Hrun & _ & _); try done.
    { by constructor. }
    { rewrite Hff. cbn. lia. }
    { apply NoDup_singleton. }
    cbn zeta in Hrun. cbn [for_each].
    eexists. split.
    + erewrite bind_raise; [reflexivity |].
      erewrite bind_ok by exact Hrun.
      erewrite bind_raise; [reflexivity |].
      unfold ingest_batch.
      destruct (Hans (S (embed_called w0)) [or_str (j_text c2) []])
        as (rows & Hemb & Hlen).
      erewrite bind_ok; last first.
      { unfold embedder_embed_texts. cbn [embed_called map].
        rewrite Hemb. reflexivity. }
      cbn [map length] in *. rewrite Hlen. cbn [Nat.eqb negb].
      erewrite bind_raise; [reflexivity |].
      cbn [for_each]. erewrite bind_raise; [reflexivity |].
      erewrite bind_raise; [reflexivity |].
      apply insert_chunk_of_dup; [done |]. apply has_sha1_elem.
      cbn. rewrite <- Hsha. by left.
    + by cbn.
  - (* both chunks in the first batch *)
    assert (Hsl : slices (length [c1; c2]) (Z.to_nat bs) [c1; c2] = [[c1; c2]]).
    { destruct (Z.to_nat bs) as [|[|n]] eqn:Hn; [lia | done |].
      cbn [length slices take drop]. by rewrite take_nil, drop_nil. }
    rewrite Hsl. cbn [for_each].
    unfold ingest_batch.
    destruct (Hans (embed_called w0) [or_str (j_text c1) []; or_str (j_text c2) []])
      as (rows & Hemb & Hlen).
    destruct (insert_rows_duplicate c1 c2 [] []
                (set_embed_called (S (embed_called w0)) w0) Hst1 Hst2 Hsha)
      as (w' & Hins & Hsq' & Hff').
    exists w'. split.
    + erewrite bind_raise; [reflexivity |].
      erewrite bind_raise; [reflexivity |].
      erewrite bind_ok; last first.
      { unfold embedder_embed_texts. cbn [map]. rewrite Hemb. reflexivity. }
      cbn [map length] in *. rewrite Hlen. cbn [Nat.eqb negb].
      erewrite bind_raise; [reflexivity |]. exact Hins.
    + rewrite Hff'. by cbn.
Qed.
End IngestProps.

(** *** The sample collaborators meet the assumptions *)

Lemma sample_uuid4_inj (i j : nat) : sample_uuid4 i = sample_uuid4 j → i = j.
Proof.
  unfold sample_uuid4. intros He.
  assert (Hl : length (repeat "u"%char (S i)) = length (repeat "u"%char (S j))).
  { by rewrite He. }
  rewrite !repeat_length in Hl. lia.
Defined.

Lemma healthy_answers (n : nat) : @answers healthy 1 n.
Proof.
  intros texts. exists (map (fun _ => [one32]) texts).
  split; [reflexivity | apply length_map].
Defined.

Lemma empty_dir_ready (E : External) (d : nat) : @ready E d empty_dir.
Proof.
  split_and!.
  - split; [reflexivity | constructor].
  - intros r Hr. by apply not_elem_of_nil in Hr.
  - intros fi Hfi. discriminate Hfi.
Defined.

Lemma text_chunk_clean (t : string) :
  lit t ≠ [] → strip (lit t) = lit t → clean (text_chunk t).
Proof. intros Hne Hs. by exists (lit t). Defined.

Lemma text_chunk_storable (t : string) : storable (text_chunk t).
Proof. by split. Defined.

(** C1, counterexample.  A chunk whose text is one space has a non-empty
    text, but the first run does not add it. *)
Lemma ingest_blank_text_not_added :
  chunks_blank ≠ []
  ∧ Forall (fun ch => ∃ t, j_text ch = Some t ∧ t ≠ []) chunks_blank
  ∧ ∃ st w1,
      @ingest healthy chunks_blank (lit "openai") 64 empty_dir = (Ok st, w1)
      ∧ added st = 0
      ∧ added st ≠ Z.of_nat (length chunks_blank).
Proof.
  split_and!.
  - done.
  - repeat constructor. by exists (lit " ").
  - do 2 eexists. split; [vm_compute; reflexivity |]. by cbn.
Qed.

Lemma ingest_twice_witness :
  (Forall clean chunks_ab
   ∧ Forall storable chunks_ab
   ∧ disk_ntotal empty_dir + Z.of_nat (length chunks_ab) ≤ 2 ^ 63
   ∧ NoDup (map (@stored_sha1 healthy) chunks_ab)
   ∧ @ready healthy 1 empty_dir)
  ∧ ∃ st1 w1 st2 w2,
      @ingest healthy chunks_ab (lit "openai") 1 empty_dir = (Ok st1, w1)
      ∧ added st1 = 2 ∧ skipped_existing st1 = 0
      ∧ @ingest healthy chunks_ab (lit "openai") 1 w1 = (Ok st2, w2)
      ∧ added st2 = 0 ∧ skipped_existing st2 = 2
      ∧ sqlite_file w2 = sqlite_file w1 ∧ faiss_file w2 = faiss_file w1
      ∧ disk_db w2 = @db_after healthy empty_db 0 0 chunks_ab
      ∧ disk_ntotal w2 = 2
      ∧ consistent w2
      ∧ (NoDup (map row_sha1 (chunks empty_db)) →
         NoDup (map row_sha1 (chunks (disk_db w2)))).
Proof.
  assert (Hclean : Forall clean chunks_ab).
  { repeat constructor; by apply text_chunk_clean. }
  assert (Hnd : NoDup (map (@stored_sha1 healthy) chunks_ab)).
  { apply (bool_decide_unpack _). by vm_compute. }
  assert (Hst : Forall storable chunks_ab).
  { repeat constructor; apply text_chunk_storable. }
  assert (Hroom : disk_ntotal empty_dir + Z.of_nat (length chunks_ab) ≤ 2 ^ 63).
  { cbn. lia. }
  split; [split_and!; [done | done | done | done | apply empty_dir_ready] |].
  apply (@ingest_twice healthy sample_uuid4_inj 1 chunks_ab (lit "openai") 1 empty_dir).
  - reflexivity.
  - lia.
  - apply empty_dir_ready.
  - apply healthy_answers.
  - done.
  - exact Hclean.
  - exact Hst.
  - exact Hroom.
  - exact Hnd.
  - intros ch _. reflexivity.
Defined.




Lemma ingest_duplicate_text_raises_witness :
  (j_text (text_chunk "a") = j_text (text_chunk "a")
   ∧ precheck_text (text_chunk "a") ≠ []
   ∧ storable (text_chunk "a"))
  ∧ ∃ w',
      @ingest healthy chunks_aa (lit "openai") 64 empty_dir
      = (Raise IntegrityError, w')
      ∧ faiss_file w' = None.
Proof.
  split; [split_and!; [done | done | apply text_chunk_storable] |].
  apply (@ingest_duplicate_text_raises healthy sample_uuid4_inj 1
           (text_chunk "a") (text_chunk "a") (lit "openai") 64 empty_dir).
  - reflexivity.
  - lia.
  - reflexivity.
  - reflexivity.
  - apply healthy_answers.
  - reflexivity.
  - done.
  - apply text_chunk_storable.
  - apply text_chunk_storable.
Defined.

(** ** Normalisation *)


Lemma np_maximum_eps_not_zero (a : float32) : is_zero (np_maximum a eps_default) = false.
Proof.
  unfold np_maximum. destruct a as [s | s | | s m e]; try reflexivity.
  - by destruct (SFleb _ _ || _).
  - by destruct (SFleb _ _ || _).
Qed.



Lemma np_maximum_nan (a b : float32) :
  is_nan b = false → is_nan (np_maximum a b) = is_nan a.
Proof.
  intros Hb. unfold np_maximum.
  destruct (is_nan a) eqn:Ha.
  - by rewrite orb_true_r.
  - rewrite orb_false_r. by destruct (SFleb b a).
Qed.

Section IndexProps.
Context `{External}.

End IndexProps.

(** ** Strings *)

Lemma lstrip_hd (s : str) : hd_nonspace (lstrip s).
Proof.
  induction s as [|a s IH]; cbn; [done |].
  destruct (isspace a) eqn:Ha; [exact IH | exact Ha].
Qed.

Lemma lstrip_id (s : str) : hd_nonspace s → lstrip s = s.
Proof. destruct s as [|a s]; cbn; [done |]. by intros ->. Qed.

Lemma lstrip_suffix (s : str) : ∃ pre, s = pre ++ lstrip s.
Proof.
  induction s as [|a s [pre IH]]; cbn.
  - by exists [].
  - destruct (isspace a).
    + exists (a :: pre). cbn. by rewrite <- IH.
    + by exists [].
Qed.


Lemma rstrip_prefix (s : str) : ∃ post, s = rstrip s ++ post.
Proof.
  unfold rstrip. destruct (lstrip_suffix (rev s)) as [pre Hs].
  exists (rev pre). rewrite <- rev_app_distr, <- Hs. by rewrite rev_involutive.
Qed.



Lemma rstrip_last (s : str) : hd_nonspace (rev (rstrip s)).
Proof. unfold rstrip. rewrite rev_involutive. apply lstrip_hd. Qed.

Lemma rstrip_id (s : str) : hd_nonspace (rev s) → rstrip s = s.
Proof. intros Hs. unfold rstrip. rewrite lstrip_id by done. apply rev_involutive. Qed.

Lemma rstrip_hd (s : str) : hd_nonspace s → hd_nonspace (rstrip s).
Proof.
  intros Hs. destruct (rstrip_prefix s) as [post Hp].
  destruct (rstrip s) as [|a r]; [done |]. rewrite Hp in Hs. exact Hs.
Qed.

Lemma strip_idem (s : str) : strip (strip s) = strip s.
Proof.
  unfold strip. rewrite (lstrip_id (rstrip (lstrip s))).
  - apply rstrip_id, rstrip_last.
  - apply rstrip_hd, lstrip_hd.
Qed.

Lemma hd_nonspace_rev_ends (s : str) :
  s ≠ [] → hd_nonspace (rev s) → ends_nonspace s.
Proof.
  intros Hne Hh. destruct (rev s) as [|a r] eqn:Hr.
  - apply (f_equal (@rev ascii)) in Hr. rewrite rev_involutive in Hr. done.
  - exists (rev r), a. split; [| exact Hh].
    apply (f_equal (@rev ascii)) in Hr. rewrite rev_involutive in Hr. exact Hr.
Qed.

Lemma ends_nonspace_rev (s : str) : ends_nonspace s → hd_nonspace (rev s) ∧ s ≠ [].
Proof.
  intros (s' & a & -> & Ha). rewrite rev_app_distr. split; [exact Ha |].
  by destruct s'.
Qed.

Lemma strip_ends_nonspace (s : str) : strip s ≠ [] → ends_nonspace (strip s).
Proof. intros Hne. apply hd_nonspace_rev_ends; [done |]. apply rstrip_last. Qed.

Lemma stripped_ends_nonspace (s : str) : stripped s → ends_nonspace s.
Proof. intros [Hne Hs]. rewrite <- Hs. apply strip_ends_nonspace. by rewrite Hs. Qed.

Lemma rstrip_ends_nonspace (s : str) : ends_nonspace s → rstrip s = s.
Proof. intros Hs. apply rstrip_id. by apply ends_nonspace_rev. Qed.

Lemma lstrip_app_nonspace (s : str) (a : ascii) :
  isspace a = false → ∃ s', lstrip (s ++ [a]) = s' ++ [a].
Proof.
  intros Ha. induction s as [|b s IH]; cbn.
  - rewrite Ha. by exists [].
  - destruct (isspace b); [exact IH |]. by exists (b :: s).
Qed.

(** A text that ends in a character that is not whitespace is not blank. *)
Lemma ends_nonspace_strip (s : str) : ends_nonspace s → strip s ≠ [].
Proof.
  intros (s' & a & -> & Ha). unfold strip.
  destruct (lstrip_app_nonspace s' a Ha) as [s'' Hl]. rewrite Hl.
  rewrite rstrip_ends_nonspace by (by exists s'', a).
  by destruct s''.
Qed.

Lemma join_snoc (sp : str) (parts : list str) (b : str) :
  join sp (parts ++ [b])
  = match parts with
    | [] => b
    | _ => join sp parts ++ sp ++ b
    end.
Proof.
  induction parts as [|x parts IH]; [done |].
  destruct parts as [|y parts]; [done |].
  change (join sp ((x :: y :: parts) ++ [b]))
    with (x ++ sp ++ join sp ((y :: parts) ++ [b])).
  rewrite IH. change (join sp (x :: y :: parts)) with (x ++ sp ++ join sp (y :: parts)).
  by rewrite <- !app_assoc.
Qed.

Lemma join_snoc_ends (sp : str) (parts : list str) (b : str) :
  ends_nonspace b → ends_nonspace (join sp (parts ++ [b])).
Proof.
  intros (b' & a & -> & Ha). rewrite join_snoc. destruct parts as [|x parts].
  - by exists b', a.
  - exists (join sp (x :: parts) ++ sp ++ b'), a. split; [| done].
    by rewrite <- !app_assoc.
Qed.

Lemma join_ends (sp : str) (parts : list str) :
  parts ≠ [] → Forall ends_nonspace parts → ends_nonspace (join sp parts).
Proof.
  intros Hne Hall. destruct (exists_last Hne) as (init & b & ->).
  apply join_snoc_ends. apply Forall_app in Hall as [_ Hb]. by inversion Hb.
Qed.

(** ** Chunking *)

Lemma nonempty_true (s : str) : nonempty s = true ↔ s ≠ [].
Proof. by destruct s. Qed.

Lemma split_into_blocks_stripped (t : str) : Forall stripped (split_into_blocks t).
Proof.
  unfold split_into_blocks. destruct (strip _) as [|a0 t0]; [constructor |].
  apply Forall_forall. intros b Hb.
  apply list_elem_of_In, filter_In in Hb as [Hin Hne].
  apply in_map_iff in Hin as (x & <- & _).
  split; [by apply nonempty_true | apply strip_idem].
Qed.

Lemma splitlines_from_nonempty (cur s : str) :
  cur ≠ [] ∨ s ≠ [] → splitlines_from cur s ≠ [].
Proof.
  revert cur. induction s as [|a s IH]; intros cur Hne; cbn.
  - destruct Hne as [Hc | Hs]; [| done]. by destruct cur.
  - destruct (is_linebreak a); [done |]. apply IH. by left.
Qed.

Lemma block_starts_with_heading_ok (b : str) :
  b ≠ [] → ∃ h, block_starts_with_heading b = Ok h.
Proof.
  intros Hne. unfold block_starts_with_heading.
  destruct (splitlines b) as [|l0 ls] eqn:Hs.
  - exfalso. apply (splitlines_from_nonempty [] b); [by right | exact Hs].
  - destruct (is_heading_line _); by eexists.
Qed.

Lemma flush_emit (p : Params) (st : State) (ps pe : Z) :
  cur_text_parts st ≠ [] →
  cur_page_start st = Some ps → cur_page_end st = Some pe →
  strip (join sep (cur_text_parts st)) ≠ [] →
  flush p true st = after_emit p st ps pe.
Proof.
  intros Hparts Hps Hpe Ht. unfold flush, after_emit, carry_over, chunk_of.
  rewrite Hps, Hpe. destruct (cur_text_parts st) as [|x parts] eqn:Hp; [done |].
  cbn zeta. apply nonempty_true in Ht. rewrite Ht. cbn [negb].
  rewrite andb_false_r. cbn [text].
  by destruct ((0 <? overlap_chars p) && _).
Qed.

(** [flush] either leaves the state alone or emits the accumulator. *)
Lemma flush_cases (p : Params) (force : bool) (st : State) :
  flush p force st = st
  ∨ ∃ ps pe,
      cur_text_parts st ≠ []
      ∧ cur_page_start st = Some ps ∧ cur_page_end st = Some pe
      ∧ strip (join sep (cur_text_parts st)) ≠ []
      ∧ (force = false → min_chars p ≤ len (strip (join sep (cur_text_parts st))))
      ∧ flush p force st = after_emit p st ps pe.
Proof.
  unfold flush, after_emit, carry_over, chunk_of.
  destruct (cur_text_parts st) as [|x parts] eqn:Hp; [by left |].
  destruct (cur_page_start st) as [ps|]; [| by left].
  destruct (cur_page_end st) as [pe|]; [| by left].
  cbn zeta. rewrite <- Hp.
  destruct (nonempty (strip (join sep (cur_text_parts st)))) eqn:Ht; [| by left].
  cbn [negb].
  destruct ((len _ <? min_chars p) && negb force) eqn:Hsmall; [by left |].
  right. exists ps, pe. split_and!; try done.
  - by rewrite Hp.
  - by apply nonempty_true.
  - intros ->. rewrite andb_true_r in Hsmall. lia.
  - cbn [text]. by destruct ((0 <? overlap_chars p) && _).
Qed.

Lemma tail_of_ends_nonspace (n : Z) (t : str) :
  0 < n → ends_nonspace t → ends_nonspace (tail_of n t).
Proof.
  intros Hn (t' & a & -> & Ha). unfold tail_of.
  rewrite length_app. cbn [length].
  rewrite drop_app_le by lia. by eexists _, a.
Qed.


Lemma carry_over_ends (p : Params) (t : str) :
  ends_nonspace t → Forall ends_nonspace (carry_over p t).
Proof.
  intros Ht. unfold carry_over.
  destruct ((0 <? overlap_chars p) && _) eqn:Hc; [| constructor].
  apply andb_true_iff in Hc as [H0 _]. repeat constructor.
  apply tail_of_ends_nonspace; [lia | done].
Qed.

Lemma after_emit_ok (p : Params) (st : State) (ps pe : Z) :
  state_ok st → strip (join sep (cur_text_parts st)) ≠ [] →
  state_ok (after_emit p st ps pe).
Proof.
  intros (Hpages & Hparts & Hchunks) Ht. unfold state_ok, after_emit.
  cbn [st_chunks cur_text_parts cur_page_start cur_page_end chunk_of text].
  split_and!.
  - unfold carry_over. destruct ((0 <? overlap_chars p) && _); [| done].
    intros _. split; by eexists.
  - apply carry_over_ends. by apply strip_ends_nonspace.
  - apply Forall_app. split; [done |]. repeat constructor; [done |].
    apply strip_idem.
Qed.

Lemma flush_ok (p : Params) (force : bool) (st : State) :
  state_ok st → state_ok (flush p force st).
Proof.
  intros Hok. destruct (flush_cases p force st) as [-> | (ps & pe & _ & _ & _ & Ht & _ & ->)].
  - done.
  - by apply after_emit_ok.
Qed.

Lemma set_section_ok (h : str) (st : State) : state_ok st → state_ok (set_section h st).
Proof. done. Qed.

Lemma begin_page_ok (pr : PageRecord) (st : State) : state_ok st → state_ok (begin_page pr st).
Proof. done. Qed.

Lemma init_page_range_ok (page : Z) (st : State) :
  state_ok st → state_ok (init_page_range page st).
Proof.
  intros (_ & Hparts & Hchunks). split_and!; [| done | done].
  intros _. cbn. split; by eexists.
Qed.

Lemma append_part_ok (b : str) (st : State) :
  state_ok st → ends_nonspace b →
  is_Some (cur_page_start st) → is_Some (cur_page_end st) →
  state_ok (append_part b st).
Proof.
  intros (_ & Hparts & Hchunks) Hb Hps Hpe. split_and!; [done | | done].
  cbn. apply Forall_app. split; [done |]. by repeat constructor.
Qed.

Lemma init_page_range_pages (page : Z) (st : State) :
  is_Some (cur_page_start (init_page_range page st))
  ∧ is_Some (cur_page_end (init_page_range page st)).
Proof. split; by eexists. Qed.

Lemma place_block_ok (p : Params) (page : Z) (st : State) (b : str) :
  state_ok st → ends_nonspace b → state_ok (place_block p page st b).
Proof.
  intros Hok Hb. unfold place_block.
  set (st1 := init_page_range page st).
  set (st2 := if max_chars p <? prospective_len st1 b
              then init_page_range page (flush p true st1) else st1).
  assert (Hok2 : state_ok st2 ∧ is_Some (cur_page_start st2) ∧ is_Some (cur_page_end st2)).
  { subst st2. destruct (max_chars p <? _).
    - split; [| apply init_page_range_pages].
      by apply init_page_range_ok, flush_ok, init_page_range_ok.
    - split; [| apply init_page_range_pages]. by apply init_page_range_ok. }
  destruct Hok2 as (Hok2 & Hps & Hpe).
  assert (Hok3 : state_ok (append_part b st2)) by by apply append_part_ok.
  destruct (target_chars p <=? _); [by apply flush_ok | done].
Qed.

Lemma at_heading_ok (p : Params) (heading : option str) (st : State) :
  state_ok st → state_ok (at_heading p heading st).
Proof.
  intros Hok. destruct heading as [h|]; [| done].
  by apply set_section_ok, flush_ok.
Qed.

Lemma do_block_ok (p : Params) (page : Z) (st st' : State) (b : str) :
  state_ok st → ends_nonspace b → do_block p page st b = Ok st' → state_ok st'.
Proof.
  intros Hok Hb. unfold do_block.
  destruct (block_starts_with_heading b) as [heading|e]; [| done].
  intros [= <-]. apply place_block_ok; [by apply at_heading_ok | done].
Qed.

Lemma init_state_ok : state_ok init_state.
Proof. split_and!; [done | constructor | constructor]. Qed.

Lemma block_ends_nonspace (t b : str) : b ∈ split_into_blocks t → ends_nonspace b.
Proof.
  intros Hb. apply stripped_ends_nonspace.
  pose proof (split_into_blocks_stripped t) as Hall.
  rewrite Forall_forall in Hall. by apply Hall.
Qed.

Lemma reachable_ok (p : Params) (st : State) : reachable p st → state_ok st.
Proof.
  induction 1 as [| pr st _ IH | pr b st st' _ IH Hb Hstep].
  - apply init_state_ok.
  - by apply begin_page_ok.
  - eapply do_block_ok; [exact IH | | exact Hstep]. by eapply block_ends_nonspace.
Qed.

Lemma do_block_total (p : Params) (page : Z) (st : State) (b : str) :
  b ≠ [] → ∃ st', do_block p page st b = Ok st'.
Proof.
  intros Hne. unfold do_block.
  destruct (block_starts_with_heading_ok b Hne) as [h ->]. by eexists.
Qed.

(** An invariant of the turns of the loop holds when the pages are done;
    [Q] is what the turn may assume of its block. *)
Lemma do_blocks_inv (p : Params) (page : Z) (P : State → Prop) (Q : str → Prop) :
  (∀ st b st', P st → Q b → do_block p page st b = Ok st' → P st') →
  ∀ blocks st,
    P st → Forall Q blocks → Forall stripped blocks →
    ∃ st', do_blocks p page st blocks = Ok st' ∧ P st'.
Proof.
  intros Hstep. induction blocks as [|b blocks IH]; intros st HP HQ Hs.
  - by exists st.
  - apply Forall_cons in HQ as [HQb HQ]. apply Forall_cons in Hs as [[Hne _] Hs].
    cbn [do_blocks]. destruct (do_block_total p page st b Hne) as [st1 Hst1].
    rewrite Hst1. apply IH; [| done | done]. by eapply Hstep.
Qed.


Lemma page_block_elem (pr : PageRecord) :
  Forall (fun b => b ∈ split_into_blocks (pr_text pr)) (split_into_blocks (pr_text pr)).
Proof. by apply Forall_forall. Qed.

(** [chunk_pages] returns, and what it returns are the chunks of a
    reachable state after the last [flush]. *)
Lemma chunk_pages_reachable (p : Params) (pages : list PageRecord) :
  ∃ st, reachable p st ∧ chunk_pages p pages = Ok (st_chunks (flush p true st)).
Proof.
  unfold chunk_pages.
  assert (Hgen : ∀ pages st, reachable p st →
            ∃ st', do_pages p st pages = Ok st' ∧ reachable p st').
  { clear pages. induction pages as [|pr pages IH]; intros st Hr.
    - by exists st.
    - cbn [do_pages]. unfold do_page.
      destruct (negb (nonempty (strip (pr_text pr)))).
      + apply IH. by constructor.
      + destruct (do_blocks_inv p (pr_page pr) (reachable p)
                    (fun b => b ∈ split_into_blocks (pr_text pr))) with
          (blocks := split_into_blocks (pr_text pr)) (st := begin_page pr st)
          as (st1 & -> & Hr1).
        * intros st0 b st0' Hr0 Hb Hstep. by eapply reach_block.
        * by constructor.
        * apply page_block_elem.
        * apply split_into_blocks_stripped.
        * by apply IH. }
  destruct (Hgen pages init_state (reach_init p)) as (st & -> & Hr).
  by exists st.
Qed.

Section ChunkHash.
Context `{External}.

(** C9.  [chunk_pages] returns for every input, and the text of every
    chunk it returns is not empty and equal to its own [strip]; so the hash
    that [ingest] looks up for the chunk (of the stripped text) is the hash
    [insert_chunk] stores for it (of the text as it is). *)
Theorem chunk_text_stripped (p : Params) (pages : list PageRecord) :
  ∃ cs,
    chunk_pages p pages = Ok cs
    ∧ Forall (fun c => text c ≠ []
                       ∧ strip (text c) = text c
                       ∧ precheck_sha1 (to_json c) = stored_sha1 (to_json c)) cs.
Proof.
  destruct (chunk_pages_reachable p pages) as (st & Hr & ->).
  eexists. split; [reflexivity |].
  apply reachable_ok in Hr. apply (flush_ok p true) in Hr as (_ & _ & Hchunks).
  eapply Forall_impl; [exact Hchunks |].
  intros c [Hne Hs]. split_and!; [done | done |].
  unfold precheck_sha1, stored_sha1, precheck_text, to_json. cbn [j_text].
  unfold or_str. rewrite bool_decide_eq_false_2 by done. by rewrite Hs.
Qed.
End ChunkHash.

(** C6.  The two short pages under the heading [1.1 Overview] give one
    chunk, from page 1 to page 2, with that heading as its section. *)
Theorem two_pages_one_chunk :
  ∃ c,
    chunk_pages two_pages_params two_pages = Ok [c]
    ∧ page_start c = 1 ∧ page_end c = 2
    ∧ section_title c = Some (lit "1.1 Overview")
    ∧ text c = lit "1.1 Overview" ++ [LF] ++ lit "Short intro paragraph."
               ++ [LF; LF] ++ lit "Continuation text that is still short."
    ∧ char_len c = 75.
Proof. eexists. split; [vm_compute; reflexivity |]. by vm_compute. Qed.

Lemma flush_chunks (p : Params) (force : bool) (st : State) :
  ∃ rest, st_chunks (flush p force st) = st_chunks st ++ rest.
Proof.
  destruct (flush_cases p force st) as [-> | (ps & pe & _ & _ & _ & _ & _ & ->)].
  - exists []. by rewrite app_nil_r.
  - by eexists.
Qed.

Lemma flush_section (p : Params) (force : bool) (st : State) :
  cur_section (flush p force st) = cur_section st.
Proof.
  by destruct (flush_cases p force st) as [-> | (ps & pe & _ & _ & _ & _ & _ & ->)].
Qed.

Lemma place_block_chunks (p : Params) (page : Z) (st : State) (b : str) :
  ∃ rest, st_chunks (place_block p page st b) = st_chunks st ++ rest.
Proof.
  unfold place_block.
  set (st1 := init_page_range page st).
  set (st2 := if max_chars p <? prospective_len st1 b
              then init_page_range page (flush p true st1) else st1).
  assert (H2 : ∃ rest, st_chunks st2 = st_chunks st ++ rest).
  { subst st2. destruct (max_chars p <? _).
    - destruct (flush_chunks p true st1) as [rest Hr]. by exists rest.
    - exists []. by rewrite app_nil_r. }
  destruct H2 as [rest2 H2].
  destruct (target_chars p <=? _).
  - destruct (flush_chunks p false (append_part b st2)) as [rest Hr].
    exists (rest2 ++ rest). rewrite Hr. cbn [append_part st_chunks].
    by rewrite H2, app_assoc.
  - by exists rest2.
Qed.

Lemma place_block_section (p : Params) (page : Z) (st : State) (b : str) :
  cur_section (place_block p page st b) = cur_section st.
Proof.
  unfold place_block. destruct (target_chars p <=? _);
    rewrite ?flush_section; cbn [append_part cur_section];
    destruct (max_chars p <? _); cbn [init_page_range cur_section];
    by rewrite ?flush_section.
Qed.

(** C5.  At a block whose first line is a heading, in any state of the
    loop: the turn first runs the forced [flush] and sets the section.  An
    empty accumulator is left alone.  A non-empty one is emitted whole as
    the next chunk [c], whatever its length is (no comparison with
    [min_chars] is made): its text is the stripped join of the parts, its
    section is the one before the heading, and the accumulator that the
    heading block is then appended to holds nothing but the tail of [c]
    that [overlap_chars] carries over (nothing when it is 0). *)
Theorem heading_flushes_accumulator (p : Params) (page : Z) (st : State) (b h : str) :
  reachable p st →
  block_starts_with_heading b = Ok (Some h) →
  do_block p page st b = Ok (place_block p page (set_section h (flush p true st)) b)
  ∧ cur_section (place_block p page (set_section h (flush p true st)) b) = Some h
  ∧ (cur_text_parts st = [] → flush p true st = st)
  ∧ (cur_text_parts st ≠ [] →
     ∃ c rest,
       st_chunks (flush p true st) = st_chunks st ++ [c]
       ∧ text c = strip (join sep (cur_text_parts st))
       ∧ text c ≠ []
       ∧ section_title c = cur_section st
       ∧ Some (page_start c) = cur_page_start st
       ∧ Some (page_end c) = cur_page_end st
       ∧ cur_text_parts (flush p true st) = carry_over p (text c)
       ∧ st_chunks (place_block p page (set_section h (flush p true st)) b)
         = st_chunks st ++ c :: rest).
Proof.
  intros Hr Hh. apply reachable_ok in Hr as Hok. split_and!.
  - unfold do_block. by rewrite Hh.
  - by rewrite place_block_section.
  - intros Hnil. unfold flush. by rewrite Hnil.
  - intros Hne. destruct Hok as (Hpages & Hparts & _).
    destruct (Hpages Hne) as [[ps Hps] [pe Hpe]].
    assert (Ht : strip (join sep (cur_text_parts st)) ≠ []).
    { by apply ends_nonspace_strip, join_ends. }
    rewrite (flush_emit p st ps pe) by done.
    destruct (place_block_chunks p page (set_section h (after_emit p st ps pe)) b)
      as [rest Hrest].
    exists (chunk_of st ps pe), rest. split_and!; try done.
    rewrite Hrest. cbn [set_section after_emit st_chunks].
    by rewrite <- app_assoc.
Qed.

Lemma after_intro_reachable : reachable uneven_params after_intro.
Proof.
  apply (reach_block uneven_params uneven_record (lit "Intro.")
                     (begin_page uneven_record init_state)).
  - apply reach_page, reach_init.
  - vm_compute. by left.
  - vm_compute. reflexivity.
Defined.

Lemma heading_flushes_accumulator_witness :
  (reachable uneven_params after_intro
   ∧ block_starts_with_heading overview_heading = Ok (Some overview_heading))
  ∧ do_block uneven_params 1 after_intro overview_heading
    = Ok (place_block uneven_params 1
            (set_section overview_heading (flush uneven_params true after_intro))
            overview_heading)
  ∧ ∃ c rest,
      st_chunks (flush uneven_params true after_intro) = st_chunks after_intro ++ [c]
      ∧ text c = strip (join sep (cur_text_parts after_intro))
      ∧ text c ≠ []
      ∧ section_title c = cur_section after_intro
      ∧ Some (page_start c) = cur_page_start after_intro
      ∧ Some (page_end c) = cur_page_end after_intro
      ∧ cur_text_parts (flush uneven_params true after_intro)
        = carry_over uneven_params (text c)
      ∧ st_chunks (place_block uneven_params 1
                     (set_section overview_heading (flush uneven_params true after_intro))
                     overview_heading)
        = st_chunks after_intro ++ c :: rest.
Proof.
  assert (Hh : block_starts_with_heading overview_heading = Ok (Some overview_heading)).
  { vm_compute. reflexivity. }
  split; [split; [apply after_intro_reachable | exact Hh] |].
  destruct (heading_flushes_accumulator uneven_params 1 after_intro _ _
              after_intro_reachable Hh) as (Hstep & _ & _ & Hemit).
  split; [exact Hstep |]. apply Hemit. discriminate.
Defined.

(** *** Sizes *)














(** * Further properties *)

(** ** The store *)

Lemma NoDup_map_elem_inj {A B : Type} (f : A → B) (l : list A) (x y : A) :
  NoDup (map f l) → x ∈ l → y ∈ l → f x = f y → x = y.
Proof.
  induction l as [|a l IH]; intros Hnd Hx Hy Hf.
  - by apply not_elem_of_nil in Hx.
  - cbn [map] in Hnd. apply NoDup_cons in Hnd as [Ha Hnd].
    apply elem_of_cons in Hx as [-> | Hx]; apply elem_of_cons in Hy as [-> | Hy].
    + done.
    + exfalso. apply Ha. rewrite Hf. by apply list_elem_of_fmap_2.
    + exfalso. apply Ha. rewrite <- Hf. by apply list_elem_of_fmap_2.
    + by apply IH.
Qed.

Lemma find_some_elem {A : Type} (f : A → bool) (l : list A) (x : A) :
  List.find f l = Some x → x ∈ l ∧ f x = true.
Proof. intros Hf. apply find_some in Hf as [Hin Hfx]. by rewrite list_elem_of_In. Qed.

Lemma find_none_elem {A : Type} (f : A → bool) (l : list A) (x : A) :
  List.find f l = None → x ∈ l → f x = false.
Proof. intros Hf Hx. eapply find_none; [exact Hf | by apply list_elem_of_In]. Qed.

Lemma find_is_some {A : Type} (f : A → bool) (l : list A) (x : A) :
  x ∈ l → f x = true → ∃ y, List.find f l = Some y.
Proof.
  intros Hx Hfx. destruct (List.find f l) as [y|] eqn:Hf; [by exists y |].
  rewrite (find_none_elem f l x Hf Hx) in Hfx. done.
Qed.

(** Under the keys, the dictionary of [get_chunks_by_faiss_ids] holds the
    one row of every requested position. *)
Lemma by_id_resolve1 (db : DB) (ids : list Z) (i : Z) :
  keys_unique db → i ∈ ids →
  by_id_of (select_join db ids) !! i = resolve1 db i.
Proof.
  intros (Hcid & _ & Hpos) Hi. unfold resolve1.
  destruct (by_id_of (select_join db ids) !! i) as [h|] eqn:Hl.
  - apply by_id_of_Some in Hl as [Hin Hk].
    apply select_join_elem in Hin as (m & c & Hm & Hc & _ & He & ->).
    cbn in Hk.
    destruct (find_is_some (fun m => Z.eqb (fst m) i) (faiss_map db) m Hm) as [m' Hm'].
    { by apply Z.eqb_eq. }
    rewrite Hm'. apply find_some_elem in Hm' as [Hin' Hk']. apply Z.eqb_eq in Hk'.
    assert (m' = m) as ->.
    { eapply (NoDup_map_elem_inj fst); [exact Hpos | done | done | congruence]. }
    destruct (find_is_some (fun c => str_eqb (chunk_id c) (snd m)) (chunks db) c Hc)
      as [c' Hc'].
    { by apply str_eqb_eq. }
    rewrite Hc'. apply find_some_elem in Hc' as [Hcin Hce]. apply str_eqb_eq in Hce.
    assert (c' = c) as ->.
    { eapply (NoDup_map_elem_inj chunk_id); [exact Hcid | done | done | congruence]. }
    done.
  - destruct (List.find _ (faiss_map db)) as [m|] eqn:Hm; [| done].
    apply find_some_elem in Hm as [Hm Hk]. apply Z.eqb_eq in Hk.
    destruct (List.find _ (chunks db)) as [c|] eqn:Hc; [| done].
    apply find_some_elem in Hc as [Hc He]. apply str_eqb_eq in He.
    exfalso.
    assert (Hs : is_Some (by_id_of (select_join db ids) !! i)).
    { apply resolvable_by_id; [done |]. unfold resolvable.
      apply existsb_exists. exists m. split; [by apply list_elem_of_In |].
      apply andb_true_iff. split; [by apply Z.eqb_eq |].
      apply has_chunk_id_elem. by exists c. }
    rewrite Hl in Hs. by destruct Hs.
Qed.

Section LookupProps.
Context `{External}.

Lemma get_chunks_resolve1_eq (db : DB) (faiss_ids : list Z) :
  keys_unique db → bindable faiss_ids →
  get_chunks_by_faiss_ids db faiss_ids = Ok (omap (resolve1 db) faiss_ids).
Proof.
  intros Hkeys Hbind. rewrite get_chunks_by_faiss_ids_eq by done. f_equal.
  apply list_omap_ext. apply Forall2_same_length_lookup_2; [done |].
  intros k i j Hi Hj. rewrite Hi in Hj. inversion Hj; subst j.
  apply by_id_resolve1; [done |]. by eapply list_elem_of_lookup_2.
Qed.

Lemma get_chunks_resolve1_Ok (db : DB) (faiss_ids : list Z) (rows : list Hit) :
  keys_unique db →
  get_chunks_by_faiss_ids db faiss_ids = Ok rows →
  rows = omap (resolve1 db) faiss_ids.
Proof.
  intros Hkeys Hrun. apply get_chunks_by_faiss_ids_Ok in Hrun as ->.
  apply list_omap_ext. apply Forall2_same_length_lookup_2; [done |].
  intros k i j Hi Hj. rewrite Hi in Hj. inversion Hj; subst j.
  apply by_id_resolve1; [done |]. by eapply list_elem_of_lookup_2.
Qed.

(** X1.  In a store that respects its keys, and for positions that can be
    bound to one statement, [get_chunks_by_faiss_ids] is the
    position-by-position look-up: for each requested position, in the
    order requested, the row of the chunk that the position is mapped to,
    and nothing for a position without mapping or without chunk. *)
Theorem get_chunks_by_faiss_ids_resolve1 (db : DB) (faiss_ids : list Z) :
  keys_unique db → bindable faiss_ids →
  get_chunks_by_faiss_ids db faiss_ids = Ok (omap (resolve1 db) faiss_ids).
Proof. apply get_chunks_resolve1_eq. Qed.
End LookupProps.

Lemma sample_db_keys : keys_unique sample_db.
Proof. split_and!; apply (bool_decide_unpack _); by vm_compute. Defined.

Lemma bindable_170 : @bindable healthy [1; 7; 0].
Proof. split; [cbn; lia | by repeat constructor]. Defined.

Lemma get_chunks_by_faiss_ids_resolve1_witness :
  (keys_unique sample_db ∧ @bindable healthy [1; 7; 0])
  ∧ @get_chunks_by_faiss_ids healthy sample_db [1; 7; 0]
    = Ok (omap (resolve1 sample_db) [1; 7; 0]).
Proof.
  split; [split; [exact sample_db_keys | exact bindable_170] |].
  exact (@get_chunks_by_faiss_ids_resolve1 healthy sample_db [1; 7; 0] sample_db_keys
           bindable_170).
Defined.

Lemma NoDup_snoc_fresh {A : Type} (l : list A) (x : A) :
  NoDup l → x ∉ l → NoDup (l ++ [x]).
Proof.
  intros Hl Hx. apply NoDup_app. split_and!; [done | | apply NoDup_singleton].
  intros y Hy Hy'. apply list_elem_of_singleton in Hy'. by subst y.
Qed.

Lemma has_chunk_id_false (db : DB) (cid : str) :
  has_chunk_id db cid = false ↔ cid ∉ map chunk_id (chunks db).
Proof.
  split.
  - intros Hf Hin. apply list_elem_of_fmap in Hin as (c & -> & Hc).
    assert (Ht : has_chunk_id db (chunk_id c) = true).
    { apply has_chunk_id_elem. by exists c. }
    congruence.
  - intros Hn. destruct (has_chunk_id db cid) eqn:Hh; [| done].
    apply has_chunk_id_elem in Hh as (c & Hc & <-). exfalso. apply Hn.
    by apply list_elem_of_fmap_2.
Qed.

Lemma has_faiss_id_false (db : DB) (i : Z) :
  has_faiss_id db i = false ↔ i ∉ map fst (faiss_map db).
Proof.
  rewrite <- has_faiss_id_elem. destruct (has_faiss_id db i); split; try done.
Qed.

Section StoreProps.
Context `{External}.

Lemma insert_chunk_keys (doc pdf : str) (ps pe : Z) (sec : option str) (t : str)
    (w w' : World) (r : res ChunkRow) :
  keys_unique (conn w) → insert_chunk doc pdf ps pe sec t w = (r, w') →
  keys_unique (conn w').
Proof.
  intros (Hcid & Hsha & Hpos). unfold insert_chunk.
  destruct (negb _).
  { intros [= <- <-]. by split_and!. }
  destruct (has_chunk_id _ _) eqn:Hc; cbn [orb].
  { intros [= <- <-]. by split_and!. }
  destruct (has_sha1 _ _) eqn:Hs.
  { intros [= <- <-]. by split_and!. }
  intros [= <- <-]. unfold keys_unique.
  cbn [conn set_conn chunks faiss_map]. rewrite !map_app. cbn [map chunk_id row_sha1].
  split_and!; [| | done].
  - apply NoDup_snoc_fresh; [done |]. by apply has_chunk_id_false.
  - apply NoDup_snoc_fresh; [done |]. by apply has_sha1_false.
Qed.

Lemma insert_faiss_row_keys (m : Z * str) (w w' : World) (r : res unit) :
  keys_unique (conn w) → insert_faiss_row m w = (r, w') → keys_unique (conn w').
Proof.
  intros (Hcid & Hsha & Hpos). unfold insert_faiss_row.
  destruct (negb _).
  { intros [= <- <-]. by split_and!. }
  destruct (has_faiss_id _ _) eqn:Hf.
  { intros [= <- <-]. by split_and!. }
  intros [= <- <-]. unfold keys_unique.
  cbn [conn set_conn chunks faiss_map]. rewrite map_app. cbn [map].
  split_and!; [done | done |].
  apply NoDup_snoc_fresh; [done |]. by apply has_faiss_id_false.
Qed.

Lemma insert_faiss_rows_keys (l : list (Z * str)) (w w' : World) (r : res unit) :
  keys_unique (conn w) →
  for_each (fun _ m => insert_faiss_row m) tt l w = (r, w') →
  keys_unique (conn w').
Proof.
  revert w. induction l as [|m l IH]; intros w Hk.
  - cbn. unfold ret. by intros [= <- <-].
  - cbn [for_each]. unfold bind.
    destruct (insert_faiss_row m w) as [[[]|e] w1] eqn:H1.
    + intros Hrest. eapply IH; [| exact Hrest]. by eapply insert_faiss_row_keys.
    + intros [= <- <-]. by eapply insert_faiss_row_keys.
Qed.

(** X2.  The two inserts keep the keys of the schema, whether they succeed
    or raise: after [insert_chunk] no identifier and no hash is stored
    twice, after [insert_faiss_map] no position is mapped twice. *)
Theorem inserts_keep_keys (w : World) :
  keys_unique (conn w) →
  (∀ doc pdf ps pe sec t r w',
     insert_chunk doc pdf ps pe sec t w = (r, w') → keys_unique (conn w'))
  ∧ (∀ faiss_ids chunk_ids r w',
       insert_faiss_map faiss_ids chunk_ids w = (r, w') → keys_unique (conn w')).
Proof.
  intros Hk. split.
  - intros doc pdf ps pe sec t r w' Hins. by eapply insert_chunk_keys.
  - intros faiss_ids chunk_ids r w' Hins. unfold insert_faiss_map in Hins.
    by eapply insert_faiss_rows_keys.
Qed.

(** X3.  Insert and look-up.  A successful [insert_chunk] (its page
    numbers were SQLite integers) appends one row that carries the text and
    its hash, leaves the mappings and the file on disk alone (nothing is
    committed yet), and makes [has_sha1] of that hash true; inserting the
    same text again, whatever the other columns are, raises and leaves the
    tables as they are: [IntegrityError] when the page numbers can be
    bound, the [OverflowError] of the binding otherwise. *)
Theorem insert_chunk_then_has_sha1 (doc pdf : str) (ps pe : Z) (sec : option str)
    (t : str) (w w' : World) (row : ChunkRow) :
  insert_chunk doc pdf ps pe sec t w = (Ok row, w') →
  row_text row = t ∧ row_sha1 row = sha1_text t
  ∧ chunks (conn w') = chunks (conn w) ++ [row]
  ∧ faiss_map (conn w') = faiss_map (conn w)
  ∧ sqlite_file w' = sqlite_file w
  ∧ has_sha1 (conn w) (sha1_text t) = false
  ∧ has_sha1 (conn w') (sha1_text t) = true
  ∧ sqlite_int ps = true ∧ sqlite_int pe = true
  ∧ (∀ doc2 pdf2 ps2 pe2 sec2,
       ∃ e w'', insert_chunk doc2 pdf2 ps2 pe2 sec2 t w' = (Raise e, w'')
                ∧ e = (if sqlite_int ps2 && sqlite_int pe2 then IntegrityError
                       else OverflowError)
                ∧ conn w'' = conn w' ∧ sqlite_file w'' = sqlite_file w').
Proof.
  unfold insert_chunk.
  destruct (sqlite_int ps) eqn:Hps; [| discriminate].
  destruct (sqlite_int pe) eqn:Hpe; [| discriminate]. cbn [andb negb].
  destruct (has_chunk_id _ _) eqn:Hc; cbn [orb]; [discriminate |].
  destruct (has_sha1 (conn w) _) eqn:Hs; [discriminate |].
  intros [= <- <-]. cbn [row_text row_sha1 conn set_conn set_uuid_drawn chunks
                          faiss_map sqlite_file].
  assert (Hin : has_sha1 {| chunks := chunks (conn w) ++
                              [{| chunk_id := uuid4 (uuid_drawn w); row_doc := doc;
                                  row_source_pdf := pdf; row_page_start := ps;
                                  row_page_end := pe; row_section_title := sec;
                                  row_text := t; row_sha1 := sha1_text t |}];
                            faiss_map := faiss_map (conn w) |} (sha1_text t) = true).
  { apply has_sha1_elem. cbn [chunks]. rewrite map_app. apply elem_of_app. right.
    cbn. by left. }
  split_and!; try done.
  intros doc2 pdf2 ps2 pe2 sec2.
  destruct (sqlite_int ps2 && sqlite_int pe2); cbn [negb].
  - rewrite Hin, orb_true_r. by eexists _, _.
  - by eexists _, _.
Qed.
End StoreProps.

Lemma insert_chunk_then_has_sha1_witness :
  @insert_chunk healthy (lit "manual") [] 3 4 None (lit "c") sample_world
  = (Ok (@row_of healthy 2 {| j_doc := Some (lit "manual"); j_source_pdf := None;
                               j_page_start := Some 3; j_page_end := Some 4;
                               j_section_title := None; j_text := Some (lit "c") |}),
     set_conn {| chunks := chunks sample_db
                           ++ [@row_of healthy 2
                                 {| j_doc := Some (lit "manual"); j_source_pdf := None;
                                    j_page_start := Some 3; j_page_end := Some 4;
                                    j_section_title := None; j_text := Some (lit "c") |}];
                 faiss_map := faiss_map sample_db |}
              (set_uuid_drawn 3 sample_world))
  ∧ has_sha1 sample_db (@sha1_text healthy (lit "c")) = false
  ∧ has_sha1 {| chunks := chunks sample_db
                          ++ [@row_of healthy 2
                                {| j_doc := Some (lit "manual"); j_source_pdf := None;
                                   j_page_start := Some 3; j_page_end := Some 4;
                                   j_section_title := None; j_text := Some (lit "c") |}];
                faiss_map := faiss_map sample_db |}
             (@sha1_text healthy (lit "c")) = true.
Proof.
  assert (Hrun : @insert_chunk healthy (lit "manual") [] 3 4 None (lit "c") sample_world
                 = (Ok (@row_of healthy 2
                          {| j_doc := Some (lit "manual"); j_source_pdf := None;
                             j_page_start := Some 3; j_page_end := Some 4;
                             j_section_title := None; j_text := Some (lit "c") |}),
                    set_conn {| chunks := chunks sample_db
                                ++ [@row_of healthy 2
                                      {| j_doc := Some (lit "manual"); j_source_pdf := None;
                                         j_page_start := Some 3; j_page_end := Some 4;
                                         j_section_title := None;
                                         j_text := Some (lit "c") |}];
                                faiss_map := faiss_map sample_db |}
                             (set_uuid_drawn 3 sample_world))).
  { vm_compute. reflexivity. }
  split; [exact Hrun |].
  destruct (@insert_chunk_then_has_sha1 healthy _ _ _ _ _ _ _ _ _ Hrun)
    as (_ & _ & _ & _ & _ & Hbefore & Hafter & _).
  split; [exact Hbefore | exact Hafter].
Defined.

Lemma inserts_keep_keys_witness :
  keys_unique (conn sample_world)
  ∧ (∀ doc pdf ps pe sec t r w',
       @insert_chunk healthy doc pdf ps pe sec t sample_world = (r, w') →
       keys_unique (conn w'))
  ∧ (∀ faiss_ids chunk_ids r w',
       @insert_faiss_map faiss_ids chunk_ids sample_world = (r, w') →
       keys_unique (conn w')).
Proof.
  split; [exact sample_db_keys |].
  exact (@inserts_keep_keys healthy sample_world sample_db_keys).
Defined.

(** ** What ingestion writes *)

Lemma keeps_ret {A : Type} (I : World → Prop) (R : World → World → Prop) (a : A) :
  Reflexive R → keeps I R (ret a).
Proof. intros HR w r w' HI [= <- <-]. by split. Qed.

Lemma keeps_raise {A : Type} (I : World → Prop) (R : World → World → Prop) (e : exn) :
  Reflexive R → keeps I R (@raise A e).
Proof. intros HR w r w' HI [= <- <-]. by split. Qed.

Lemma keeps_lift {A : Type} (I : World → Prop) (R : World → World → Prop) (x : res A) :
  Reflexive R → keeps I R (lift x).
Proof. intros HR w r w' HI [= <- <-]. by split. Qed.

Lemma keeps_bind {A B : Type} (I : World → Prop) (R : World → World → Prop)
    (m : M A) (k : A → M B) :
  Transitive R → keeps I R m → (∀ a, keeps I R (k a)) → keeps I R (bind m k).
Proof.
  intros HT Hm Hk w r w' HI. unfold bind.
  destruct (m w) as [[a|e] w1] eqn:Hmw.
  - intros Hkw. destruct (Hm _ _ _ HI Hmw) as [HI1 HR1].
    destruct (Hk a _ _ _ HI1 Hkw) as [HI2 HR2]. split; [done |]. by etrans.
  - intros [= <- <-]. by apply (Hm _ _ _ HI Hmw).
Qed.

Lemma keeps_for_each {A S : Type} (I : World → Prop) (R : World → World → Prop)
    (body : S → A → M S) (l : list A) :
  Reflexive R → Transitive R →
  (∀ s a, keeps I R (body s a)) → ∀ s, keeps I R (for_each body s l).
Proof.
  intros HR HT Hbody. induction l as [|a l IH]; intros s; cbn [for_each].
  - by apply keeps_ret.
  - apply keeps_bind; [done | apply Hbody | apply IH].
Qed.

Global Instance db_le_preorder : PreOrder db_le.
Proof.
  split.
  - intros a. by split.
  - intros a b c [H1 H2] [H3 H4]. split; by etrans.
Qed.

Global Instance disk_grows_preorder : PreOrder disk_grows.
Proof.
  split.
  - intros w. unfold disk_grows. reflexivity.
  - intros a b c Hab Hbc. unfold disk_grows in *. by etrans.
Qed.

Global Instance index_same_preorder : PreOrder index_same.
Proof.
  split.
  - by intros w.
  - intros a b c Hab Hbc. unfold index_same in *. congruence.
Qed.

Global Instance files_same_preorder : PreOrder files_same.
Proof.
  split.
  - by intros w.
  - intros a b c [H1 H2] [H3 H4]. unfold files_same. split; congruence.
Qed.

Section WriteProps.
Context `{External}.

(** Each step of a batch before the commit leaves both files alone. *)
Lemma embedder_files (texts : list str) :
  keeps always files_same (embedder_embed_texts texts).
Proof. intros w r w' _ [= <- <-]. by split. Qed.

Lemma insert_chunk_of_files (b : ChunkObj) : keeps always files_same (insert_chunk_of b).
Proof.
  intros w r w' _. unfold insert_chunk_of, insert_chunk.
  destruct (negb _); [| destruct (_ || _)]; intros [= <- <-]; by split.
Qed.

Lemma insert_rows_files (batch : list ChunkObj) (acc : list ChunkRow) :
  keeps always files_same
    (for_each (fun rows b => row <- insert_chunk_of b ;; ret (rows ++ [row])) acc batch).
Proof.
  apply keeps_for_each; try apply _.
  intros rows b. apply keeps_bind; [apply _ | apply insert_chunk_of_files |].
  intros row. apply keeps_ret. apply _.
Qed.

Lemma insert_faiss_map_files (ids : list Z) (cids : list str) :
  keeps always files_same (insert_faiss_map ids cids).
Proof.
  unfold insert_faiss_map. apply keeps_for_each; try apply _.
  intros [] m w r w' _. unfold insert_faiss_row.
  destruct (negb _); [| destruct (has_faiss_id _ _)]; intros [= <- <-]; by split.
Qed.

(** X4.  A batch that fails writes nothing: whatever makes [ingest_batch]
    raise (the provider, the shape test, a constraint of the store, the
    dimension test of the index), the metadata file and the index file are
    the ones from before the batch; the rows inserted so far were pending
    and are lost with the transaction. *)
Theorem ingest_batch_failure_writes_nothing (acc : option FaissIndex * Z * Z)
    (batch : list ChunkObj) (w w' : World) (e : exn) :
  ingest_batch acc batch w = (Raise e, w') →
  sqlite_file w' = sqlite_file w ∧ faiss_file w' = faiss_file w.
Proof.
  intros Hrun. change (files_same w w'). revert Hrun.
  destruct acc as [[fio a] r]. unfold ingest_batch. unfold bind at 1.
  destruct (embedder_embed_texts _ w) as [[vecs|e1] w1] eqn:H1;
    pose proof (embedder_files _ _ _ _ I H1) as [_ Hf1]; [| by intros [= <- <-]].
  destruct vecs as [d rows|]; [| by intros [= <- <-]].
  destruct (negb _); [by intros [= <- <-] |].
  unfold bind at 1.
  destruct (for_each _ [] batch w1) as [[new_rows|e2] w2] eqn:H2;
    pose proof (insert_rows_files _ _ _ _ _ I H2) as [_ Hf2];
    [| intros [= <- <-]; by etrans].
  unfold bind at 1, lift.
  destruct (add (ensure_faiss fio d) (Matrix d rows)) as [[ids fi']|e3];
    [| intros [= <- <-]; by etrans].
  unfold bind at 1.
  destruct (insert_faiss_map ids _ w2) as [[[]|e4] w3] eqn:H4;
    pose proof (insert_faiss_map_files _ _ _ _ _ I H4) as [_ Hf4];
    [| intros [= <- <-]; etrans; [exact Hf1 |]; by etrans].
  unfold bind, commit, ret. discriminate.
Qed.
Global Instance grows_same_preorder : PreOrder grows_same.
Proof.
  split.
  - intros w. split; reflexivity.
  - intros a b c [H1 H2] [H3 H4]. split; by etrans.
Qed.

(** A step that leaves the files alone and can only add pending rows. *)
Lemma keeps_pending (A : Type) (m : M A) :
  (∀ w r w', m w = (r, w') →
             sqlite_file w' = sqlite_file w ∧ faiss_file w' = faiss_file w
             ∧ db_le (conn w) (conn w')) →
  keeps pending_ok grows_same m.
Proof.
  intros Hm w r w' HI Hrun. destruct (Hm _ _ _ Hrun) as (Hs & Hf & Hc).
  assert (Hd : disk_db w' = disk_db w) by (unfold disk_db; by rewrite Hs).
  unfold pending_ok, grows_same, disk_grows, index_same. rewrite Hd.
  split; [by etrans |]. by split.
Qed.

Lemma embedder_pending (texts : list str) :
  keeps pending_ok grows_same (embedder_embed_texts texts).
Proof. apply keeps_pending. intros w r w' [= <- <-]. by split_and!. Qed.

Lemma insert_chunk_of_pending (b : ChunkObj) :
  keeps pending_ok grows_same (insert_chunk_of b).
Proof.
  apply keeps_pending. intros w r w'. unfold insert_chunk_of, insert_chunk.
  destruct (negb _); [| destruct (_ || _)]; intros [= <- <-]; split_and!; try done.
  split; cbn; [by apply prefix_app_r | done].
Qed.

Lemma insert_faiss_map_pending (ids : list Z) (cids : list str) :
  keeps pending_ok grows_same (insert_faiss_map ids cids).
Proof.
  unfold insert_faiss_map. apply keeps_for_each; try apply _.
  intros [] m. apply keeps_pending. intros w r w'. unfold insert_faiss_row.
  destruct (negb _); [| destruct (has_faiss_id _ _)]; intros [= <- <-]; split_and!; try done.
  split; cbn; [done | by apply prefix_app_r].
Qed.

Lemma commit_pending : keeps pending_ok grows_same commit.
Proof.
  intros w r w' HI [= <- <-].
  unfold pending_ok, grows_same, disk_grows, index_same, disk_db in *.
  cbn. by split_and!.
Qed.

Lemma close_pending : keeps pending_ok grows_same close.
Proof.
  intros w r w' HI [= <- <-].
  unfold pending_ok, grows_same, disk_grows, index_same, disk_db in *.
  cbn. by split_and!.
Qed.

Lemma ingest_batch_pending (acc : option FaissIndex * Z * Z) (batch : list ChunkObj) :
  keeps pending_ok grows_same (ingest_batch acc batch).
Proof.
  destruct acc as [[fio a] r]. unfold ingest_batch.
  apply keeps_bind; [apply _ | apply embedder_pending |].
  intros [d rows|]; [| apply keeps_raise; apply _].
  destruct (negb _); [apply keeps_raise; apply _ |].
  apply keeps_bind; [apply _ | |].
  { apply keeps_for_each; try apply _. intros rows0 b.
    apply keeps_bind; [apply _ | apply insert_chunk_of_pending |].
    intros row. apply keeps_ret. apply _. }
  intros new_rows. apply keeps_bind; [apply _ | apply keeps_lift; apply _ |].
  intros [ids fi']. apply keeps_bind; [apply _ | apply insert_faiss_map_pending |].
  intros _. apply keeps_bind; [apply _ | apply commit_pending |].
  intros _. apply keeps_ret. apply _.
Qed.

Lemma batches_pending (acc : option FaissIndex * Z * Z) (bl : list (list ChunkObj)) :
  keeps pending_ok grows_same (for_each ingest_batch acc bl).
Proof.
  apply keeps_for_each; try apply _. intros s b. apply ingest_batch_pending.
Qed.

(** The tail of [ingest] after the loop. *)
Lemma ingest_tail (fio : option FaissIndex) (st : Stats) (w w' : World) (r : res Stats) :
  pending_ok w →
  (save fio ;; close ;; ret st) w = (r, w') →
  disk_grows w w' ∧ (∀ e, r = Raise e → faiss_file w' = faiss_file w).
Proof.
  intros HI. unfold bind, save. destruct fio as [fi|].
  - cbn. intros [= <- <-]. split; [| done].
    unfold disk_grows, disk_db. cbn. reflexivity.
  - unfold raise. intros [= <- <-]. split; [reflexivity | done].
Qed.

(** X5.  [ingest] never removes or rewrites what is stored, and writes the
    index file only when it returns: after any run, normal or raised, the
    chunk rows and the position mappings on disk begin with the ones from
    before, in the same order; after a run that raised, the index file is
    the one from before. *)
Theorem ingest_only_appends (chunks_jsonl : list ChunkObj) (kind : str) (bs : Z)
    (w w' : World) (r : res Stats) :
  ingest chunks_jsonl kind bs w = (r, w') →
  chunks (disk_db w) `prefix_of` chunks (disk_db w')
  ∧ faiss_map (disk_db w) `prefix_of` faiss_map (disk_db w')
  ∧ (∀ e, r = Raise e → faiss_file w' = faiss_file w).
Proof.
  unfold ingest. unfold bind at 1. cbn [MetaStore_init].
  set (w0 := set_conn (default empty_db (sqlite_file w))
               (set_sqlite_file (Some (default empty_db (sqlite_file w))) w)).
  assert (H0 : pending_ok w0) by (unfold pending_ok, disk_db; cbn; reflexivity).
  assert (Hd0 : disk_db w0 = disk_db w) by reflexivity.
  assert (Hf0 : faiss_file w0 = faiss_file w) by reflexivity.
  assert (Hgen : ∀ (m : M Stats),
            (∀ r1 w1, m w0 = (r1, w1) →
               disk_grows w0 w1 ∧ (∀ e, r1 = Raise e → faiss_file w1 = faiss_file w0)) →
            m w0 = (r, w') →
            chunks (disk_db w) `prefix_of` chunks (disk_db w')
            ∧ faiss_map (disk_db w) `prefix_of` faiss_map (disk_db w')
            ∧ (∀ e, r = Raise e → faiss_file w' = faiss_file w)).
  { intros m Hm Hrun. destruct (Hm _ _ Hrun) as [[Hc Hfm] Hidx].
    rewrite Hd0 in Hc, Hfm. rewrite Hf0 in Hidx. by split_and!. }
  apply Hgen. clear Hgen. intros r1 w1. unfold bind at 1.
  unfold bind at 1, pick_embedder.
  destruct (str_eqb _ _); [| unfold raise; intros [= <- <-]; by split].
  cbn [ret]. unfold bind at 1, collect.
  destruct (foldl _ _ _) as [[to_add skipped] total].
  destruct to_add as [|c0 cs].
  - unfold bind, close, ret. intros [= <- <-]. split; [| done].
    unfold disk_grows, disk_db. cbn. reflexivity.
  - unfold bind at 1, batches_of.
    assert (Hloop : ∀ bl r2 w2,
              (r0 <- for_each ingest_batch (faiss_file w0, 0, 0) bl ;;
               let '(faiss_index, n_added, n_rows) := r0 in
               save faiss_index ;; close ;;
               ret {| total_chunks_in_file := total; skipped_existing := skipped;
                      added := n_added; inserted_rows := Some n_rows |}) w0 = (r2, w2) →
              disk_grows w0 w2 ∧ (∀ e, r2 = Raise e → faiss_file w2 = faiss_file w0)).
    { intros bl r2 w2. unfold bind at 1.
      destruct (for_each ingest_batch _ bl w0) as [[[[fio a] n]|e] wl] eqn:Hl;
        destruct (batches_pending _ _ _ _ _ H0 Hl) as [HIl [Hgl Hil]].
      - intros Htail. destruct (ingest_tail _ _ _ _ _ HIl Htail) as [Hg Hi].
        split; [by etrans |]. intros e He. rewrite (Hi e He). exact Hil.
      - intros [= <- <-]. split; [done |]. intros _ _. exact Hil. }
    destruct (bs =? 0); [unfold raise; intros [= <- <-]; by split |].
    destruct (bs <? 0); cbn [ret]; apply Hloop.
Qed.
End WriteProps.

(** ** Edge cases of ingestion *)

Section EdgeProps.
Context `{External}.
Hypothesis uuid4_inj : ∀ i j : nat, uuid4 i = uuid4 j → i = j.

(** The first loop, whatever the store holds. *)
Lemma collect_spec (db : DB) (cs ta : list ChunkObj) (sk tot : Z) :
  foldl (collect_step db) (ta, sk, tot) cs
  = (ta ++ List.filter (is_new db) cs,
     sk + Z.of_nat (length (List.filter (is_known db) cs)),
     tot + Z.of_nat (length cs)).
Proof.
  revert ta sk tot. induction cs as [|ch cs IH]; intros ta sk tot.
  - cbn. rewrite app_nil_r. tuple_eq.
  - cbn [foldl List.filter]. unfold collect_step at 2, is_new at 1, is_known at 1, nonblank.
    destruct (precheck_text ch) as [|c0 t0] eqn:Ht.
    + rewrite bool_decide_eq_true_2 by done. cbn [negb andb].
      rewrite IH. cbn [length]. tuple_eq.
    + rewrite bool_decide_eq_false_2 by done. cbn [negb andb].
      destruct (has_sha1 db (precheck_sha1 ch)); cbn [negb].
      * rewrite IH. cbn [length]. tuple_eq.
      * rewrite IH. rewrite <- app_assoc. cbn [app length]. tuple_eq.
Qed.

(** [ingest] up to the test of [to_add], for a provider kind that
    [pick_embedder] knows. *)
Lemma ingest_collect_spec (chunks_jsonl : list ChunkObj) (kind : str) (bs : Z) (w : World) :
  lower kind = lit "openai" →
  ingest chunks_jsonl kind bs w
  = (let w0 := set_conn (disk_db w) (set_sqlite_file (Some (disk_db w)) w) in
     let to_add := List.filter (is_new (disk_db w)) chunks_jsonl in
     let skipped := Z.of_nat (length (List.filter (is_known (disk_db w)) chunks_jsonl)) in
     let total := Z.of_nat (length chunks_jsonl) in
     match to_add with
     | [] =>
         (Ok {| total_chunks_in_file := total; skipped_existing := skipped;
                added := 0; inserted_rows := None |}, w0)
     | _ =>
         (batches <- batches_of to_add bs ;;
          r <- for_each ingest_batch (faiss_file w, 0, 0) batches ;;
          let '(faiss_index, n_added, n_rows) := r in
          save faiss_index ;;
          close ;;
          ret {| total_chunks_in_file := total; skipped_existing := skipped;
                 added := n_added; inserted_rows := Some n_rows |}) w0
     end).
Proof.
  intros Hk. rewrite ingest_collect by done. cbn zeta.
  rewrite collect_spec. cbn [app]. rewrite !Z.add_0_l.
  by destruct (List.filter (is_new (disk_db w)) chunks_jsonl).
Qed.

Lemma ingest_returns_kind (chunks_jsonl : list ChunkObj) (kind : str) (bs : Z)
    (w w' : World) (st : Stats) :
  ingest chunks_jsonl kind bs w = (Ok st, w') → lower kind = lit "openai".
Proof.
  intros Hrun. destruct (decide (lower kind = lit "openai")) as [Hk | Hk]; [done |].
  exfalso. revert Hrun.
  unfold ingest. erewrite bind_ok by (unfold MetaStore_init; reflexivity).
  erewrite bind_ok by reflexivity.
  erewrite bind_raise; [discriminate |].
  unfold pick_embedder, str_eqb. rewrite bool_decide_eq_false_2 by done. reflexivity.
Qed.

(** X6.  A provider kind that [pick_embedder] does not know: [ingest]
    raises [ValueError] before it reads a chunk.  By then the metadata file
    has been created if it was missing, with the tables it had; the index
    file, the uuids and the provider are not touched. *)
Theorem ingest_unknown_embedder (chunks_jsonl : list ChunkObj) (kind : str)
    (bs : Z) (w : World) :
  lower kind ≠ lit "openai" →
  ∃ w',
    ingest chunks_jsonl kind bs w = (Raise ValueError, w')
    ∧ sqlite_file w' = Some (disk_db w)
    ∧ faiss_file w' = faiss_file w
    ∧ uuid_drawn w' = uuid_drawn w
    ∧ embed_called w' = embed_called w.
Proof.
  intros Hk. eexists. split.
  - unfold ingest. erewrite bind_ok by (unfold MetaStore_init; reflexivity).
    erewrite bind_ok by reflexivity.
    erewrite bind_raise; [reflexivity |].
    unfold pick_embedder, str_eqb. rewrite bool_decide_eq_false_2 by done. reflexivity.
  - by cbn.
Qed.

(** X7.  A batch size that is not positive, with something new to add: no
    batch runs, nothing is inserted, no uuid is drawn and the provider is
    not asked.  With 0 the run raises [ValueError] (the step of [range]);
    with a negative size it raises [AttributeError] when there is no index
    file to save, and otherwise returns [added = 0] though new chunks were
    found. *)
Theorem ingest_batch_size_not_positive (chunks_jsonl : list ChunkObj) (kind : str)
    (bs : Z) (w : World) :
  lower kind = lit "openai" →
  List.filter (is_new (disk_db w)) chunks_jsonl ≠ [] →
  bs ≤ 0 →
  ∃ r w',
    ingest chunks_jsonl kind bs w = (r, w')
    ∧ disk_db w' = disk_db w ∧ faiss_file w' = faiss_file w
    ∧ uuid_drawn w' = uuid_drawn w ∧ embed_called w' = embed_called w
    ∧ (bs = 0 → r = Raise ValueError)
    ∧ (bs < 0 → faiss_file w = None → r = Raise AttributeError)
    ∧ (bs < 0 → is_Some (faiss_file w) →
       ∃ st, r = Ok st ∧ added st = 0 ∧ inserted_rows st = Some 0
             ∧ total_chunks_in_file st = Z.of_nat (length chunks_jsonl)).
Proof.
  intros Hk Hnew Hbs. rewrite ingest_collect_spec by done. cbn zeta.
  destruct (List.filter (is_new (disk_db w)) chunks_jsonl) as [|c0 cs] eqn:Hf; [done |].
  unfold bind at 1, batches_of.
  destruct (bs =? 0) eqn:H0.
  - apply Z.eqb_eq in H0. do 2 eexists. split; [reflexivity |].
    split_and!; try done; intros; lia.
  - apply Z.eqb_neq in H0. destruct (bs <? 0) eqn:H1; [| lia].
    cbn [ret for_each]. unfold bind at 1. cbn [ret].
    destruct (faiss_file w) as [fi|] eqn:Hfi.
    + do 2 eexists. split; [reflexivity |]. cbn.
      split_and!; try done; try (intros; lia).
      intros _ _. by eexists.
    + do 2 eexists. split; [reflexivity |]. cbn.
      split_and!; try done; try (intros; lia); by intros _ [? ?].
Qed.

Lemma slices_cons {A : Type} (n : nat) (x : A) (l : list A) :
  slices (length (x :: l)) n (x :: l)
  = take n (x :: l) :: slices (length l) n (drop n (x :: l)).
Proof. reflexivity. Qed.

(** X8.  A provider whose first answer is not one row per text (another
    rank, or another number of rows): [ingest] raises [RuntimeError] at the
    shape test of the first batch, before any row is inserted: the tables
    and the index file are as before and no uuid is drawn. *)
Theorem ingest_bad_shape (chunks_jsonl : list ChunkObj) (kind : str) (bs : Z) (w : World) :
  lower kind = lit "openai" → 0 < bs →
  List.filter (is_new (disk_db w)) chunks_jsonl ≠ [] →
  bad_shape (embed_called w) →
  ∃ w',
    ingest chunks_jsonl kind bs w = (Raise RuntimeError, w')
    ∧ disk_db w' = disk_db w ∧ conn w' = disk_db w
    ∧ faiss_file w' = faiss_file w
    ∧ uuid_drawn w' = uuid_drawn w.
Proof.
  intros Hk Hbs Hnew Hbad. rewrite ingest_collect_spec by done. cbn zeta.
  destruct (List.filter (is_new (disk_db w)) chunks_jsonl) as [|c0 cs] eqn:Hf; [done |].
  erewrite bind_ok by (by apply batches_of_pos).
  rewrite slices_cons. cbn [for_each].
  set (w0 := set_conn (disk_db w) (set_sqlite_file (Some (disk_db w)) w)).
  set (batch := take (Z.to_nat bs) (c0 :: cs)).
  assert (Hb : ∃ w1, ingest_batch (faiss_file w, 0, 0) batch w0 = (Raise RuntimeError, w1)
                     ∧ w1 = set_embed_called (S (embed_called w0)) w0).
  { eexists. split; [| reflexivity]. unfold ingest_batch.
    destruct (Hbad (map (fun b => or_str (j_text b) []) batch))
      as [Hnm | (d & rows & Hm & Hlen)].
    - erewrite bind_ok; last first.
      { unfold embedder_embed_texts. cbn [embed_called w0 set_conn set_sqlite_file].
        rewrite Hnm. reflexivity. }
      reflexivity.
    - erewrite bind_ok; last first.
      { unfold embedder_embed_texts. cbn [embed_called w0 set_conn set_sqlite_file].
        rewrite Hm. reflexivity. }
      apply Nat.eqb_neq in Hlen. cbn beta iota. rewrite Hlen. reflexivity. }
  destruct Hb as (w1 & Hb & ->). eexists. split.
  - erewrite bind_raise; [reflexivity |]. erewrite bind_raise; [reflexivity |]. exact Hb.
  - by cbn.
Qed.
Lemma elem_of_take_in {A : Type} (x : A) (n : nat) (l : list A) :
  x ∈ take n l → x ∈ l.
Proof.
  intros Hx. rewrite <- (take_drop n l). apply elem_of_app. by left.
Qed.

Lemma NoDup_map_take {A B : Type} (f : A → B) (n : nat) (l : list A) :
  NoDup (map f l) → NoDup (map f (take n l)).
Proof.
  intros Hnd. rewrite <- (take_drop n l) in Hnd.
  by apply NoDup_map_app in Hnd as (? & _ & _).
Qed.

(** A batch of new chunks, up to the call of [add]. *)
Lemma ingest_batch_upto_add (d : nat) (fio : option FaissIndex) (a r : Z)
    (batch : list ChunkObj) (w : World) :
  answers d (embed_called w) →
  Forall storable batch →
  ids_drawn (conn w) (uuid_drawn w) →
  NoDup (map stored_sha1 batch) →
  (∀ b, b ∈ batch → has_sha1 (conn w) (stored_sha1 b) = false) →
  ∃ rows,
    length rows = length batch
    ∧ ingest_batch (fio, a, r) batch w
      = (r0 <- lift (add (ensure_faiss fio d) (Matrix d rows)) ;;
         let '(ids, fi') := r0 in
         insert_faiss_map ids (map chunk_id (rows_from (uuid_drawn w) batch)) ;;
         commit ;;
         ret (Some fi', a + Z.of_nat (length ids),
              r + Z.of_nat (length (rows_from (uuid_drawn w) batch))))
          {| faiss_file := faiss_file w; sqlite_file := sqlite_file w;
             conn := {| chunks := chunks (conn w) ++ rows_from (uuid_drawn w) batch;
                        faiss_map := faiss_map (conn w) |};
             uuid_drawn := uuid_drawn w + length batch;
             embed_called := S (embed_called w) |}.
Proof.
  intros Hans Hst Hids Hnd Hnew.
  destruct (Hans (map (fun b => or_str (j_text b) []) batch)) as (rows & Hemb & Hlen).
  rewrite length_map in Hlen. exists rows. split; [done |].
  unfold ingest_batch. erewrite bind_ok; last first.
  { unfold embedder_embed_texts. rewrite Hemb. reflexivity. }
  cbn beta iota. rewrite length_map, Hlen, Nat.eqb_refl. cbn [negb].
  erewrite bind_ok; last first.
  { apply insert_rows_ok; done. }
  cbn [app]. reflexivity.
Qed.

(** [ingest] of chunks that are all new, up to the first batch. *)
Lemma ingest_first_batch (c0 : ChunkObj) (cs : list ChunkObj) (kind : str)
    (bs : Z) (w : World) :
  lower kind = lit "openai" → 0 < bs →
  Forall clean (c0 :: cs) →
  (∀ ch, ch ∈ c0 :: cs → has_sha1 (disk_db w) (stored_sha1 ch) = false) →
  ∀ e w1,
    ingest_batch (faiss_file w, 0, 0) (take (Z.to_nat bs) (c0 :: cs))
                 (set_conn (disk_db w) (set_sqlite_file (Some (disk_db w)) w))
    = (Raise e, w1) →
    ingest (c0 :: cs) kind bs w = (Raise e, w1).
Proof.
  intros Hk Hbs Hclean Hnew e w1 Hb.
  rewrite ingest_collect by done. cbn zeta.
  rewrite collect_new by (by apply clean_all_new). cbn [app].
  erewrite bind_ok by (by apply batches_of_pos).
  rewrite slices_cons. cbn [for_each].
  erewrite bind_raise; [reflexivity |]. erewrite bind_raise; [reflexivity |]. exact Hb.
Qed.

(** X9.  An index file of another dimension than the provider's answers
    (the model was changed), and new chunks whose page numbers SQLite can
    store: the first batch inserts its rows, [add]
    refuses the vectors with [AssertionError], and the run ends there; the
    rows were pending, so the tables on disk and the index file are as
    before. *)
Theorem ingest_dimension_mismatch (d : nat) (fi : FaissIndex)
    (chunks_jsonl : list ChunkObj) (kind : str) (bs : Z) (w : World) :
  lower kind = lit "openai" → 0 < bs →
  faiss_file w = Some fi → dim fi ≠ d →
  answers d (embed_called w) →
  ids_drawn (disk_db w) (uuid_drawn w) →
  chunks_jsonl ≠ [] → Forall clean chunks_jsonl →
  Forall storable chunks_jsonl →
  NoDup (map stored_sha1 chunks_jsonl) →
  (∀ ch, ch ∈ chunks_jsonl → has_sha1 (disk_db w) (stored_sha1 ch) = false) →
  ∃ w',
    ingest chunks_jsonl kind bs w = (Raise AssertionError, w')
    ∧ disk_db w' = disk_db w
    ∧ faiss_file w' = Some fi.
Proof.
  intros Hk Hbs Hfi Hdim Hans Hids Hne Hclean Hst Hnd Hnew.
  destruct chunks_jsonl as [|c0 cs]; [done |].
  set (w0 := set_conn (disk_db w) (set_sqlite_file (Some (disk_db w)) w)).
  set (batch := take (Z.to_nat bs) (c0 :: cs)).
  destruct (ingest_batch_upto_add d (faiss_file w) 0 0 batch w0)
    as (rows & Hlen & Hb); try done.
  { by apply Forall_take. }
  { by apply NoDup_map_take. }
  { intros b Hb. apply Hnew. by eapply elem_of_take_in. }
  eexists. split.
  - apply ingest_first_batch; try done. fold w0 batch. rewrite Hb.
    erewrite bind_raise; [reflexivity |].
    unfold lift, add. rewrite Hfi. cbn [ensure_faiss].
    assert (Hneq : Nat.eqb d (dim fi) = false) by (apply Nat.eqb_neq; congruence).
    rewrite Hneq. reflexivity.
  - cbn. by rewrite Hfi.
Qed.

(** X10.  A directory in which the next position of the index is already
    mapped (what a run leaves that failed after a commit and before the
    index was saved): a run with new chunks, whose page numbers SQLite can
    store, and a provider that answers ends in the [IntegrityError] of the primary key of [faiss_map], at the
    first batch; nothing is committed and the index file is not written. *)
Theorem ingest_position_taken (d : nat) (chunks_jsonl : list ChunkObj) (kind : str)
    (bs : Z) (w : World) :
  lower kind = lit "openai" → 0 < bs →
  has_faiss_id (disk_db w) (disk_ntotal w) = true →
  disk_ntotal w < 2 ^ 63 →
  (∀ fi, faiss_file w = Some fi → dim fi = d) →
  answers d (embed_called w) →
  ids_drawn (disk_db w) (uuid_drawn w) →
  chunks_jsonl ≠ [] → Forall clean chunks_jsonl →
  Forall storable chunks_jsonl →
  NoDup (map stored_sha1 chunks_jsonl) →
  (∀ ch, ch ∈ chunks_jsonl → has_sha1 (disk_db w) (stored_sha1 ch) = false) →
  ∃ w',
    ingest chunks_jsonl kind bs w = (Raise IntegrityError, w')
    ∧ disk_db w' = disk_db w
    ∧ faiss_file w' = faiss_file w.
Proof.
  intros Hk Hbs Htaken Hint Hdim Hans Hids Hne Hclean Hst Hnd Hnew.
  destruct chunks_jsonl as [|c0 cs]; [done |].
  set (w0 := set_conn (disk_db w) (set_sqlite_file (Some (disk_db w)) w)).
  set (batch := take (Z.to_nat bs) (c0 :: cs)).
  assert (Hbatch : ∃ b0 bt, batch = b0 :: bt).
  { subst batch. destruct (Z.to_nat bs) as [|n] eqn:Hn; [lia |]. by eexists _, _. }
  destruct Hbatch as (b0 & bt & Hbatch).
  destruct (ingest_batch_upto_add d (faiss_file w) 0 0 batch w0)
    as (rows & Hlen & Hb); try done.
  { by apply Forall_take. }
  { by apply NoDup_map_take. }
  { intros b Hb. apply Hnew. by eapply elem_of_take_in. }
  assert (Hsi : sqlite_int (disk_ntotal w) = true).
  { pose proof (ntotal_opt_nonneg (faiss_file w)) as Hnn. unfold disk_ntotal in *.
    unfold sqlite_int. apply andb_true_iff.
    split; [apply Z.leb_le | apply Z.ltb_lt]; lia. }
  assert (Hfd : dim (ensure_faiss (faiss_file w) d) = d).
  { destruct (faiss_file w) as [fi|] eqn:Hfi; cbn; [by apply Hdim | done]. }
  assert (Hnt : ntotal (ensure_faiss (faiss_file w) d) = disk_ntotal w).
  { unfold disk_ntotal. by destruct (faiss_file w). }
  eexists. split.
  - apply ingest_first_batch; try done. fold w0 batch. rewrite Hb.
    erewrite bind_ok; last first.
    { unfold lift, add. rewrite Hfd, Nat.eqb_refl. reflexivity. }
    cbn beta iota. erewrite bind_raise; [reflexivity |].
    unfold insert_faiss_map. unfold l2_normalize. rewrite length_map, Hlen, Hnt, Hbatch.
    rewrite range_cons by (cbn [length]; lia).
    cbn [rows_from map combine for_each].
    erewrite bind_raise; [reflexivity |].
    unfold insert_faiss_row. cbn [fst conn w0 set_conn]. rewrite Hsi. cbn [negb].
    change (has_faiss_id {| chunks := _; faiss_map := faiss_map (disk_db w) |} (disk_ntotal w))
      with (has_faiss_id (disk_db w) (disk_ntotal w)).
    rewrite Htaken. reflexivity.
  - by cbn.
Qed.

Lemma insert_rows_length (batch : list ChunkObj) :
  ∀ (acc rows : list ChunkRow) (w w' : World),
    for_each (fun rows b => row <- insert_chunk_of b ;; ret (rows ++ [row])) acc batch w
    = (Ok rows, w') →
    length rows = (length acc + length batch)%nat.
Proof.
  induction batch as [|b batch IH]; intros acc rows w w'.
  - cbn. unfold ret. intros [= <- <-]. lia.
  - cbn [for_each]. unfold bind at 1 2.
    destruct (insert_chunk_of b w) as [[row|e] w1]; [| discriminate].
    cbn [ret]. intros Hrest. apply IH in Hrest. rewrite length_app in Hrest.
    cbn [length] in *. lia.
Qed.

(** A batch that goes through counts each of its chunks once. *)
Lemma ingest_batch_counts (fio fio' : option FaissIndex) (a r a' r' : Z)
    (batch : list ChunkObj) (w w' : World) :
  ingest_batch (fio, a, r) batch w = (Ok (fio', a', r'), w') →
  a' = a + Z.of_nat (length batch) ∧ r' = r + Z.of_nat (length batch).
Proof.
  unfold ingest_batch. unfold bind at 1.
  destruct (embedder_embed_texts _ w) as [[vecs|e1] w1]; [| discriminate].
  destruct vecs as [d rows|]; [| discriminate].
  destruct (negb _) eqn:Hshape; [discriminate |].
  apply negb_false_iff, Nat.eqb_eq in Hshape. rewrite length_map in Hshape.
  unfold bind at 1.
  destruct (for_each _ [] batch w1) as [[new_rows|e2] w2] eqn:H2; [| discriminate].
  apply insert_rows_length in H2. cbn [length] in H2.
  unfold bind at 1, lift, add.
  destruct (Nat.eqb d _); [| discriminate].
  unfold bind at 1.
  destruct (insert_faiss_map _ _ w2) as [[[]|e4] w3]; [| discriminate].
  unfold bind, commit, ret. intros [= <- <- <- <-].
  rewrite range_length. unfold l2_normalize. rewrite length_map. lia.
Qed.

Lemma batches_counts (bl : list (list ChunkObj)) :
  ∀ (fio fio' : option FaissIndex) (a r a' r' : Z) (w w' : World),
    for_each ingest_batch (fio, a, r) bl w = (Ok (fio', a', r'), w') →
    a' = a + Z.of_nat (length (concat bl)) ∧ r' = r + Z.of_nat (length (concat bl)).
Proof.
  induction bl as [|b bl IH]; intros fio fio' a r a' r' w w'.
  - cbn. unfold ret. intros [= <- <- <- <-]. lia.
  - cbn [for_each concat]. unfold bind at 1.
    destruct (ingest_batch (fio, a, r) b w) as [[[[fio1 a1] r1]|e] w1] eqn:Hb;
      [| discriminate].
    apply ingest_batch_counts in Hb as [-> ->]. intros Hrest.
    apply IH in Hrest as [-> ->]. rewrite length_app. lia.
Qed.

Lemma filter_three_way (db : DB) (cs : list ChunkObj) :
  (length (List.filter (fun ch => negb (nonblank ch)) cs)
   + length (List.filter (is_known db) cs)
   + length (List.filter (is_new db) cs) = length cs)%nat.
Proof.
  induction cs as [|ch cs IH]; [done |]. cbn [List.filter length].
  unfold is_known at 1, is_new at 1.
  destruct (nonblank ch); cbn [negb andb]; [| cbn [length]; lia].
  destruct (has_sha1 db (precheck_sha1 ch)); cbn [negb length]; lia.
Qed.

(** X11.  The counts of a run that returns, with a positive batch size:
    [total_chunks_in_file] is the number of chunks of the file,
    [skipped_existing] the number of those that are not blank and whose
    hash is stored, [added] the number of those that are not blank and
    whose hash is not stored; with the blank ones, which are counted
    nowhere else, they add up to the total. *)
Theorem ingest_counts (chunks_jsonl : list ChunkObj) (kind : str) (bs : Z)
    (w w' : World) (st : Stats) :
  0 < bs →
  ingest chunks_jsonl kind bs w = (Ok st, w') →
  total_chunks_in_file st = Z.of_nat (length chunks_jsonl)
  ∧ skipped_existing st
    = Z.of_nat (length (List.filter (is_known (disk_db w)) chunks_jsonl))
  ∧ added st = Z.of_nat (length (List.filter (is_new (disk_db w)) chunks_jsonl))
  ∧ Z.of_nat (length (List.filter (fun ch => negb (nonblank ch)) chunks_jsonl))
    + skipped_existing st + added st
    = total_chunks_in_file st.
Proof.
  intros Hbs Hrun.
  pose proof (ingest_returns_kind _ _ _ _ _ _ Hrun) as Hk.
  pose proof (filter_three_way (disk_db w) chunks_jsonl) as H3.
  rewrite ingest_collect_spec in Hrun by done. cbn zeta in Hrun.
  destruct (List.filter (is_new (disk_db w)) chunks_jsonl) as [|c0 cs] eqn:Hf.
  - inversion Hrun; subst. cbn. cbn [length] in H3. split_and!; try done. lia.
  - erewrite bind_ok in Hrun by (by apply batches_of_pos).
    unfold bind at 1 in Hrun.
    destruct (for_each ingest_batch _ _ _) as [[[[fio' a'] r']|e] w1] eqn:Hl;
      [| discriminate].
    apply batches_counts in Hl as [-> ->].
    rewrite slices_concat in Hrun by lia.
    unfold bind, save in Hrun. destruct fio' as [fi|]; [| discriminate].
    cbn in Hrun. inversion Hrun; subst. cbn [total_chunks_in_file skipped_existing added].
    cbn [length] in H3. split_and!; try done. lia.
Qed.
End EdgeProps.

Lemma ingest_batch_failure_writes_nothing_witness :
  let batch := [text_chunk "c"; text_chunk "c"] in
  let w' := snd (@ingest_batch healthy (None, 0, 0) batch sample_world) in
  @ingest_batch healthy (None, 0, 0) batch sample_world = (Raise IntegrityError, w')
  ∧ sqlite_file w' = sqlite_file sample_world
  ∧ faiss_file w' = faiss_file sample_world.
Proof.
  intros batch w'.
  assert (Hrun : @ingest_batch healthy (None, 0, 0) batch sample_world
                 = (Raise IntegrityError, w')) by (vm_compute; reflexivity).
  split; [exact Hrun |].
  exact (@ingest_batch_failure_writes_nothing healthy (None, 0, 0) batch sample_world w'
           IntegrityError Hrun).
Defined.

Lemma ingest_only_appends_witness :
  let w' := snd (@ingest late [text_chunk "c"; text_chunk "d"] (lit "openai") 1
                         full_dir) in
  @ingest late [text_chunk "c"; text_chunk "d"] (lit "openai") 1 full_dir
  = (Raise EmbeddingProviderError, w')
  ∧ chunks (disk_db full_dir) `prefix_of` chunks (disk_db w')
  ∧ faiss_map (disk_db full_dir) `prefix_of` faiss_map (disk_db w')
  ∧ (∀ e, Raise (A := Stats) EmbeddingProviderError = Raise e →
          faiss_file w' = faiss_file full_dir).
Proof.
  intros w'.
  assert (Hrun : @ingest late [text_chunk "c"; text_chunk "d"] (lit "openai") 1
                         full_dir
                 = (Raise EmbeddingProviderError, w')) by (vm_compute; reflexivity).
  split; [exact Hrun |].
  exact (@ingest_only_appends late _ _ _ full_dir w' _ Hrun).
Defined.

Lemma ingest_unknown_embedder_witness :
  lower (lit "local") ≠ lit "openai"
  ∧ ∃ w',
      @ingest healthy chunks_ab (lit "local") 64 empty_dir = (Raise ValueError, w')
      ∧ sqlite_file w' = Some (disk_db empty_dir)
      ∧ faiss_file w' = faiss_file empty_dir
      ∧ uuid_drawn w' = uuid_drawn empty_dir
      ∧ embed_called w' = embed_called empty_dir.
Proof.
  assert (Hk : lower (lit "local") ≠ lit "openai") by (vm_compute; discriminate).
  split; [exact Hk |].
  exact (@ingest_unknown_embedder healthy chunks_ab (lit "local") 64 empty_dir Hk).
Defined.

Lemma ingest_batch_size_not_positive_witness :
  (List.filter (@is_new healthy (disk_db empty_dir)) chunks_ab ≠ [] ∧ 0 ≤ 0)
  ∧ ∃ r w',
      @ingest healthy chunks_ab (lit "openai") 0 empty_dir = (r, w')
      ∧ disk_db w' = disk_db empty_dir ∧ faiss_file w' = faiss_file empty_dir
      ∧ uuid_drawn w' = uuid_drawn empty_dir
      ∧ embed_called w' = embed_called empty_dir
      ∧ (0 = 0 → r = Raise ValueError)
      ∧ (0 < 0 → faiss_file empty_dir = None → r = Raise AttributeError)
      ∧ (0 < 0 → is_Some (faiss_file empty_dir) →
         ∃ st, r = Ok st ∧ added st = 0 ∧ inserted_rows st = Some 0
               ∧ total_chunks_in_file st = Z.of_nat (length chunks_ab)).
Proof.
  assert (Hnew : List.filter (@is_new healthy (disk_db empty_dir)) chunks_ab ≠ [])
    by (vm_compute; discriminate).
  split; [split; [exact Hnew | lia] |].
  apply (@ingest_batch_size_not_positive healthy chunks_ab (lit "openai") 0 empty_dir).
  - reflexivity.
  - exact Hnew.
  - lia.
Defined.

Lemma long_provider_bad_shape (n : nat) : @bad_shape long_provider n.
Proof.
  intros texts. right. eexists _, _. split; [reflexivity |].
  cbn [length]. rewrite length_map. lia.
Qed.

Lemma ingest_bad_shape_witness :
  (List.filter (@is_new long_provider (disk_db empty_dir)) chunks_ab ≠ []
   ∧ @bad_shape long_provider (embed_called empty_dir))
  ∧ ∃ w',
      @ingest long_provider chunks_ab (lit "openai") 64 empty_dir
      = (Raise RuntimeError, w')
      ∧ disk_db w' = disk_db empty_dir ∧ conn w' = disk_db empty_dir
      ∧ faiss_file w' = faiss_file empty_dir
      ∧ uuid_drawn w' = uuid_drawn empty_dir.
Proof.
  assert (Hnew : List.filter (@is_new long_provider (disk_db empty_dir)) chunks_ab ≠ [])
    by (vm_compute; discriminate).
  split; [split; [exact Hnew | apply long_provider_bad_shape] |].
  apply (@ingest_bad_shape long_provider chunks_ab (lit "openai") 64 empty_dir).
  - reflexivity.
  - lia.
  - exact Hnew.
  - apply long_provider_bad_shape.
Defined.

Lemma chunks_ab_clean : Forall clean chunks_ab.
Proof. repeat constructor; by apply text_chunk_clean. Qed.

Lemma chunks_ab_NoDup : NoDup (map (@stored_sha1 healthy) chunks_ab).
Proof. apply (bool_decide_unpack _). by vm_compute. Qed.

Lemma chunks_ab_storable : Forall storable chunks_ab.
Proof. repeat constructor; apply text_chunk_storable. Qed.

Lemma ingest_dimension_mismatch_witness :
  (faiss_file other_dim_dir = Some (FaissIndex_new 2)
   ∧ dim (FaissIndex_new 2) ≠ 1%nat
   ∧ Forall clean chunks_ab
   ∧ Forall storable chunks_ab)
  ∧ ∃ w',
      @ingest healthy chunks_ab (lit "openai") 64 other_dim_dir
      = (Raise AssertionError, w')
      ∧ disk_db w' = disk_db other_dim_dir
      ∧ faiss_file w' = Some (FaissIndex_new 2).
Proof.
  split; [split_and!; [reflexivity | cbn; lia | apply chunks_ab_clean
                      | apply chunks_ab_storable] |].
  apply (@ingest_dimension_mismatch healthy sample_uuid4_inj 1 (FaissIndex_new 2)
           chunks_ab (lit "openai") 64 other_dim_dir).
  - reflexivity.
  - lia.
  - reflexivity.
  - cbn. lia.
  - apply healthy_answers.
  - intros r Hr. cbn in Hr. by apply elem_of_nil in Hr.
  - done.
  - apply chunks_ab_clean.
  - apply chunks_ab_storable.
  - apply chunks_ab_NoDup.
  - intros ch _. reflexivity.
Defined.

Lemma torn_dir_ids_drawn : @ids_drawn healthy (disk_db torn_dir) (uuid_drawn torn_dir).
Proof.
  assert (Hc : chunks (disk_db torn_dir) = @rows_from healthy 0 (take 1 chunks_ab))
    by (vm_compute; reflexivity).
  assert (Hu : uuid_drawn torn_dir = 1%nat) by (vm_compute; reflexivity).
  intros r Hr. rewrite Hc in Hr. rewrite Hu. cbn in Hr.
  apply list_elem_of_singleton in Hr as ->. exists 0%nat. split; [lia | reflexivity].
Qed.

Lemma ingest_position_taken_witness :
  (has_faiss_id (disk_db torn_dir) (disk_ntotal torn_dir) = true
   ∧ disk_ntotal torn_dir < 2 ^ 63
   ∧ Forall clean [text_chunk "c"]
   ∧ Forall storable [text_chunk "c"])
  ∧ ∃ w',
      @ingest healthy [text_chunk "c"] (lit "openai") 64 torn_dir
      = (Raise IntegrityError, w')
      ∧ disk_db w' = disk_db torn_dir
      ∧ faiss_file w' = faiss_file torn_dir.
Proof.
  assert (Hclean : Forall clean [text_chunk "c"]).
  { repeat constructor; by apply text_chunk_clean. }
  assert (Htaken : has_faiss_id (disk_db torn_dir) (disk_ntotal torn_dir) = true)
    by (vm_compute; reflexivity).
  assert (Hint : disk_ntotal torn_dir < 2 ^ 63) by (vm_compute; reflexivity).
  assert (Hst : Forall storable [text_chunk "c"]).
  { repeat constructor; apply text_chunk_storable. }
  split; [by split_and! |].
  apply (@ingest_position_taken healthy sample_uuid4_inj 1 [text_chunk "c"]
           (lit "openai") 64 torn_dir).
  - reflexivity.
  - lia.
  - exact Htaken.
  - exact Hint.
  - intros fi Hfi. vm_compute in Hfi. discriminate.
  - apply healthy_answers.
  - apply torn_dir_ids_drawn.
  - done.
  - exact Hclean.
  - exact Hst.
  - apply (bool_decide_unpack _). by vm_compute.
  - intros ch Hch. apply list_elem_of_singleton in Hch as ->. vm_compute. reflexivity.
Defined.

Lemma ingest_counts_witness :
  let run := @ingest healthy [text_chunk " "; text_chunk "a"; text_chunk "c";
                              text_chunk "b"]
                     (lit "openai") 64 full_dir in
  let st := {| total_chunks_in_file := 4; skipped_existing := 2; added := 1;
               inserted_rows := Some 1 |} in
  (0 < 64 ∧ run = (Ok st, snd run))
  ∧ total_chunks_in_file st = 4
  ∧ skipped_existing st = 2
  ∧ added st = 1
  ∧ 1 + skipped_existing st + added st = total_chunks_in_file st.
Proof.
  intros run st.
  assert (Hrun : run = (Ok st, snd run)) by (vm_compute; reflexivity).
  assert (Hbs : 0 < 64) by lia.
  split; [split; [exact Hbs | exact Hrun] |].
  exact (@ingest_counts healthy _ _ _ full_dir (snd run) st Hbs Hrun).
Defined.

(** ** The index *)

Lemma SFdiv_zero_entry (v y : float32) :
  is_zero v = true → is_zero y = false → is_nan y = false →
  is_zero (SFdiv prec32 emax32 v y) = true.
Proof. destruct v; try discriminate. intros _. by destruct y. Qed.

Section IndexProps2.
Context `{External}.

(** X12.  [l2_normalize] keeps the shape of its argument, and what is zero
    stays zero: in a row whose norm is not a NaN, and so in a row of
    zeros, every zero entry is a zero of the result and not the NaN that a
    division by the norm alone would give. *)
Theorem l2_normalize_keeps_zeros (x : list vec) :
  Forall (fun row => is_nan (linalg_norm row) = false) x →
  Forall2 (Forall2 (fun v v' => is_zero v = true → is_zero v' = true))
          x (l2_normalize x eps_default).
Proof.
  intros Hx. unfold l2_normalize. apply Forall2_fmap_r, Forall_Forall2_diag.
  eapply Forall_impl; [exact Hx |]. intros row Hrow. cbn beta.
  apply Forall2_fmap_r, Forall_Forall2_diag, Forall_forall. intros v _ Hv.
  apply SFdiv_zero_entry; [done | |].
  - apply np_maximum_eps_not_zero.
  - unfold divisor. by rewrite np_maximum_nan.
Qed.

(** X13.  Adding in two calls is adding in one: when [add] takes [rows1]
    and then [rows2], it takes [rows1 ++ rows2] with the same positions and
    the same index; and the positions given out are the ones from the old
    [ntotal] up to the new one. *)
Theorem add_add (fi fi1 fi2 : FaissIndex) (d : nat) (rows1 rows2 : list vec)
    (ids1 ids2 : list Z) :
  add fi (Matrix d rows1) = Ok (ids1, fi1) →
  add fi1 (Matrix d rows2) = Ok (ids2, fi2) →
  add fi (Matrix d (rows1 ++ rows2)) = Ok (ids1 ++ ids2, fi2)
  ∧ ids1 ++ ids2 = range (ntotal fi) (ntotal fi2)
  ∧ ntotal fi2 = ntotal fi + Z.of_nat (length rows1 + length rows2).
Proof.
  unfold add. destruct (Nat.eqb d (dim fi)) eqn:Hd; [| discriminate].
  intros [= <- <-]. cbn [dim]. rewrite Hd. intros [= <- <-].
  unfold ntotal, l2_normalize. cbn [index].
  rewrite !map_app, !length_app, !length_map, <- app_assoc.
  assert (Hr : range (Z.of_nat (length (index fi)))
                 (Z.of_nat (length (index fi))
                  + Z.of_nat (length rows1 + length rows2))
               = range (Z.of_nat (length (index fi)))
                   (Z.of_nat (length (index fi)) + Z.of_nat (length rows1))
                 ++ range (Z.of_nat (length (index fi) + length rows1))
                      (Z.of_nat (length (index fi) + length rows1)
                       + Z.of_nat (length rows2))).
  { rewrite (range_app _ (Z.of_nat (length (index fi)) + Z.of_nat (length rows1)))
      by lia.
    do 2 f_equal; lia. }
  split_and!.
  - by rewrite Hr.
  - rewrite <- Hr. f_equal. lia.
  - lia.
Qed.
End IndexProps2.

Lemma l2_normalize_keeps_zeros_witness :
  Forall (fun row => is_nan (@linalg_norm healthy row) = false)
         [[S754_zero false; S754_zero true]]
  ∧ Forall2 (Forall2 (fun v v' => is_zero v = true → is_zero v' = true))
            [[S754_zero false; S754_zero true]]
            (@l2_normalize healthy [[S754_zero false; S754_zero true]] eps_default).
Proof.
  assert (Hx : Forall (fun row => is_nan (@linalg_norm healthy row) = false)
                      [[S754_zero false; S754_zero true]]).
  { repeat constructor. }
  split; [exact Hx |].
  exact (@l2_normalize_keeps_zeros healthy _ Hx).
Defined.

Lemma add_add_witness :
  let fi1 := {| dim := 1; index := @l2_normalize healthy [[one32]] eps_default |} in
  let fi2 := {| dim := 1;
                index := @l2_normalize healthy [[one32]] eps_default
                         ++ @l2_normalize healthy [[one32]; [one32]] eps_default |} in
  (@add healthy (FaissIndex_new 1) (Matrix 1 [[one32]]) = Ok ([0], fi1)
   ∧ @add healthy fi1 (Matrix 1 [[one32]; [one32]]) = Ok ([1; 2], fi2))
  ∧ @add healthy (FaissIndex_new 1) (Matrix 1 ([[one32]] ++ [[one32]; [one32]]))
    = Ok ([0] ++ [1; 2], fi2)
  ∧ [0] ++ [1; 2] = range (ntotal (FaissIndex_new 1)) (ntotal fi2)
  ∧ ntotal fi2 = ntotal (FaissIndex_new 1) + Z.of_nat (1 + 2).
Proof.
  intros fi1 fi2.
  assert (H1 : @add healthy (FaissIndex_new 1) (Matrix 1 [[one32]]) = Ok ([0], fi1))
    by reflexivity.
  assert (H2 : @add healthy fi1 (Matrix 1 [[one32]; [one32]]) = Ok ([1; 2], fi2))
    by reflexivity.
  split; [by split |].
  exact (@add_add healthy _ _ _ _ _ _ _ _ H1 H2).
Defined.

(** ** The provider *)

Lemma slices_length {A : Type} (n : nat) (fuel : nat) :
  ∀ l : list A, (0 < n)%nat → (length l ≤ fuel)%nat →
    length (slices fuel n l) = ((length l + n - 1) / n)%nat.
Proof.
  induction fuel as [|fuel IH]; intros [|x l] Hn Hl.
  - cbn. symmetry. apply Nat.div_small. lia.
  - cbn in Hl. lia.
  - cbn. symmetry. apply Nat.div_small. lia.
  - cbn [slices length]. rewrite IH; [| done |]; last first.
    { rewrite length_drop. cbn [length] in *. lia. }
    rewrite length_drop. cbn [length].
    destruct (decide (n ≤ S (length l))%nat) as [Hle | Hgt].
    + replace (S (length l) + n - 1)%nat with ((S (length l) - n + n - 1) + 1 * n)%nat
        by lia.
      rewrite Nat.div_add by lia. lia.
    + replace (S (length l) - n + n - 1)%nat with (n - 1)%nat by lia.
      rewrite (Nat.div_small (n - 1)) by lia.
      replace (S (length l) + n - 1)%nat with (length l + 1 * n)%nat by lia.
      rewrite Nat.div_add by lia. rewrite Nat.div_small by lia. lia.
Qed.

Lemma np_array_uniform (d : nat) (rows : list vec) :
  rows ≠ [] → Forall (fun r => length r = d) rows →
  np_array rows = Ok (Matrix d rows).
Proof.
  intros Hne Hall. destruct rows as [|r rows]; [done |]. unfold np_array.
  assert (Hr : length r = d) by (by inversion Hall).
  assert (Hf : forallb (fun r' => Nat.eqb (length r') (length r)) (r :: rows) = true).
  { apply forallb_forall. intros r' Hin. apply Nat.eqb_eq. rewrite Hr.
    rewrite Forall_forall in Hall. apply Hall. by apply list_elem_of_In. }
  by rewrite Hf, Hr.
Qed.

Section ProviderProps.
Variable create : nat → list str → res (list vec).

Lemma embed_loop_pointwise (f : str → vec) (batches : list (list str)) :
  (∀ k batch, create k batch = Ok (map f batch)) →
  ∀ n all_vecs,
    embed_loop create n batches all_vecs
    = (Ok (all_vecs ++ map f (concat batches)), (n + length batches)%nat).
Proof.
  intros Hf. induction batches as [|b bl IH]; intros n all_vecs.
  - cbn. by rewrite app_nil_r, Nat.add_0_r.
  - cbn [embed_loop concat length]. rewrite Hf, IH, map_app, app_assoc.
    f_equal. lia.
Qed.

(** X14.  Batching does not show.  With a positive batch size and a client
    that answers each batch with one vector per text, in order,
    [embed_texts] returns the array of the vectors of all the texts in the
    order of the texts, after one request per started batch; for texts
    that are not empty and vectors of one length [d] this is a matrix of
    shape [(len(texts), d)], the shape that [ingest] tests for. *)
Theorem embed_texts_batching (f : str → vec) (batch_size : Z) (n : nat)
    (texts : list str) :
  0 < batch_size →
  (∀ k batch, create k batch = Ok (map f batch)) →
  OpenAI_embed_texts create batch_size n texts
  = (np_array (map f texts),
     (n + (length texts + Z.to_nat batch_size - 1) / Z.to_nat batch_size)%nat)
  ∧ ∀ d, texts ≠ [] → (∀ t, length (f t) = d) →
         np_array (map f texts) = Ok (Matrix d (map f texts))
         ∧ length (map f texts) = length texts.
Proof.
  intros Hbs Hf. split.
  - unfold OpenAI_embed_texts.
    destruct (batch_size =? 0) eqn:H0; [lia |].
    destruct (batch_size <? 0) eqn:H1; [lia |].
    rewrite (embed_loop_pointwise f) by done. cbn [app].
    rewrite slices_concat, slices_length by lia. reflexivity.
  - intros d Hne Hd. split; [| apply length_map].
    apply np_array_uniform.
    + by destruct texts.
    + apply Forall_forall. intros r Hr. apply list_elem_of_In, in_map_iff in Hr.
      destruct Hr as (t & <- & _). apply Hd.
Qed.

End ProviderProps.

Lemma embed_texts_batching_witness :
  (0 < 2 ∧ ∀ k batch, sample_client k batch = Ok (map sample_embedding batch))
  ∧ OpenAI_embed_texts sample_client 2 0 [lit "a"; []; lit "c"]
    = (np_array (map sample_embedding [lit "a"; []; lit "c"]),
       (0 + (3 + Z.to_nat 2 - 1) / Z.to_nat 2)%nat)
  ∧ ∀ d, [lit "a"; []; lit "c"] ≠ [] → (∀ t, length (sample_embedding t) = d) →
         np_array (map sample_embedding [lit "a"; []; lit "c"])
         = Ok (Matrix d (map sample_embedding [lit "a"; []; lit "c"]))
         ∧ length (map sample_embedding [lit "a"; []; lit "c"]) = 3%nat.
Proof.
  assert (Hbs : 0 < 2) by lia.
  assert (Hf : ∀ k batch, sample_client k batch = Ok (map sample_embedding batch))
    by reflexivity.
  split; [by split |].
  exact (embed_texts_batching sample_client sample_embedding 2 0
           [lit "a"; []; lit "c"] Hbs Hf).
Defined.

(** ** The query *)

Lemma resolve1_faiss_id (db : DB) (i : Z) (h : Hit) :
  resolve1 db i = Some h → hit_faiss_id h = i.
Proof.
  unfold resolve1. destruct (List.find _ (faiss_map db)) as [m|] eqn:Hm; [| done].
  destruct (List.find _ (chunks db)) as [c|]; [| done].
  intros [= <-]. apply find_some_elem in Hm as [_ Hk]. by apply Z.eqb_eq in Hk.
Qed.

Lemma omap_resolve1_ids (db : DB) (ids : list Z) :
  map hit_faiss_id (omap (resolve1 db) ids)
  = List.filter (fun i => bool_decide (is_Some (resolve1 db i))) ids.
Proof.
  induction ids as [|i ids IH]; [done |].
  change (omap (resolve1 db) (i :: ids))
    with (match resolve1 db i with
          | Some y => y :: omap (resolve1 db) ids
          | None => omap (resolve1 db) ids
          end).
  cbn [List.filter].
  destruct (resolve1 db i) as [h|] eqn:Hr.
  - rewrite bool_decide_eq_true_2 by done. cbn [map]. rewrite IH. f_equal.
    by eapply resolve1_faiss_id.
  - rewrite bool_decide_eq_false_2 by (by intros [? ?]). exact IH.
Qed.

Lemma NoDup_filter_list {A : Type} (f : A → bool) (l : list A) :
  NoDup l → NoDup (List.filter f l).
Proof.
  induction 1 as [|x l Hx Hnd IH]; cbn [List.filter]; [constructor |].
  destruct (f x); [| done]. constructor; [| done].
  intros Hin. apply Hx. apply list_elem_of_In, filter_In in Hin as [Hin _].
  by apply list_elem_of_In.
Qed.

Lemma score_fold_other (cs : list Hit) :
  ∀ (ss : list float32) (m0 : gmap Z float32) (key : Z),
    key ∉ map hit_faiss_id cs →
    foldl (fun m cs => <[hit_faiss_id (fst cs) := snd cs]> m) m0 (combine cs ss) !! key
    = m0 !! key.
Proof.
  induction cs as [|c cs IH]; intros ss m0 key Hk; [done |].
  destruct ss as [|s ss]; [done |]. cbn [combine foldl fst snd].
  cbn [map] in Hk. apply not_elem_of_cons in Hk as [Hne Hk].
  rewrite IH by done. by rewrite lookup_insert_ne.
Qed.

Lemma score_fold_rank (cs : list Hit) :
  ∀ (ss : list float32) (m0 : gmap Z float32) (k : nat) (c : Hit),
    NoDup (map hit_faiss_id cs) → cs !! k = Some c →
    foldl (fun m cs => <[hit_faiss_id (fst cs) := snd cs]> m) m0 (combine cs ss)
      !! hit_faiss_id c
    = match ss !! k with
      | Some s => Some s
      | None => m0 !! hit_faiss_id c
      end.
Proof.
  induction cs as [|c0 cs IH]; intros ss m0 k c Hnd Hk; [done |].
  cbn [map] in Hnd. apply NoDup_cons in Hnd as [Hc0 Hnd].
  destruct ss as [|s ss]; [by destruct k |]. cbn [combine foldl fst snd].
  destruct k as [|k].
  - cbn in Hk. injection Hk as ->. rewrite score_fold_other by done.
    by rewrite lookup_insert_eq.
  - cbn in Hk. rewrite (IH ss _ k c Hnd Hk). cbn [lookup list_lookup].
    change ((s :: ss) !! S k) with (ss !! k).
    destruct (ss !! k); [done |]. rewrite lookup_insert_ne; [done |].
    intros Heq. apply Hc0. rewrite Heq. apply list_elem_of_fmap_2.
    by eapply list_elem_of_lookup_2.
Qed.

(** With one dictionary per hit, the loop gives the hit at rank [k] the
    [k]-th score. *)
Lemma attach_scores_rank (cs : list Hit) (ss : list float32) :
  NoDup (map hit_faiss_id cs) →
  attach_scores cs ss = imap (fun k c => (c, ss !! k)) cs.
Proof.
  intros Hnd. unfold attach_scores. apply list_eq. intros k.
  rewrite list_lookup_fmap, list_lookup_imap.
  destruct (cs !! k) as [c|] eqn:Hk; [| done]. cbn. do 2 f_equal.
  unfold score_of. rewrite (score_fold_rank cs ss ∅ k c Hnd Hk).
  destruct (ss !! k); [done | apply lookup_empty].
Qed.

Section RankProps.
Context `{External}.

Lemma hits_rank (db : DB) (ids2 : list Z) (scores2 : list float32) (chunks : list Hit) :
  keys_unique db → NoDup ids2 →
  get_chunks_by_faiss_ids db ids2 = Ok chunks →
  attach_scores chunks scores2
  = imap (fun k c => (c, scores2 !! k)) (omap (resolve1 db) ids2).
Proof.
  intros Hkeys Hnd Hget. rewrite (get_chunks_resolve1_Ok db ids2 chunks Hkeys Hget).
  apply attach_scores_rank. rewrite omap_resolve1_ids. by apply NoDup_filter_list.
Qed.

(** X15.  The scores go by rank, not by position.  In a store that respects
    its keys and for distinct positions that SQLite can bind (no more than
    its limit on the variables of a statement, each a signed 64-bit
    integer), [get_chunks_by_faiss_ids] returns, and the loop of
    [rag_query] over [zip(chunks, scores2)] gives the [k]-th hit that it
    returned the [k]-th score: its own when every position before it was
    resolved, that of an earlier position of the search otherwise. *)
Theorem scores_attached_by_rank (db : DB) (ids2 : list Z) (scores2 : list float32) :
  keys_unique db → NoDup ids2 → bindable ids2 →
  ∃ chunks,
    get_chunks_by_faiss_ids db ids2 = Ok chunks
    ∧ attach_scores chunks scores2
      = imap (fun k c => (c, scores2 !! k)) (omap (resolve1 db) ids2).
Proof.
  intros Hkeys Hnd Hbind. eexists. split.
  - by apply get_chunks_resolve1_eq.
  - eapply hits_rank; [done | done |]. by apply get_chunks_resolve1_eq.
Qed.
End RankProps.

Lemma own_scores (db : DB) (pairs : list (Z * float32)) :
  (∀ p, p ∈ pairs → is_Some (resolve1 db (fst p))) →
  ∀ g : nat → option float32,
    (∀ k, g k = map snd pairs !! k) →
    Forall2 (fun p h => resolve1 db (fst p) = Some (fst h) ∧ snd h = Some (snd p))
            pairs
            (imap (fun k c => (c, g k)) (omap (resolve1 db) (map fst pairs))).
Proof.
  induction pairs as [|p pairs IH]; intros Hres g Hg; [constructor |].
  destruct (Hres p) as [h Hh]; [by left |].
  cbn [map]. change (omap (resolve1 db) (fst p :: map fst pairs))
    with (match resolve1 db (fst p) with
          | Some y => y :: omap (resolve1 db) (map fst pairs)
          | None => omap (resolve1 db) (map fst pairs)
          end).
  rewrite Hh. cbn [imap]. constructor.
  - split; [done |]. cbn [snd]. by rewrite Hg.
  - apply IH.
    + intros q Hq. apply Hres. by right.
    + intros k. unfold compose. by rewrite Hg.
Qed.

Lemma consistent_resolves (db : DB) (n : Z) (i : Z) :
  map fst (faiss_map db) = range 0 n →
  Forall (fun m => has_chunk_id db (snd m) = true) (faiss_map db) →
  0 ≤ i < n → is_Some (resolve1 db i).
Proof.
  intros Hpos Hfk Hi. unfold resolve1.
  assert (Hin : i ∈ map fst (faiss_map db)) by (rewrite Hpos; by apply range_elem).
  apply list_elem_of_In, in_map_iff in Hin as (m & Hm1 & Hm).
  apply list_elem_of_In in Hm.
  destruct (find_is_some (fun m => Z.eqb (fst m) i) (faiss_map db) m Hm) as [m' Hm'].
  { by apply Z.eqb_eq. }
  rewrite Hm'. apply find_some_elem in Hm' as [Hin' _].
  rewrite Forall_forall in Hfk. specialize (Hfk m' Hin').
  apply has_chunk_id_elem in Hfk as (c & Hc & Hcid).
  destruct (find_is_some (fun c => str_eqb (chunk_id c) (snd m')) (chunks db) c Hc)
    as [c' Hc'].
  { by apply str_eqb_eq. }
  rewrite Hc'. by eexists.
Qed.

Lemma pairs_of_elem (ids : list Z) (scores : list float32) (p : Z * float32) :
  p ∈ pairs_of ids scores → fst p ∈ ids ∧ 0 ≤ fst p.
Proof.
  unfold pairs_of. intros Hp. apply list_elem_of_In, filter_In in Hp as [Hin Hge].
  split; [| lia]. destruct p as [i s]. apply in_combine_l in Hin.
  by apply list_elem_of_In.
Qed.

Lemma pairs_of_length (ids : list Z) (scores : list float32) :
  (length (pairs_of ids scores) ≤ length ids)%nat.
Proof.
  unfold pairs_of. etrans; [apply List.filter_length_le |].
  rewrite length_combine. lia.
Qed.

Section QueryProps.
Context `{External}.

(** The positions that [rag_query] keeps are among those of the search, so
    SQLite binds them when it binds those. *)
Lemma pairs_of_bindable (ids : list Z) (scores : list float32) :
  bindable ids → bindable (map fst (pairs_of ids scores)).
Proof.
  intros [Hlen Hint]. split.
  - rewrite length_map. pose proof (pairs_of_length ids scores). lia.
  - apply Forall_forall. intros i Hi.
    apply list_elem_of_fmap in Hi as (p & -> & Hp).
    apply pairs_of_elem in Hp as [Hp _]. rewrite Forall_forall in Hint. by apply Hint.
Qed.

(** X16.  [rag_query] only reads: however it ends, the index file and the
    metadata file are the ones from before and no uuid is drawn.  It ends
    in [FileNotFoundError] exactly when one of the two files is missing,
    and then before the provider is asked; unlike [ingest], it creates no
    file. *)
Theorem rag_query_reads_only (query : str) (top_k : Z) (kind : str)
    (w w' : World) (r : found QueryResult) :
  rag_query query top_k kind w = (r, w') →
  faiss_file w' = faiss_file w
  ∧ sqlite_file w' = sqlite_file w
  ∧ uuid_drawn w' = uuid_drawn w
  ∧ (r = FileNotFoundError ↔ faiss_file w = None ∨ sqlite_file w = None)
  ∧ (r = FileNotFoundError → embed_called w' = embed_called w).
Proof.
  unfold rag_query.
  destruct (faiss_file w) as [fi|] eqn:Hfi; [| intros [= <- <-]; rewrite Hfi; naive_solver].
  destruct (sqlite_file w) as [db|] eqn:Hdb;
    [| intros [= <- <-]; rewrite Hfi, Hdb; naive_solver].
  assert (Hno : ∀ r0 : res QueryResult,
            Found r0 = FileNotFoundError ↔ Some fi = None ∨ Some db = @None DB)
    by (intros r0; split; [discriminate | intros [? | ?]; discriminate]).
  unfold bind at 1, pick_embedder.
  destruct (str_eqb _ _).
  2: { unfold raise. intros [= <- <-]. rewrite ?Hfi, ?Hdb. split_and!; done. }
  cbn [ret]. unfold bind at 1, embedder_embed_texts.
  destruct (embed_texts _ _) as [qvec|e].
  2: { intros [= <- <-]. cbn. rewrite ?Hfi, ?Hdb. split_and!; done. }
  unfold bind at 1, load. cbn [faiss_file set_embed_called]. rewrite Hfi.
  unfold bind at 1, lift.
  destruct (search fi qvec top_k) as [[ids scores]|e].
  2: { intros [= <- <-]. cbn. rewrite ?Hfi, ?Hdb. split_and!; done. }
  unfold bind, MetaStore_init, close, ret. cbn. rewrite Hdb. cbn.
  destruct (get_chunks_by_faiss_ids _ _) as [chunks|e];
    intros [= <- <-]; cbn; rewrite ?Hfi, ?Hdb; split_and!; done.
Qed.

(** X17.  A query over a directory whose two files agree.  When the store
    respects its keys, the two files are consistent, and the search returns
    distinct positions of the index (or -1 where it has nothing), no more
    of them than SQLite binds in one statement and each a signed 64-bit
    integer, the query returns one hit for every position that is not
    negative, in the order of the search, each with the row of its own
    chunk and the score of its own position. *)
Theorem rag_query_own_scores (query : str) (top_k : Z) (kind : str) (w : World)
    (fi : FaissIndex) (qvec : ndarray) (ids : list Z) (scores : list float32) :
  lower kind = lit "openai" →
  faiss_file w = Some fi → is_Some (sqlite_file w) →
  keys_unique (disk_db w) → consistent w →
  embed_texts (embed_called w) [query] = Ok qvec →
  search fi qvec top_k = Ok (ids, scores) →
  NoDup (map fst (pairs_of ids scores)) →
  (∀ i, i ∈ ids → i < ntotal fi) →
  bindable ids →
  ∃ hits w',
    rag_query query top_k kind w
    = (Found (Ok {| q_query := query; q_top_k := top_k; q_hits := hits |}), w')
    ∧ Forall2 (fun p h => resolve1 (disk_db w) (fst p) = Some (fst h)
                          ∧ snd h = Some (snd p))
              (pairs_of ids scores) hits.
Proof.
  intros Hk Hfi [db Hdb] Hkeys [Hpos Hfk] Hemb Hsearch Hnd Hin Hbind.
  unfold disk_db, disk_ntotal in *. rewrite Hdb in *. rewrite Hfi in Hpos.
  cbn [default ntotal_opt] in *.
  pose proof (get_chunks_resolve1_eq db _ Hkeys (pairs_of_bindable ids scores Hbind))
    as Hget.
  eexists _, _. split.
  - unfold rag_query. rewrite Hfi, Hdb.
    erewrite bind_ok; last first.
    { unfold pick_embedder, str_eqb. by rewrite bool_decide_eq_true_2. }
    erewrite bind_ok; last first.
    { unfold embedder_embed_texts. rewrite Hemb. reflexivity. }
    erewrite bind_ok; last first.
    { unfold load. cbn [faiss_file set_embed_called]. rewrite Hfi. reflexivity. }
    erewrite bind_ok; last first.
    { unfold lift. rewrite Hsearch. reflexivity. }
    cbn beta iota zeta.
    unfold bind, MetaStore_init, close, ret. cbn. rewrite Hdb. cbn.
    rewrite Hget. reflexivity.
  - erewrite hits_rank by done. apply own_scores; [| done].
    intros p Hp. apply pairs_of_elem in Hp as [Hp Hge].
    eapply consistent_resolves; [exact Hpos | exact Hfk |]. split; [done |].
    by apply Hin.
Qed.
End QueryProps.

Lemma scores_attached_by_rank_witness :
  (keys_unique sample_db ∧ NoDup [7; 1] ∧ @bindable searching [7; 1])
  ∧ ∃ chunks,
      @get_chunks_by_faiss_ids searching sample_db [7; 1] = Ok chunks
      ∧ attach_scores chunks [lowest32; one32]
        = imap (fun k c => (c, [lowest32; one32] !! k))
               (omap (resolve1 sample_db) [7; 1]).
Proof.
  assert (Hnd : NoDup [7; 1]) by (apply (bool_decide_unpack _); by vm_compute).
  assert (Hbind : @bindable searching [7; 1]).
  { split; [cbn; lia | by repeat constructor]. }
  split; [split_and!; [exact sample_db_keys | exact Hnd | exact Hbind] |].
  exact (@scores_attached_by_rank searching sample_db [7; 1] [lowest32; one32]
           sample_db_keys Hnd Hbind).
Defined.

Lemma rag_query_reads_only_witness :
  @rag_query searching (lit "a") 3 (lit "openai") empty_dir
  = (FileNotFoundError, empty_dir)
  ∧ faiss_file empty_dir = faiss_file empty_dir
  ∧ sqlite_file empty_dir = sqlite_file empty_dir
  ∧ uuid_drawn empty_dir = uuid_drawn empty_dir
  ∧ (@FileNotFoundError QueryResult = FileNotFoundError
     ↔ faiss_file empty_dir = None ∨ sqlite_file empty_dir = None)
  ∧ (@FileNotFoundError QueryResult = FileNotFoundError →
     embed_called empty_dir = embed_called empty_dir).
Proof.
  assert (Hrun : @rag_query searching (lit "a") 3 (lit "openai") empty_dir
                 = (FileNotFoundError, empty_dir)) by reflexivity.
  split; [exact Hrun |].
  exact (@rag_query_reads_only searching _ _ _ _ _ _ Hrun).
Defined.

Lemma full_dir_keys : keys_unique (disk_db full_dir).
Proof. split_and!; apply (bool_decide_unpack _); by vm_compute. Qed.

Lemma full_dir_consistent : consistent full_dir.
Proof.
  split.
  - vm_compute. reflexivity.
  - apply Forall_forall. intros m Hm.
    assert (Hl : faiss_map (disk_db full_dir)
                 = [(0, sample_uuid4 0); (1, sample_uuid4 1)]) by (vm_compute; reflexivity).
    rewrite Hl in Hm.
    apply elem_of_cons in Hm as [-> | Hm]; [by vm_compute |].
    apply list_elem_of_singleton in Hm as ->. by vm_compute.
Qed.

Lemma rag_query_own_scores_witness :
  (faiss_file full_dir = Some full_index
   ∧ keys_unique (disk_db full_dir) ∧ consistent full_dir
   ∧ @search searching full_index (Matrix 1 [[one32]]) 3
     = Ok ([0; 1; -1], [one32; one32; lowest32])
   ∧ @bindable searching [0; 1; -1])
  ∧ ∃ hits w',
      @rag_query searching (lit "a") 3 (lit "openai") full_dir
      = (Found (Ok {| q_query := lit "a"; q_top_k := 3; q_hits := hits |}), w')
      ∧ Forall2 (fun p h => resolve1 (disk_db full_dir) (fst p) = Some (fst h)
                            ∧ snd h = Some (snd p))
                (pairs_of [0; 1; -1] [one32; one32; lowest32]) hits.
Proof.
  assert (Hfi : faiss_file full_dir = Some full_index) by (vm_compute; reflexivity).
  assert (Hs : @search searching full_index (Matrix 1 [[one32]]) 3
               = Ok ([0; 1; -1], [one32; one32; lowest32])) by (vm_compute; reflexivity).
  assert (Hbind : @bindable searching [0; 1; -1]).
  { split; [cbn; lia | by repeat constructor]. }
  split; [split_and!; [exact Hfi | exact full_dir_keys | exact full_dir_consistent
                       | exact Hs | exact Hbind] |].
  apply (@rag_query_own_scores searching (lit "a") 3 (lit "openai") full_dir
           full_index (Matrix 1 [[one32]]) [0; 1; -1] [one32; one32; lowest32]).
  - reflexivity.
  - exact Hfi.
  - exists (disk_db full_dir). vm_compute. reflexivity.
  - exact full_dir_keys.
  - exact full_dir_consistent.
  - reflexivity.
  - exact Hs.
  - apply (bool_decide_unpack _). by vm_compute.
  - intros i Hi. assert (Hn : ntotal full_index = 2) by (vm_compute; reflexivity).
    rewrite Hn. repeat (apply elem_of_cons in Hi as [-> | Hi]; [lia |]).
    by apply elem_of_nil in Hi.
  - exact Hbind.
Defined.

(** ** Chunking: blank pages and the trace of the loop *)

Lemma lstrip_blank (s : str) : lstrip s = [] ↔ blank s.
Proof.
  unfold blank. induction s as [|a s IH]; cbn.
  - split; [constructor | done].
  - destruct (isspace a) eqn:Ha.
    + rewrite IH. split; [by constructor | by inversion 1].
    + split; [done |]. inversion 1; congruence.
Qed.

Lemma strip_blank (s : str) : strip s = [] ↔ blank s.
Proof.
  split.
  - unfold strip, rstrip. intros Hs.
    assert (Hl : lstrip (rev (lstrip s)) = []).
    { apply (f_equal (@rev ascii)) in Hs. by rewrite rev_involutive in Hs. }
    apply lstrip_blank in Hl. unfold blank in Hl.
    assert (Hb : blank (lstrip s)).
    { unfold blank. apply Forall_forall. intros a Ha. rewrite Forall_forall in Hl.
      apply Hl. apply list_elem_of_In, in_rev. rewrite rev_involutive.
      by apply list_elem_of_In. }
    pose proof (lstrip_hd s) as Hhd. apply lstrip_blank.
    destruct (lstrip s) as [|a r]; [done |]. cbn in Hhd.
    inversion Hb; congruence.
  - intros Hb. apply lstrip_blank in Hb. unfold strip. by rewrite Hb.
Qed.

Lemma replace_from_blank (old new : str) (s : str) :
  blank new → blank s → ∀ skip, blank (replace_from old new skip s).
Proof.
  intros Hnew. induction s as [|a s IH]; intros Hs skip; [constructor |].
  inversion Hs as [|? ? Ha Hs']; subst. cbn [replace_from].
  destruct skip as [|n]; [| by apply IH].
  destruct (is_prefix old (a :: s)).
  - apply Forall_app. split; [done | by apply IH].
  - constructor; [done | by apply IH].
Qed.

(** A page that [chunk_pages] skips has no block. *)
Lemma blank_page_no_block (t : str) : strip t = [] → split_into_blocks t = [].
Proof.
  intros Ht. apply strip_blank in Ht. unfold split_into_blocks.
  assert (Hlf : blank [LF]) by (by repeat constructor).
  assert (Hb : blank (replace [CR] [LF] (replace [CR; LF] [LF] t))).
  { unfold replace. apply replace_from_blank; [done |]. by apply replace_from_blank. }
  apply strip_blank in Hb. by rewrite Hb.
Qed.

(** The loop of [chunk_pages] with what it has seen: [seen] are the pages
    begun so far, [bl] the blocks placed so far. *)
Lemma do_pages_trace (p : Params) (P : list PageRecord → list str → State → Prop) :
  (∀ seen bl pr st, P seen bl st → P (seen ++ [pr]) bl (begin_page pr st)) →
  (∀ seen bl pr st b st',
     P (seen ++ [pr]) bl st → b ∈ split_into_blocks (pr_text pr) →
     do_block p (pr_page pr) st b = Ok st' →
     P (seen ++ [pr]) (bl ++ [b]) st') →
  ∀ pages seen bl st,
    P seen bl st →
    ∃ st', do_pages p st pages = Ok st'
           ∧ P (seen ++ pages) (bl ++ all_blocks pages) st'.
Proof.
  intros Hpage Hstep.
  assert (Hblocks : ∀ seen pr blocks bl st,
            (∀ b, b ∈ blocks → b ∈ split_into_blocks (pr_text pr)) →
            P (seen ++ [pr]) bl st →
            ∃ st', do_blocks p (pr_page pr) st blocks = Ok st'
                   ∧ P (seen ++ [pr]) (bl ++ blocks) st').
  { intros seen pr. induction blocks as [|b blocks IH]; intros bl st Hin HP.
    - exists st. by rewrite app_nil_r.
    - assert (Hb : b ∈ split_into_blocks (pr_text pr)) by (apply Hin; by left).
      assert (Hne : b ≠ []).
      { pose proof (split_into_blocks_stripped (pr_text pr)) as Hall.
        rewrite Forall_forall in Hall. by destruct (Hall b Hb). }
      cbn [do_blocks]. destruct (do_block_total p (pr_page pr) st b Hne) as [st1 Hst1].
      rewrite Hst1.
      destruct (IH (bl ++ [b]) st1) as (st' & Hrun & HP').
      + intros b' Hb'. apply Hin. by right.
      + by eapply Hstep.
      + exists st'. split; [done |]. by rewrite <- app_assoc in HP'. }
  induction pages as [|pr pages IH]; intros seen bl st HP.
  - exists st. by rewrite !app_nil_r.
  - cbn [do_pages all_blocks flat_map]. unfold do_page.
    destruct (negb (nonempty (strip (pr_text pr)))) eqn:Hblank.
    + assert (Hnone : split_into_blocks (pr_text pr) = []).
      { apply blank_page_no_block. apply negb_true_iff in Hblank.
        by destruct (strip (pr_text pr)). }
      rewrite Hnone. cbn [app].
      destruct (IH (seen ++ [pr]) bl (begin_page pr st)) as (st' & Hrun & HP').
      { by apply Hpage. }
      exists st'. split; [done |]. by rewrite <- app_assoc in HP'.
    + destruct (Hblocks seen pr (split_into_blocks (pr_text pr)) bl (begin_page pr st))
        as (st1 & -> & HP1); [done | by apply Hpage |].
      destruct (IH (seen ++ [pr]) _ st1 HP1) as (st' & Hrun & HP').
      exists st'. split; [done |]. by rewrite <- !app_assoc in HP'.
Qed.

(** An invariant that every emission keeps is kept by [flush]. *)
Lemma flush_keeps (p : Params) (J : State → Prop) :
  (∀ st ps pe,
     J st → cur_text_parts st ≠ [] →
     cur_page_start st = Some ps → cur_page_end st = Some pe →
     strip (join sep (cur_text_parts st)) ≠ [] →
     J (after_emit p st ps pe)) →
  ∀ force st, J st → J (flush p force st).
Proof.
  intros Hemit force st HJ.
  destruct (flush_cases p force st) as [-> | (ps & pe & Hp & Hps & Hpe & Ht & _ & ->)];
    [done | by apply Hemit].
Qed.

(** A turn of the loop: [J] holds up to the append, [K] from it on. *)
Lemma do_block_keeps (p : Params) (page : Z) (b : str) (J K : State → Prop) :
  (∀ force st, J st → J (flush p force st)) →
  (∀ force st, K st → K (flush p force st)) →
  (∀ h st, block_starts_with_heading b = Ok (Some h) → J st → J (set_section h st)) →
  (∀ st, J st → J (init_page_range page st)) →
  (∀ st, J st → is_Some (cur_page_start st) → is_Some (cur_page_end st) →
         K (append_part b st)) →
  ∀ st st', J st → do_block p page st b = Ok st' → K st'.
Proof.
  intros HfJ HfK Hsec Hinit Happ st st' HJ. unfold do_block.
  destruct (block_starts_with_heading b) as [heading|e] eqn:Hh; [| done].
  intros [= <-]. unfold place_block.
  set (st0 := at_heading p heading st).
  assert (H0 : J st0).
  { subst st0. destruct heading as [h|]; [| done]. cbn [at_heading].
    by apply Hsec, HfJ. }
  set (st1 := init_page_range page st0).
  set (st2 := if max_chars p <? prospective_len st1 b
              then init_page_range page (flush p true st1) else st1).
  assert (H2 : J st2 ∧ is_Some (cur_page_start st2) ∧ is_Some (cur_page_end st2)).
  { subst st2. destruct (max_chars p <? _).
    - split; [| apply init_page_range_pages]. by apply Hinit, HfJ, Hinit.
    - split; [| apply init_page_range_pages]. by apply Hinit. }
  destruct H2 as (H2 & Hps & Hpe).
  destruct (target_chars p <=? _); [apply HfK |]; by apply Happ.
Qed.

(** ** Chunking: the page ranges *)

Lemma pages_ascend_prefix (a b : list PageRecord) : pages_ascend (a ++ b) → pages_ascend a.
Proof.
  intros Hasc i j x y Hij Hi Hj.
  apply (Hasc i j x y Hij); by apply lookup_app_l_Some.
Qed.

Lemma pages_ascend_last (seen : list PageRecord) (pr : PageRecord) (n : Z) :
  pages_ascend (seen ++ [pr]) → n ∈ map pr_page (seen ++ [pr]) → n ≤ pr_page pr.
Proof.
  intros Hasc Hn. apply list_elem_of_In, in_map_iff in Hn as (q & <- & Hq).
  apply list_elem_of_In, list_elem_of_lookup in Hq as [i Hi].
  apply (Hasc i (length seen) q pr); [| done |].
  - apply lookup_lt_Some in Hi. rewrite length_app in Hi. cbn in Hi. lia.
  - rewrite lookup_app_r by lia. by rewrite Nat.sub_diag.
Qed.

Lemma range_inv_mono (nums nums' : list Z) (st : State) :
  (∀ n, n ∈ nums → n ∈ nums') → range_inv nums st → range_inv nums' st.
Proof.
  intros Hsub (Hc & Hs & He & Hle).
  split_and!; [| intros ps Hps; by apply Hsub, Hs | intros pe Hpe; by apply Hsub, He
               | done].
  eapply Forall_impl; [exact Hc |]. intros c (H1 & H2 & H3). split_and!; auto.
Qed.

Lemma range_inv_emit (p : Params) (nums : list Z) (st : State) (ps pe : Z) :
  range_inv nums st →
  cur_page_start st = Some ps → cur_page_end st = Some pe →
  range_inv nums (after_emit p st ps pe).
Proof.
  intros (Hc & Hs & He & Hle) Hps Hpe. unfold range_inv, after_emit.
  cbn [st_chunks cur_page_start cur_page_end].
  split_and!.
  - apply Forall_app. split; [done |]. repeat constructor; cbn; auto.
  - intros n. destruct (_ && _); [| done]. intros [= <-]. auto.
  - intros n [= <-]. auto.
  - intros a b. destruct (_ && _); [| done]. intros [= <-] [= <-]. lia.
Qed.

Lemma range_inv_block (p : Params) (nums : list Z) (page : Z) (b : str)
    (st st' : State) :
  page ∈ nums → (∀ n, n ∈ nums → n ≤ page) →
  range_inv nums st → do_block p page st b = Ok st' → range_inv nums st'.
Proof.
  intros Hpage Hmax.
  assert (Hf : ∀ force st0, range_inv nums st0 → range_inv nums (flush p force st0)).
  { apply flush_keeps. intros st0 ps pe HJ _ Hps Hpe _. by apply range_inv_emit. }
  apply (do_block_keeps p page b (range_inv nums) (range_inv nums)); try done.
  intros st0 (Hc & Hs & He & Hle). split_and!; cbn; try done.
  - intros n [= <-]. destruct (cur_page_start st0) as [ps|] eqn:Hps; cbn; auto.
  - by intros n [= <-].
  - intros a c [= <-] [= <-]. destruct (cur_page_start st0) as [ps|] eqn:Hps; cbn; [| lia].
    apply Hmax. auto.
Qed.

(** X18.  The page range of a chunk.  For pages whose numbers do not
    decrease, every chunk has [page_start <= page_end], and both are
    numbers of pages of the input. *)
Theorem chunk_page_ranges (p : Params) (pages : list PageRecord) :
  pages_ascend pages →
  ∃ cs, chunk_pages p pages = Ok cs
        ∧ Forall (fun c => page_start c ≤ page_end c
                           ∧ page_start c ∈ map pr_page pages
                           ∧ page_end c ∈ map pr_page pages) cs.
Proof.
  intros Hasc. unfold chunk_pages.
  destruct (do_pages_trace p
              (fun seen _ st => pages_ascend seen → range_inv (map pr_page seen) st))
    with (pages := pages) (seen := @nil PageRecord) (bl := @nil str) (st := init_state)
    as (st & -> & Hinv).
  - intros seen bl pr st HP Hasc'.
    apply (range_inv_mono (map pr_page seen)).
    + intros n Hn. rewrite map_app. apply elem_of_app. by left.
    + apply HP. by eapply pages_ascend_prefix.
  - intros seen bl pr st b st' HP Hb Hstep Hasc'.
    eapply range_inv_block; [| | by apply HP | exact Hstep].
    + rewrite map_app. apply elem_of_app. right. cbn. by left.
    + intros n Hn. by eapply pages_ascend_last.
  - intros _. split_and!; [constructor | done | done | done].
  - cbn [app] in Hinv. specialize (Hinv Hasc).
    eexists. split; [reflexivity |].
    assert (Hf : range_inv (map pr_page pages) (flush p true st)).
    { revert Hinv. apply flush_keeps. intros st0 ps pe HJ _ Hps Hpe _.
      by apply range_inv_emit. }
    by destruct Hf as (Hc & _).
Qed.

Lemma two_pages_ascend : pages_ascend two_pages.
Proof.
  intros i j x y Hij Hi Hj.
  destruct i as [|[|i]], j as [|[|j]]; cbn in Hi, Hj; try discriminate; try lia;
    injection Hi as <-; injection Hj as <-; cbn; lia.
Qed.

Lemma chunk_page_ranges_witness :
  pages_ascend two_pages
  ∧ ∃ cs, chunk_pages two_pages_params two_pages = Ok cs
          ∧ Forall (fun c => page_start c ≤ page_end c
                             ∧ page_start c ∈ map pr_page two_pages
                             ∧ page_end c ∈ map pr_page two_pages) cs.
Proof.
  split; [exact two_pages_ascend |].
  exact (chunk_page_ranges two_pages_params two_pages two_pages_ascend).
Defined.

(** ** Chunking: where a chunk comes from *)

Lemma or_str_some_empty (s : str) : or_str (Some s) [] = s.
Proof. unfold or_str. by destruct (bool_decide_reflect (s = [])). Qed.

Lemma from_page_mono (seen seen' : list PageRecord) (d pdf : str) :
  (∀ pr, pr ∈ seen → pr ∈ seen') → from_page seen d pdf → from_page seen' d pdf.
Proof. intros Hsub (pr & Hpr & Hd & Hpdf). exists pr. auto. Qed.

Lemma from_heading_mono (bl bl' : list str) (sec : option str) :
  (∀ b, b ∈ bl → b ∈ bl') → from_heading bl sec → from_heading bl' sec.
Proof.
  intros Hsub [-> | (b & h & Hb & Hh & ->)]; [by left |].
  right. exists b, h. auto.
Qed.

Lemma prov_inv_mono (seen seen' : list PageRecord) (bl bl' : list str) (st : State) :
  (∀ pr, pr ∈ seen → pr ∈ seen') → (seen = [] → seen' = []) →
  (∀ b, b ∈ bl → b ∈ bl') →
  prov_inv seen bl st → prov_inv seen' bl' st.
Proof.
  intros Hs Hnil Hb (Hc & Hparts & Hseen & Hsec). split_and!.
  - eapply Forall_impl; [exact Hc |]. intros c [H1 H2].
    split; [by eapply from_page_mono | by eapply from_heading_mono].
  - intros Hne. eapply from_page_mono; [exact Hs | by apply Hparts].
  - intros Hne. eapply from_page_mono; [exact Hs |]. apply Hseen.
    intros ->. by apply Hne, Hnil.
  - by eapply from_heading_mono.
Qed.

Lemma prov_inv_emit (p : Params) (seen : list PageRecord) (bl : list str)
    (st : State) (ps pe : Z) :
  prov_inv seen bl st → cur_text_parts st ≠ [] →
  prov_inv seen bl (after_emit p st ps pe).
Proof.
  intros (Hc & Hparts & Hseen & Hsec) Hne. unfold prov_inv, after_emit.
  cbn [st_chunks cur_text_parts cur_doc cur_pdf cur_section chunk_of doc source_pdf
       section_title].
  split_and!; [| auto | auto | done].
  apply Forall_app. split; [done |]. constructor; [| constructor].
  split; [by apply Hparts | exact Hsec].
Qed.

Lemma prov_inv_block (p : Params) (seen : list PageRecord) (bl : list str)
    (page : Z) (b : str) (st st' : State) :
  seen ≠ [] → b ∈ bl →
  prov_inv seen bl st → do_block p page st b = Ok st' → prov_inv seen bl st'.
Proof.
  intros Hseen Hb.
  assert (Hf : ∀ force st0, prov_inv seen bl st0 → prov_inv seen bl (flush p force st0)).
  { apply flush_keeps. intros st0 ps pe HJ Hne _ _ _. by apply prov_inv_emit. }
  apply (do_block_keeps p page b (prov_inv seen bl) (prov_inv seen bl)); try done.
  - intros h st0 Hh (Hc & Hparts & Hs & Hsec). split_and!; try done.
    right. by exists b, h.
  - intros st0 (Hc & Hparts & Hs & Hsec) _ _. split_and!; try done.
    intros _. by apply Hs.
Qed.

Lemma heading_title_nonempty (line : str) :
  is_heading_line line = true → extract_heading_title line ≠ [].
Proof.
  unfold is_heading_line, extract_heading_title.
  destruct (strip line) as [|a s] eqn:Hs; [discriminate |]. intros _.
  destruct (re_match _re_numbered_heading (a :: s)) as [m|].
  - intros Hnil. apply app_eq_nil in Hnil as [_ Hnil]. discriminate Hnil.
  - destruct (matches _re_chapter_section (a :: s)); [done |].
    destruct (matches _re_figure_table (a :: s)); [done |].
    by destruct (matches _re_all_caps (a :: s)).
Qed.

Lemma block_heading_nonempty (b h : str) :
  block_starts_with_heading b = Ok (Some h) → h ≠ [].
Proof.
  unfold block_starts_with_heading. destruct (splitlines b) as [|l0 ls]; [discriminate |].
  destruct (is_heading_line (strip l0)) eqn:Hh; [| discriminate].
  intros [= <-]. by apply heading_title_nonempty.
Qed.

(** X19.  Where a chunk comes from.  [doc] and [source_pdf] of every chunk
    are those of one page of the input ([doc] replaced by ["doc"] when it
    is empty), and its [section_title] is [None] or the title that
    [block_starts_with_heading] gives for a block of the input, which is
    never the empty string. *)
Theorem chunk_provenance (p : Params) (pages : list PageRecord) :
  ∃ cs, chunk_pages p pages = Ok cs
        ∧ Forall (fun c =>
                    (∃ pr, pr ∈ pages
                           ∧ doc c = (if bool_decide (pr_doc pr = []) then lit "doc"
                                      else pr_doc pr)
                           ∧ source_pdf c = pr_source_pdf pr)
                    ∧ (section_title c = None
                       ∨ ∃ b h, b ∈ all_blocks pages
                                ∧ block_starts_with_heading b = Ok (Some h)
                                ∧ h ≠ []
                                ∧ section_title c = Some h)) cs.
Proof.
  unfold chunk_pages.
  destruct (do_pages_trace p prov_inv)
    with (pages := pages) (seen := @nil PageRecord) (bl := @nil str) (st := init_state)
    as (st & -> & Hinv).
  - intros seen bl pr st HP.
    assert (Hpage : from_page (seen ++ [pr]) (or_str (Some (pr_doc pr)) (lit "doc"))
                              (or_str (Some (pr_source_pdf pr)) [])).
    { exists pr. split_and!; [| done | apply or_str_some_empty].
      apply elem_of_app. right. by left. }
    destruct HP as (Hc & Hparts & Hs & Hsec).
    split_and!; cbn [begin_page st_chunks cur_text_parts cur_doc cur_pdf cur_section];
      try done.
    eapply Forall_impl; [exact Hc |]. intros c [H1 H2]. split; [| done].
    eapply from_page_mono; [| exact H1]. intros q Hq. apply elem_of_app. by left.
  - intros seen bl pr st b st' HP Hb Hstep.
    eapply prov_inv_block; [| | | exact Hstep].
    + by destruct seen.
    + apply elem_of_app. right. by left.
    + eapply prov_inv_mono; [| | | exact HP]; try done.
      intros b' Hb'. apply elem_of_app. by left.
  - split_and!; [constructor | done | done | by left].
  - cbn [app] in Hinv. eexists. split; [reflexivity |].
    assert (Hf : prov_inv pages (all_blocks pages) (flush p true st)).
    { revert Hinv. apply flush_keeps. intros st0 ps pe HJ Hne _ _ _.
      by apply prov_inv_emit. }
    destruct Hf as (Hc & _). eapply Forall_impl; [exact Hc |].
    intros c [(pr & Hpr & Hd & Hpdf) Hsec]. split.
    + exists pr. split_and!; [done | | done]. rewrite Hd. unfold or_str.
      reflexivity.
    + destruct Hsec as [Hnone | (b & h & Hb & Hh & Hsome)]; [by left |].
      right. exists b, h. split_and!; try done. by eapply block_heading_nonempty.
Qed.

(** ** Chunking: nothing is lost *)

Lemma stripped_hd (s : str) : stripped s → hd_nonspace s.
Proof. intros [_ Hs]. rewrite <- Hs. apply rstrip_hd, lstrip_hd. Qed.

Lemma strip_id (s : str) : hd_nonspace s → ends_nonspace s → strip s = s.
Proof.
  intros Hhd Hend. unfold strip. rewrite (lstrip_id s Hhd).
  by apply rstrip_ends_nonspace.
Qed.

Lemma join_hd (sp : str) (parts : list str) :
  Forall stripped parts → hd_nonspace (join sp parts).
Proof.
  intros Hall. destruct parts as [|x parts]; [done |].
  apply Forall_cons in Hall as [Hx _]. pose proof (stripped_hd x Hx) as Hhd.
  destruct Hx as [Hne _]. destruct x as [|a x]; [done |].
  by destruct parts.
Qed.

Lemma strip_join_stripped (parts : list str) :
  parts ≠ [] → Forall stripped parts → strip (join sep parts) = join sep parts.
Proof.
  intros Hne Hall. apply strip_id; [by apply join_hd |].
  apply join_ends; [done |].
  eapply Forall_impl; [exact Hall |]. apply stripped_ends_nonspace.
Qed.

Lemma content_inv_emit (p : Params) (bl : list str) (st : State) (ps pe : Z) :
  overlap_chars p ≤ 0 →
  content_inv bl st → cur_text_parts st ≠ [] →
  content_inv bl (after_emit p st ps pe).
Proof.
  intros Hov (groups & Htexts & Hgroups & Hbl & Hparts) Hne.
  exists (groups ++ [cur_text_parts st]). unfold after_emit, carry_over.
  assert (H0 : (0 <? overlap_chars p) = false) by lia. rewrite H0. cbn [andb].
  cbn [st_chunks cur_text_parts chunk_of text]. split_and!.
  - rewrite !map_app, Htexts. cbn [map]. unfold chunk_of. cbn [text].
    by rewrite strip_join_stripped.
  - apply Forall_app. split; [done |]. by repeat constructor.
  - rewrite concat_app. cbn [concat]. by rewrite !app_nil_r.
  - constructor.
Qed.

Lemma content_inv_block (p : Params) (bl : list str) (page : Z) (b : str)
    (st st' : State) :
  overlap_chars p ≤ 0 → stripped b →
  content_inv bl st → do_block p page st b = Ok st' → content_inv (bl ++ [b]) st'.
Proof.
  intros Hov Hb.
  assert (Hf : ∀ bl0 force st0, content_inv bl0 st0 → content_inv bl0 (flush p force st0)).
  { intros bl0. apply flush_keeps. intros st0 ps pe HJ Hne _ _ _.
    by apply content_inv_emit. }
  apply (do_block_keeps p page b (content_inv bl) (content_inv (bl ++ [b])));
    [apply Hf | apply Hf | by intros h st0 _ HJ | by intros st0 HJ |].
  intros st0 (groups & Htexts & Hgroups & Hbl & Hparts) _ _.
  exists groups. cbn [append_part st_chunks cur_text_parts]. split_and!; try done.
  - by rewrite app_assoc, Hbl.
  - apply Forall_app. split; [done |]. constructor; [exact Hb | constructor].
Qed.

(** X20.  Without overlap nothing is lost and nothing is repeated.  With
    [overlap_chars <= 0] the chunks partition the blocks of the pages: the
    blocks fall, in their order, into consecutive non-empty groups, one for
    each chunk, and the text of a chunk is the blocks of its group joined
    by a blank line. *)
Theorem chunks_partition_blocks (p : Params) (pages : list PageRecord) :
  overlap_chars p ≤ 0 →
  ∃ cs groups,
    chunk_pages p pages = Ok cs
    ∧ map text cs = map (join sep) groups
    ∧ Forall (fun g => g ≠ []) groups
    ∧ concat groups = all_blocks pages.
Proof.
  intros Hov. unfold chunk_pages.
  destruct (do_pages_trace p (fun _ bl st => state_ok st ∧ content_inv bl st))
    with (pages := pages) (seen := @nil PageRecord) (bl := @nil str) (st := init_state)
    as (st & -> & Hok & Hinv).
  - intros seen bl pr st [Hok HP]. split; [by apply begin_page_ok | exact HP].
  - intros seen bl pr st b st' [Hok HP] Hb Hstep.
    assert (Hs : stripped b).
    { pose proof (split_into_blocks_stripped (pr_text pr)) as Hall.
      rewrite Forall_forall in Hall. by apply Hall. }
    split.
    + eapply do_block_ok; [exact Hok | by apply stripped_ends_nonspace | exact Hstep].
    + by eapply content_inv_block.
  - split; [apply init_state_ok |]. exists []. split_and!; try done; constructor.
  - cbn [app] in Hinv.
    destruct (decide (cur_text_parts st = [])) as [Hnil | Hne].
    + destruct Hinv as (groups & Htexts & Hgroups & Hbl & _).
      assert (Hflush : flush p true st = st).
      { destruct (flush_cases p true st) as [-> | (ps & pe & Hp & _)]; [done |].
        by rewrite Hnil in Hp. }
      rewrite Hflush. exists (st_chunks st), groups. split_and!; try done.
      by rewrite Hnil, app_nil_r in Hbl.
    + destruct Hok as (Hpages & Hparts & _).
      destruct (Hpages Hne) as [[ps Hps] [pe Hpe]].
      assert (Ht : strip (join sep (cur_text_parts st)) ≠ []).
      { apply ends_nonspace_strip. by apply join_ends. }
      rewrite (flush_emit p st ps pe Hne Hps Hpe Ht).
      destruct (content_inv_emit p _ st ps pe Hov Hinv Hne)
        as (groups & Htexts & Hgroups & Hbl & _).
      exists (st_chunks (after_emit p st ps pe)), groups. split_and!; try done.
      revert Hbl. unfold after_emit, carry_over.
      assert (H0 : (0 <? overlap_chars p) = false) by lia. rewrite H0. cbn [andb].
      cbn [cur_text_parts]. by rewrite app_nil_r.
Qed.

Lemma chunks_partition_blocks_witness :
  overlap_chars uneven_params ≤ 0
  ∧ ∃ cs groups,
      chunk_pages uneven_params uneven_page = Ok cs
      ∧ map text cs = map (join sep) groups
      ∧ Forall (fun g => g ≠ []) groups
      ∧ concat groups = all_blocks uneven_page.
Proof.
  assert (Hov : overlap_chars uneven_params ≤ 0) by (cbn; lia).
  split; [exact Hov |].
  exact (chunks_partition_blocks uneven_params uneven_page Hov).
Defined.

(** ** Chunking: when there is no chunk *)

Lemma blank_pages_no_block (pages : list PageRecord) :
  Forall (fun pr => blank (pr_text pr)) pages → all_blocks pages = [].
Proof.
  induction 1 as [|pr pages Hb _ IH]; [done |]. cbn [all_blocks flat_map].
  rewrite blank_page_no_block by (by apply strip_blank). exact IH.
Qed.

Lemma something_held_block (p : Params) (page : Z) (b : str) (st st' : State) :
  do_block p page st b = Ok st' → st_chunks st' ≠ [] ∨ cur_text_parts st' ≠ [].
Proof.
  apply (do_block_keeps p page b (fun _ => True)
           (fun st => st_chunks st ≠ [] ∨ cur_text_parts st ≠ [])); try done.
  - apply (flush_keeps p (fun st => st_chunks st ≠ [] ∨ cur_text_parts st ≠ [])).
    intros st0 ps pe _ _ _ _ _. left.
    unfold after_emit. cbn [st_chunks]. by destruct (st_chunks st0).
  - intros st0 _ _ _. right. cbn [append_part cur_text_parts].
    by destruct (cur_text_parts st0).
Qed.

(** X21.  [chunk_pages] returns no chunk exactly when the pages have no
    block; so pages of whitespace only, and no page at all, give the empty
    list, and a page with a block always gives a chunk, however short the
    block is and whatever the limits are. *)
Theorem no_chunk_iff_no_block (p : Params) (pages : list PageRecord) :
  ∃ cs, chunk_pages p pages = Ok cs
        ∧ (cs = [] ↔ all_blocks pages = [])
        ∧ (Forall (fun pr => blank (pr_text pr)) pages → cs = []).
Proof.
  unfold chunk_pages.
  destruct (do_pages_trace p
              (fun _ bl st =>
                 state_ok st
                 ∧ (bl = [] → st_chunks st = [] ∧ cur_text_parts st = [])
                 ∧ (bl ≠ [] → st_chunks st ≠ [] ∨ cur_text_parts st ≠ [])))
    with (pages := pages) (seen := @nil PageRecord) (bl := @nil str) (st := init_state)
    as (st & -> & Hok & Hnone & Hsome).
  - intros seen bl pr st (Hok & Hnone & Hsome).
    split_and!; [by apply begin_page_ok | exact Hnone | exact Hsome].
  - intros seen bl pr st b st' (Hok & _ & _) Hb Hstep. split_and!.
    + eapply do_block_ok; [exact Hok | by eapply block_ends_nonspace | exact Hstep].
    + intros Hnil. by destruct bl.
    + intros _. by eapply something_held_block.
  - split_and!; [apply init_state_ok | done | done].
  - cbn [app] in Hnone, Hsome. eexists. split; [reflexivity |].
    assert (Hiff : st_chunks (flush p true st) = [] ↔ all_blocks pages = []).
    { destruct (decide (all_blocks pages = [])) as [Hnil | Hne].
      - destruct (Hnone Hnil) as [Hc Hp].
        assert (Hflush : flush p true st = st).
        { destruct (flush_cases p true st) as [-> | (ps & pe & Hp' & _)]; [done |].
          by rewrite Hp in Hp'. }
        by rewrite Hflush.
      - split; [| done]. intros Hc. exfalso.
        destruct (Hsome Hne) as [Hchunks | Hparts].
        + destruct (flush_chunks p true st) as [rest Hrest]. rewrite Hrest in Hc.
          by destruct (st_chunks st).
        + destruct Hok as (Hpages & Hends & _).
          destruct (Hpages Hparts) as [[ps Hps] [pe Hpe]].
          assert (Ht : strip (join sep (cur_text_parts st)) ≠ []).
          { apply ends_nonspace_strip. by apply join_ends. }
          rewrite (flush_emit p st ps pe Hparts Hps Hpe Ht) in Hc.
          unfold after_emit in Hc. cbn [st_chunks] in Hc.
          by destruct (st_chunks st). }
    split; [exact Hiff |]. intros Hblank. apply Hiff. by apply blank_pages_no_block.
Qed.

(** ** Ingestion and the keys *)

Global Instance any_step_preorder : PreOrder any_step.
Proof. by split. Qed.

Section KeysProps.
Context `{External}.

Lemma keeps_keys_conn {A : Type} (m : M A) :
  (∀ w r w', keys_unique (conn w) → m w = (r, w') →
             keys_unique (conn w') ∧ sqlite_file w' = sqlite_file w) →
  keeps keys_ok any_step m.
Proof.
  intros Hm w r w' [Hc Hd] Hrun. destruct (Hm _ _ _ Hc Hrun) as [Hc' Hs].
  split; [| done]. split; [done |]. unfold disk_db. by rewrite Hs.
Qed.

Lemma ingest_batch_keys (acc : option FaissIndex * Z * Z) (batch : list ChunkObj) :
  keeps keys_ok any_step (ingest_batch acc batch).
Proof.
  destruct acc as [[fio a] r]. unfold ingest_batch.
  apply keeps_bind; [apply _ | |].
  { apply keeps_keys_conn. by intros w r0 w' Hk [= <- <-]. }
  intros [d rows|]; [| apply keeps_raise; apply _].
  destruct (negb _); [apply keeps_raise; apply _ |].
  apply keeps_bind; [apply _ | |].
  { apply keeps_for_each; try apply _. intros rows0 b.
    apply keeps_bind; [apply _ | | intros row; apply keeps_ret; apply _].
    apply keeps_keys_conn. intros w r0 w' Hk Hrun. split.
    - by eapply insert_chunk_keys.
    - revert Hrun. unfold insert_chunk_of, insert_chunk.
      by destruct (negb _); [| destruct (_ || _)]; intros [= <- <-]. }
  intros new_rows. apply keeps_bind; [apply _ | apply keeps_lift; apply _ |].
  intros [ids fi']. apply keeps_bind; [apply _ | |].
  { unfold insert_faiss_map. apply keeps_for_each; try apply _. intros [] m.
    apply keeps_keys_conn. intros w r0 w' Hk Hrun. split.
    - by eapply insert_faiss_row_keys.
    - revert Hrun. unfold insert_faiss_row.
      by destruct (negb _); [| destruct (has_faiss_id _ _)]; intros [= <- <-]. }
  intros _. apply keeps_bind; [apply _ | | intros _; apply keeps_ret; apply _].
  intros w r0 w' [Hc Hd] [= <- <-]. split; [| done]. by split.
Qed.

Lemma ingest_keys (chunks_jsonl : list ChunkObj) (kind : str) (bs : Z)
    (w w' : World) (r : res Stats) :
  keys_unique (disk_db w) →
  ingest chunks_jsonl kind bs w = (r, w') →
  keys_unique (disk_db w').
Proof.
  intros Hkeys. unfold ingest. unfold bind at 1. cbn [MetaStore_init].
  set (w0 := set_conn (default empty_db (sqlite_file w))
               (set_sqlite_file (Some (default empty_db (sqlite_file w))) w)).
  assert (H0 : keys_ok w0) by (by split).
  assert (Hgen : ∀ m : M Stats, keeps keys_ok any_step m →
            m w0 = (r, w') → keys_unique (disk_db w')).
  { intros m Hm Hrun. by destruct (Hm _ _ _ H0 Hrun) as [[_ Hd] _]. }
  apply Hgen. clear Hgen.
  apply keeps_bind; [apply _ | by intros w1 r1 w1' HI [= <- <-] |].
  intros fio. apply keeps_bind; [apply _ | |].
  { unfold pick_embedder. destruct (str_eqb _ _);
      [apply keeps_ret | apply keeps_raise]; apply _. }
  intros _. apply keeps_bind; [apply _ | by intros w1 r1 w1' HI [= <- <-] |].
  intros [[to_add skipped] total].
  assert (Hclose : keeps keys_ok any_step close).
  { intros w1 r1 w1' [Hc Hd] [= <- <-]. split; [| done]. by split. }
  destruct to_add as [|c0 cs].
  - apply keeps_bind; [apply _ | exact Hclose | intros _; apply keeps_ret; apply _].
  - apply keeps_bind; [apply _ | |].
    { unfold batches_of. destruct (bs =? 0); [apply keeps_raise; apply _ |].
      destruct (bs <? 0); apply keeps_ret; apply _. }
    intros bl. apply keeps_bind; [apply _ | |].
    { apply keeps_for_each; try apply _. intros s b. apply ingest_batch_keys. }
    intros [[fio' a] n]. apply keeps_bind; [apply _ | |].
    { unfold save. destruct fio' as [fi|]; [| apply keeps_raise; apply _].
      by intros w1 r1 w1' HI [= <- <-]. }
    intros _. apply keeps_bind; [apply _ | exact Hclose |].
    intros _. apply keeps_ret; apply _.
Qed.

(** X22.  [ingest] keeps the keys of the store: when no [chunk_id], no
    [sha1] and no [faiss_id] is stored twice in the metadata file before a
    run, none is after it, however the run ends. *)
Theorem ingest_keeps_keys (chunks_jsonl : list ChunkObj) (kind : str) (bs : Z)
    (w w' : World) (r : res Stats) :
  keys_unique (disk_db w) →
  ingest chunks_jsonl kind bs w = (r, w') →
  keys_unique (disk_db w').
Proof. apply ingest_keys. Qed.

Lemma resolve1_of_elem (db : DB) (i : Z) (cid : str) (c : ChunkRow) :
  keys_unique db → (i, cid) ∈ faiss_map db → c ∈ chunks db → chunk_id c = cid →
  resolve1 db i = Some (hit_of (i, cid) c).
Proof.
  intros (Hcid & _ & Hpos) Hm Hc Hid. unfold resolve1.
  destruct (find_is_some (fun m => Z.eqb (fst m) i) (faiss_map db) (i, cid) Hm)
    as [m' Hm'].
  { apply Z.eqb_refl. }
  rewrite Hm'. apply find_some_elem in Hm' as [Hin' Hk']. apply Z.eqb_eq in Hk'.
  assert (m' = (i, cid)) as ->.
  { eapply (NoDup_map_elem_inj fst); [exact Hpos | done | done | done]. }
  cbn [snd].
  destruct (find_is_some (fun c => str_eqb (chunk_id c) cid) (chunks db) c Hc)
    as [c' Hc'].
  { by apply str_eqb_eq. }
  rewrite Hc'. apply find_some_elem in Hc' as [Hcin Hce]. apply str_eqb_eq in Hce.
  assert (c' = c) as ->.
  { eapply (NoDup_map_elem_inj chunk_id); [exact Hcid | done | done | congruence]. }
  done.
Qed.

Lemma new_rows_elem (l : list ChunkObj) :
  ∀ (u : nat) (s : Z) (k : nat) (ch : ChunkObj),
    l !! k = Some ch →
    (s + Z.of_nat k, uuid4 (u + k))
      ∈ combine (range s (s + Z.of_nat (length l))) (map chunk_id (rows_from u l))
    ∧ row_of (u + k) ch ∈ rows_from u l.
Proof.
  induction l as [|b l IH]; intros u s k ch Hk; [done |].
  rewrite range_cons by (cbn [length]; lia).
  cbn [rows_from map combine chunk_id row_of].
  destruct k as [|k].
  - cbn in Hk. injection Hk as ->. rewrite Z.add_0_r, Nat.add_0_r.
    split; by left.
  - cbn in Hk. destruct (IH (S u) (s + 1) k ch Hk) as [H1 H2].
    replace (s + 1 + Z.of_nat (length l)) with (s + Z.of_nat (length (b :: l))) in H1
      by (cbn [length]; lia).
    replace (s + 1 + Z.of_nat k) with (s + Z.of_nat (S k)) in H1 by lia.
    replace (S u + k)%nat with (u + S k)%nat in H1, H2 by lia.
    split; by right.
Qed.

Lemma omap_all_some {A B : Type} (f : A → option B) (l : list A) (l' : list B) :
  Forall2 (fun x y => f x = Some y) l l' → omap f l = l'.
Proof.
  induction 1 as [|x y l l' Hxy _ IH]; [done |].
  change (omap f (x :: l)) with (match f x with Some y => y :: omap f l | None => omap f l end).
  by rewrite Hxy, IH.
Qed.

Lemma range_lookup (a b : Z) (k : nat) (i : Z) :
  range a b !! k = Some i → i = a + Z.of_nat k.
Proof.
  unfold range. rewrite list_lookup_fmap. intros Hk.
  destruct (seq 0 (Z.to_nat (b - a)) !! k) as [j|] eqn:Hj; [| done].
  apply lookup_seq in Hj as [-> _]. cbn in Hk. by injection Hk as <-.
Qed.

Hypothesis uuid4_inj : ∀ i j : nat, uuid4 i = uuid4 j → i = j.

(** X23.  Ingest and look up.  After a run that adds new chunks to a
    directory whose files agree, asking [get_chunks_by_faiss_ids] for the
    positions the run gave out returns one dictionary for each chunk of the
    file, in the order of the file, with the columns [insert_chunk] was
    given: the text as it is in the file, the pages, the section and the
    names with their defaults.  This is for chunks whose page numbers and
    new positions are integers that SQLite stores (signed 64-bit), and no
    more chunks than SQLite binds variables in one statement; outside of
    that the run or the look-up raises. *)
Theorem ingest_then_lookup (d : nat) (chunks_jsonl : list ChunkObj) (kind : str)
    (bs : Z) (w : World) :
  lower kind = lit "openai" → 0 < bs →
  ready d w → keys_unique (disk_db w) →
  (∀ n, answers d n) →
  chunks_jsonl ≠ [] → Forall clean chunks_jsonl →
  Forall storable chunks_jsonl →
  disk_ntotal w + Z.of_nat (length chunks_jsonl) ≤ 2 ^ 63 →
  Z.of_nat (length chunks_jsonl) ≤ max_variable_number →
  NoDup (map stored_sha1 chunks_jsonl) →
  (∀ ch, ch ∈ chunks_jsonl → has_sha1 (disk_db w) (stored_sha1 ch) = false) →
  ∃ st w',
    ingest chunks_jsonl kind bs w = (Ok st, w')
    ∧ get_chunks_by_faiss_ids (disk_db w')
        (range (disk_ntotal w) (disk_ntotal w + Z.of_nat (length chunks_jsonl)))
      = Ok (imap (fun k ch => hit_at (disk_ntotal w + Z.of_nat k) ch) chunks_jsonl).
Proof.
  intros Hk Hbs Hready Hkeys Hans Hne Hclean Hst Hroom Hvars Hnd Hnew.
  assert (Hbind : bindable (range (disk_ntotal w)
                             (disk_ntotal w + Z.of_nat (length chunks_jsonl)))).
  { split.
    - rewrite range_length. lia.
    - apply range_sqlite_int; [apply ntotal_opt_nonneg | done]. }
  destruct (ingest_all_new uuid4_inj d chunks_jsonl kind bs w)
    as (fi & w1 & Hrun & _ & _ & Hdb & _ & _); try done.
  cbn zeta in Hrun, Hdb. eexists _, w1. split; [exact Hrun |].
  pose proof (ingest_keys _ _ _ _ _ _ Hkeys Hrun) as Hkeys1.
  assert (Hd1 : disk_db w1
                = db_after (disk_db w) (uuid_drawn w) (disk_ntotal w) chunks_jsonl).
  { unfold disk_db at 1. by rewrite Hdb. }
  rewrite get_chunks_resolve1_eq by done. f_equal. apply omap_all_some.
  apply Forall2_same_length_lookup_2.
  { rewrite length_imap, range_length. lia. }
  intros k i h Hi Hh. apply range_lookup in Hi as ->.
  rewrite list_lookup_imap in Hh.
  destruct (chunks_jsonl !! k) as [ch|] eqn:Hch; [| done]. cbn in Hh.
  injection Hh as <-.
  destruct (new_rows_elem chunks_jsonl (uuid_drawn w) (disk_ntotal w) k ch Hch)
    as [Hm Hc].
  rewrite (resolve1_of_elem (disk_db w1) _ (uuid4 (uuid_drawn w + k))
             (row_of (uuid_drawn w + k) ch)); [done | done | | | done].
  - rewrite Hd1. cbn [db_after faiss_map]. apply elem_of_app. by right.
  - rewrite Hd1. cbn [db_after chunks]. apply elem_of_app. by right.
Qed.
(** X24.  What a run adds.  In a directory whose files agree, with a
    positive batch size and a provider that answers, a run over any chunk
    file returns and stores exactly the chunks that are not blank and whose
    stripped text has no stored hash, in the order of the file, on top of
    what was stored, provided the hashes of their texts as they are (which
    are the ones stored) are distinct and not stored either, and their
    page numbers and new positions are integers that SQLite stores (signed
    64-bit; [insert_chunk] and [insert_faiss_map] raise [OverflowError]
    otherwise); the two files agree again, the other chunks are counted as
    skipped when not blank. *)
Theorem ingest_adds_new (d : nat) (chunks_jsonl : list ChunkObj) (kind : str)
    (bs : Z) (w : World) :
  lower kind = lit "openai" → 0 < bs → ready d w →
  (∀ n, answers d n) →
  Forall storable (List.filter (is_new (disk_db w)) chunks_jsonl) →
  disk_ntotal w + Z.of_nat (length (List.filter (is_new (disk_db w)) chunks_jsonl))
  ≤ 2 ^ 63 →
  NoDup (map stored_sha1 (List.filter (is_new (disk_db w)) chunks_jsonl)) →
  (∀ ch, ch ∈ List.filter (is_new (disk_db w)) chunks_jsonl →
         has_sha1 (disk_db w) (stored_sha1 ch) = false) →
  ∃ st w',
    ingest chunks_jsonl kind bs w = (Ok st, w')
    ∧ added st = Z.of_nat (length (List.filter (is_new (disk_db w)) chunks_jsonl))
    ∧ skipped_existing st
      = Z.of_nat (length (List.filter (is_known (disk_db w)) chunks_jsonl))
    ∧ disk_db w' = db_after (disk_db w) (uuid_drawn w) (disk_ntotal w)
                            (List.filter (is_new (disk_db w)) chunks_jsonl)
    ∧ disk_ntotal w'
      = disk_ntotal w
        + Z.of_nat (length (List.filter (is_new (disk_db w)) chunks_jsonl))
    ∧ consistent w'.
Proof.
  intros Hk Hbs Hready Hans Hst Hroom Hnd Hnew.
  rewrite ingest_collect_spec by done. cbn zeta.
  destruct (List.filter (is_new (disk_db w)) chunks_jsonl) as [|c0 cs] eqn:Hf.
  - eexists _, _. split; [reflexivity |].
    destruct Hready as (Hcons & _ & _).
    cbn [added skipped_existing length]. rewrite db_after_nil.
    split_and!; try done. unfold disk_ntotal. cbn. lia.
  - rewrite <- Hf in *. set (to_add := List.filter (is_new (disk_db w)) chunks_jsonl) in *.
    erewrite bind_ok by (by apply batches_of_pos).
    set (w0 := set_conn (disk_db w) (set_sqlite_file (Some (disk_db w)) w)).
    set (bl := slices (length to_add) (Z.to_nat bs) to_add).
    assert (Hcat : concat bl = to_add) by (apply slices_concat; lia).
    destruct (ingest_batches_ok uuid4_inj d bl (faiss_file w) 0 0 w0)
      as (fio' & Hrun & Hn & Hinv & Hsome).
    + by apply ready_loop_inv.
    + intros j _. apply Hans.
    + by rewrite Hcat.
    + rewrite Hcat. exact Hroom.
    + by rewrite Hcat.
    + rewrite Hcat. exact Hnew.
    + cbn zeta in *. rewrite Hcat in *.
      destruct Hsome as [fi ->].
      { right. subst bl. rewrite Hf. done. }
      eexists _, _. erewrite bind_ok by exact Hrun.
      cbn iota beta. unfold bind, save, close, ret. cbn.
      split_and!; try reflexivity.
      * unfold disk_ntotal. cbn. cbn in Hn. exact Hn.
      * destruct Hinv as (_ & Hpos & Hfk & _). by split.
Qed.
End KeysProps.

Lemma ingest_keeps_keys_witness :
  let w' := snd (@ingest late [text_chunk "c"; text_chunk "d"] (lit "openai") 1
                         full_dir) in
  (keys_unique (disk_db full_dir)
   ∧ @ingest late [text_chunk "c"; text_chunk "d"] (lit "openai") 1 full_dir
     = (Raise EmbeddingProviderError, w'))
  ∧ keys_unique (disk_db w').
Proof.
  intros w'.
  assert (Hrun : @ingest late [text_chunk "c"; text_chunk "d"] (lit "openai") 1
                         full_dir
                 = (Raise EmbeddingProviderError, w')) by (vm_compute; reflexivity).
  split; [split; [exact full_dir_keys | exact Hrun] |].
  exact (@ingest_keeps_keys late _ _ _ full_dir w' _ full_dir_keys Hrun).
Defined.

Lemma ingest_then_lookup_witness :
  (@ready healthy 1 empty_dir ∧ keys_unique (disk_db empty_dir)
   ∧ Forall clean chunks_ab ∧ Forall storable chunks_ab
   ∧ disk_ntotal empty_dir + Z.of_nat (length chunks_ab) ≤ 2 ^ 63
   ∧ Z.of_nat (length chunks_ab) ≤ @max_variable_number healthy)
  ∧ ∃ st w',
      @ingest healthy chunks_ab (lit "openai") 64 empty_dir = (Ok st, w')
      ∧ @get_chunks_by_faiss_ids healthy (disk_db w')
          (range (disk_ntotal empty_dir)
                 (disk_ntotal empty_dir + Z.of_nat (length chunks_ab)))
        = Ok (imap (fun k ch => hit_at (disk_ntotal empty_dir + Z.of_nat k) ch)
                   chunks_ab).
Proof.
  assert (Hkeys : keys_unique (disk_db empty_dir)).
  { split_and!; constructor. }
  assert (Hroom : disk_ntotal empty_dir + Z.of_nat (length chunks_ab) ≤ 2 ^ 63)
    by (vm_compute; discriminate).
  assert (Hvars : Z.of_nat (length chunks_ab) ≤ @max_variable_number healthy)
    by (vm_compute; discriminate).
  split; [split_and!; [apply empty_dir_ready | exact Hkeys | apply chunks_ab_clean
                       | apply chunks_ab_storable | exact Hroom | exact Hvars] |].
  apply (@ingest_then_lookup healthy sample_uuid4_inj 1 chunks_ab (lit "openai") 64
           empty_dir).
  - reflexivity.
  - lia.
  - apply empty_dir_ready.
  - exact Hkeys.
  - apply healthy_answers.
  - done.
  - apply chunks_ab_clean.
  - apply chunks_ab_storable.
  - exact Hroom.
  - exact Hvars.
  - apply chunks_ab_NoDup.
  - intros ch _. reflexivity.
Defined.

(** ** The query: every hit has its score *)

Lemma score_fold_is_Some (l : list (Hit * float32)) :
  ∀ (m0 : gmap Z float32) (key : Z),
    (∃ c s, (c, s) ∈ l ∧ hit_faiss_id c = key) ∨ is_Some (m0 !! key) →
    is_Some (foldl (fun m cs => <[hit_faiss_id (fst cs) := snd cs]> m) m0 l !! key).
Proof.
  induction l as [|[c0 s0] l IH]; intros m0 key Hk.
  - destruct Hk as [(c & s & Hin & _) | Hs]; [| done]. by apply not_elem_of_nil in Hin.
  - cbn [foldl fst snd]. apply IH.
    destruct Hk as [(c & s & Hin & Hkey) | Hs].
    + apply elem_of_cons in Hin as [[= -> ->] | Hin].
      * right. rewrite Hkey. rewrite lookup_insert_eq. by eexists.
      * left. by exists c, s.
    + right. apply lookup_insert_is_Some'. by right.
Qed.

Lemma combine_elem_l {A B : Type} (l : list A) :
  ∀ (k : list B) (x : A), (length l ≤ length k)%nat → x ∈ l → ∃ y, (x, y) ∈ combine l k.
Proof.
  induction l as [|a l IH]; intros k x Hlen Hx; [by apply not_elem_of_nil in Hx |].
  destruct k as [|b k]; [cbn in Hlen; lia |]. cbn [combine].
  apply elem_of_cons in Hx as [-> | Hx].
  - exists b. by left.
  - destruct (IH k x) as [y Hy]; [cbn in Hlen; lia | done |]. exists y. by right.
Qed.

Lemma attach_scores_scored (cs : list Hit) (ss : list float32) :
  (length cs ≤ length ss)%nat →
  Forall (fun h => is_Some (snd h)) (attach_scores cs ss).
Proof.
  intros Hlen. unfold attach_scores. apply Forall_fmap, Forall_forall.
  intros c Hc. cbn. unfold score_of. apply score_fold_is_Some. left.
  destruct (combine_elem_l cs ss c Hlen Hc) as [s Hs]. by exists c, s.
Qed.

Section QueryScored.
Context `{External}.

Lemma pairs_lengths (db : DB) (pairs : list (Z * float32)) (chunks : list Hit) :
  get_chunks_by_faiss_ids db (map fst pairs) = Ok chunks →
  (length chunks ≤ length (map snd pairs))%nat.
Proof.
  intros Hget. rewrite (get_chunks_by_faiss_ids_Ok db _ chunks Hget).
  etrans; [apply omap_length_le |]. by rewrite !length_map.
Qed.

(** X25.  Every hit that [rag_query] returns has a score: the loop over
    [zip(chunks, scores2)] reaches every dictionary of [chunks], because
    [get_chunks_by_faiss_ids] returns at most one for each position it was
    asked for, and each position came with its score.  No assumption on
    the store or on the search is needed. *)
Theorem rag_query_hits_scored (query : str) (top_k : Z) (kind : str)
    (w w' : World) (res : QueryResult) :
  rag_query query top_k kind w = (Found (Ok res), w') →
  Forall (fun h => is_Some (snd h)) (q_hits res).
Proof.
  unfold rag_query.
  destruct (faiss_file w) as [fi|] eqn:Hfi; [| discriminate].
  destruct (sqlite_file w) as [db|] eqn:Hdb; [| discriminate].
  unfold bind at 1, pick_embedder.
  destruct (str_eqb _ _); [| discriminate].
  cbn [ret]. unfold bind at 1, embedder_embed_texts.
  destruct (embed_texts _ _) as [qvec|e]; [| discriminate].
  unfold bind at 1, load. cbn [faiss_file set_embed_called]. rewrite Hfi.
  unfold bind at 1, lift.
  destruct (search fi qvec top_k) as [[ids scores]|e]; [| discriminate].
  unfold bind, MetaStore_init, close, ret. cbn.
  destruct (get_chunks_by_faiss_ids _ _) as [chunks|e] eqn:Hget; [| discriminate].
  intros [= <- <-]. cbn [q_hits]. eapply attach_scores_scored, pairs_lengths, Hget.
Qed.
End QueryScored.

Lemma rag_query_hits_scored_witness :
  let run := @rag_query searching (lit "a") 3 (lit "openai") full_dir in
  ∃ res, run = (Found (Ok res), snd run)
         ∧ Forall (fun h => is_Some (snd h)) (q_hits res).
Proof.
  intros run. eexists.
  assert (Hrun : run = (Found (Ok _), snd run)) by (vm_compute; reflexivity).
  split; [exact Hrun |].
  exact (@rag_query_hits_scored searching _ _ _ full_dir (snd run) _ Hrun).
Defined.

Lemma full_dir_ready : @ready healthy 1 full_dir.
Proof.
  split_and!.
  - exact full_dir_consistent.
  - assert (Hc : chunks (disk_db full_dir) = @rows_from healthy 0 chunks_ab)
      by (vm_compute; reflexivity).
    assert (Hu : uuid_drawn full_dir = 2%nat) by (vm_compute; reflexivity).
    intros r Hr. rewrite Hc in Hr. rewrite Hu. cbn in Hr.
    apply elem_of_cons in Hr as [-> | Hr]; [exists 0%nat; split; [lia | reflexivity] |].
    apply list_elem_of_singleton in Hr as ->. exists 1%nat. split; [lia | reflexivity].
  - intros fi Hfi. vm_compute in Hfi. by injection Hfi as <-.
Qed.

Lemma ingest_adds_new_witness :
  let file := [text_chunk " "; text_chunk "a"; text_chunk "c"; text_chunk "b"] in
  (@ready healthy 1 full_dir
   ∧ Forall storable (List.filter (@is_new healthy (disk_db full_dir)) file)
   ∧ disk_ntotal full_dir
     + Z.of_nat (length (List.filter (@is_new healthy (disk_db full_dir)) file))
     ≤ 2 ^ 63
   ∧ NoDup (map (@stored_sha1 healthy) (List.filter (@is_new healthy (disk_db full_dir)) file)))
  ∧ ∃ st w',
      @ingest healthy file (lit "openai") 64 full_dir = (Ok st, w')
      ∧ added st = Z.of_nat (length (List.filter (@is_new healthy (disk_db full_dir)) file))
      ∧ skipped_existing st
        = Z.of_nat (length (List.filter (@is_known healthy (disk_db full_dir)) file))
      ∧ disk_db w' = @db_after healthy (disk_db full_dir) (uuid_drawn full_dir)
                                (disk_ntotal full_dir)
                                (List.filter (@is_new healthy (disk_db full_dir)) file)
      ∧ disk_ntotal w'
        = disk_ntotal full_dir
          + Z.of_nat (length (List.filter (@is_new healthy (disk_db full_dir)) file))
      ∧ consistent w'.
Proof.
  intros file.
  assert (Hnd : NoDup (map (@stored_sha1 healthy)
                           (List.filter (@is_new healthy (disk_db full_dir)) file))).
  { apply (bool_decide_unpack _). by vm_compute. }
  assert (Hl : List.filter (@is_new healthy (disk_db full_dir)) file = [text_chunk "c"])
    by (vm_compute; reflexivity).
  assert (Hst : Forall storable (List.filter (@is_new healthy (disk_db full_dir)) file)).
  { rewrite Hl. repeat constructor; apply text_chunk_storable. }
  assert (Hroom : disk_ntotal full_dir
                  + Z.of_nat (length (List.filter (@is_new healthy (disk_db full_dir))
                                                  file))
                  ≤ 2 ^ 63) by (vm_compute; discriminate).
  split; [split_and!; [exact full_dir_ready | exact Hst | exact Hroom | exact Hnd] |].
  apply (@ingest_adds_new healthy sample_uuid4_inj 1 file (lit "openai") 64 full_dir).
  - reflexivity.
  - lia.
  - exact full_dir_ready.
  - apply healthy_answers.
  - exact Hst.
  - exact Hroom.
  - exact Hnd.
  - intros ch Hch.
    rewrite Hl in Hch. apply list_elem_of_singleton in Hch as ->. by vm_compute.
Defined.
